(** * OpenPGP.js core: enum registry, byte utilities, GCM nonce, RSA

    A shallow embedding of the parts of the library that the specification
    makes checkable statements about, module by module:

    - [enums]: the algorithm registries, [enums.read] and [enums.write]
      (file [src/enums.js]);
    - [packet/compressed_data]: [compress] and [decompress] (the second
      part of the file [src/enums.js]);
    - [util]: the readers and writers of numbers and MPIs, the byte array
      and string helpers, [canonicalizeEOL], [nativeEOL] and
      [removeTrailingSpaces] (the third part of the file [src/enums.js]);
    - [crypto/mode/gcm]: [GCM.getNonce] (file [unnamed/part_002]);
    - [crypto/hkdf]: [HKDF] (file [unnamed/part_000]);
    - [crypto/public_key/elliptic/oid_curves]: the table of curves,
      [CurveWithOID], the Curve25519 branch of [genKeyPair],
      [validateStandardParams] and the JSON web key conversions (file
      [src/crypto/public_key/elliptic/oid_curves.js]);
    - [crypto/public_key/rsa]: [sign], [verify], [encrypt], [decrypt],
      [validateParams], [bnSign], [bnVerify], [bnEncrypt] and [bnDecrypt]
      (the second part of the same file).

    Conventions.  A [Uint8Array] is a [list Z] whose elements lie in
    [0, 256); a JavaScript exception is the [Throw] constructor of [result];
    a [BigInteger] is a [Z]; an [async] function is the function of its
    result, the code between two [await]s running in source order. *)

From Stdlib Require Import ZArith Lia List Bool.
From Stdlib Require Import Zmod.ZmodInv.
From Stdlib Require Uint63.
From stdpp Require Import base list strings.

Local Open Scope Z_scope.

(** ** Exceptions *)

Inductive result (A : Type) : Type :=
| Ok (a : A)
| Throw (msg : string).
Arguments Ok {A} a.
Arguments Throw {A} msg.

Definition bind {A B} (r : result A) (k : A -> result B) : result B :=
  match r with
  | Ok a => k a
  | Throw m => Throw m
  end.

Notation "'do' x <- r ; k" := (bind r (fun x => k))
  (at level 10, x name, r at level 100, k at level 200).

(** ** [src/enums.js] *)

Module Enums.

(** An enum value is a number (every table but [curve]) or a string
    (the [curve] table maps names and OIDs to a canonical curve name).
    The same type serves as the argument [e] of [read] and [write]
    ([{String|Integer}] in the source).  [VProto k] is the value of the
    property [k] of [Object.prototype]: a function, or the prototype
    itself for [__proto__]; no table holds one, but [type[e]] finds it
    for such a key. *)
Inductive value : Type :=
| VNum (n : Z)
| VStr (s : string)
| VProto (k : string).

Definition value_eqb (a b : value) : bool :=
  match a, b with
  | VNum x, VNum y => Z.eqb x y
  | VStr x, VStr y => String.eqb x y
  | VProto x, VProto y => String.eqb x y
  | _, _ => false
  end.

(** The properties of [Object.prototype] (ECMAScript, with its annex B),
    which an object literal inherits. *)
Definition Object_prototype : list string :=
  [ "constructor"; "__defineGetter__"; "__defineSetter__";
    "hasOwnProperty"; "__lookupGetter__"; "__lookupSetter__";
    "isPrototypeOf"; "propertyIsEnumerable"; "toString"; "valueOf";
    "__proto__"; "toLocaleString" ].

Definition inherited (k : string) : bool :=
  existsb (String.eqb k) Object_prototype.

(** The own enumerable properties of an object literal, in insertion
    order ([Object.entries] order: no key of the tables is an array
    index). *)
Definition props := list (string * value).

(** [type[byValue]]: the reverse table built by [read].  The newest
    assignment is at the head, so that a later [type[byValue][value] = key]
    overrides an earlier one for the same [value].  No string value of a
    table is the decimal form of a number, hence numbers and strings are
    distinct property keys. *)
Definition rev_table := list (value * string).

(** An enum object: its properties and the symbol-keyed cache
    [type[byValue]] ([None] while [read] has not been called on it). *)
Record enum_type : Type := mkEnum {
  entries : props;
  byValue : option rev_table
}.

Definition fresh (p : props) : enum_type := mkEnum p None.

(** The own property [k] of an object literal. *)
Fixpoint get_prop (p : props) (k : string) : option value :=
  match p with
  | [] => None
  | (k', v) :: p' => if String.eqb k' k then Some v else get_prop p' k
  end.

(** [type[e]] for a string key: the own property, or else the one
    inherited from [Object.prototype]; [None] stands for [undefined]. *)
Definition get_member (p : props) (k : string) : option value :=
  match get_prop p k with
  | Some v => Some v
  | None => if inherited k then Some (VProto k) else None
  end.

(** [type[byValue][e]] *)
Fixpoint get_rev (r : rev_table) (e : value) : option string :=
  match r with
  | [] => None
  | (v, k) :: r' => if value_eqb v e then Some k else get_rev r' e
  end.

(** [Object.entries(type).forEach(([key, value]) => { type[byValue][value] = key; })] *)
Definition build_rev (p : props) : rev_table :=
  fold_left (fun r kv => (snd kv, fst kv) :: r) p [].

(** [read(type, e)]: returns the outcome and the (possibly now cached)
    enum object. *)
Definition read (type : enum_type) (e : value) : result string * enum_type :=
  let r := match byValue type with
           | Some r => r
           | None => build_rev (entries type)
           end in
  let type' := mkEnum (entries type) (Some r) in
  match get_rev r e with
  | Some k => (Ok k, type')
  | None => (Throw "Invalid enum value.", type')
  end.

(** [write(type, e)]; a function or an object as [e] is the key of no
    property. *)
Definition write (type : enum_type) (e : value) : result value * enum_type :=
  match e with
  | VNum _ =>
      match read type e with
      | (Ok k, type') =>
          match get_member (entries type') k with
          | Some v => (Ok v, type')
          | None => (Throw "Invalid enum value.", type')
          end
      | (Throw m, type') => (Throw m, type')
      end
  | VStr k =>
      match get_member (entries type) k with
      | Some v => (Ok v, type)
      | None => (Throw "Invalid enum value.", type)
      end
  | VProto _ => (Throw "Invalid enum value.", type)
  end.

Definition num (k : string) (n : Z) : string * value := (k, VNum n).
Definition str (k : string) (s : string) : string * value := (k, VStr s).

Definition curve : props :=
  [ str "p256" "p256"; str "P-256" "p256"; str "secp256r1" "p256";
    str "prime256v1" "p256"; str "1.2.840.10045.3.1.7" "p256";
    str "2a8648ce3d030107" "p256"; str "2A8648CE3D030107" "p256";
    str "p384" "p384"; str "P-384" "p384"; str "secp384r1" "p384";
    str "1.3.132.0.34" "p384"; str "2b81040022" "p384"; str "2B81040022" "p384";
    str "p521" "p521"; str "P-521" "p521"; str "secp521r1" "p521";
    str "1.3.132.0.35" "p521"; str "2b81040023" "p521"; str "2B81040023" "p521";
    str "secp256k1" "secp256k1"; str "1.3.132.0.10" "secp256k1";
    str "2b8104000a" "secp256k1"; str "2B8104000A" "secp256k1";
    str "ed25519Legacy" "ed25519"; str "ED25519" "ed25519";
    str "ed25519" "ed25519"; str "Ed25519" "ed25519";
    str "1.3.6.1.4.1.11591.15.1" "ed25519";
    str "2b06010401da470f01" "ed25519"; str "2B06010401DA470F01" "ed25519";
    str "curve25519Legacy" "curve25519"; str "X25519" "curve25519";
    str "cv25519" "curve25519"; str "curve25519" "curve25519";
    str "Curve25519" "curve25519"; str "1.3.6.1.4.1.3029.1.5.1" "curve25519";
    str "2b060104019755010501" "curve25519"; str "2B060104019755010501" "curve25519";
    str "brainpoolP256r1" "brainpoolP256r1";
    str "1.3.36.3.3.2.8.1.1.7" "brainpoolP256r1";
    str "2b2403030208010107" "brainpoolP256r1";
    str "2B2403030208010107" "brainpoolP256r1";
    str "brainpoolP384r1" "brainpoolP384r1";
    str "1.3.36.3.3.2.8.1.1.11" "brainpoolP384r1";
    str "2b240303020801010b" "brainpoolP384r1";
    str "2B240303020801010B" "brainpoolP384r1";
    str "brainpoolP512r1" "brainpoolP512r1";
    str "1.3.36.3.3.2.8.1.1.13" "brainpoolP512r1";
    str "2b240303020801010d" "brainpoolP512r1";
    str "2B240303020801010D" "brainpoolP512r1" ].

Definition s2k : props :=
  [ num "simple" 0; num "salted" 1; num "iterated" 3; num "gnu" 101 ].

Definition publicKey : props :=
  [ num "rsaEncryptSign" 1; num "rsaEncrypt" 2; num "rsaSign" 3;
    num "elgamal" 16; num "dsa" 17; num "ecdh" 18; num "ecdsa" 19;
    num "eddsaLegacy" 22; num "ed25519Legacy" 22; num "eddsa" 22;
    num "aedh" 23; num "aedsa" 24;
    num "x25519" 25; num "x448" 26; num "ed25519" 27; num "ed448" 28 ].

Definition symmetric : props :=
  [ num "plaintext" 0; num "idea" 1; num "tripledes" 2; num "cast5" 3;
    num "blowfish" 4; num "aes128" 7; num "aes192" 8; num "aes256" 9;
    num "twofish" 10 ].

Definition compression : props :=
  [ num "uncompressed" 0; num "zip" 1; num "zlib" 2; num "bzip2" 3 ].

Definition hash : props :=
  [ num "md5" 1; num "sha1" 2; num "ripemd" 3; num "sha256" 8;
    num "sha384" 9; num "sha512" 10; num "sha224" 11 ].

Definition webHash : props :=
  [ num "SHA-1" 2; num "SHA-256" 8; num "SHA-384" 9; num "SHA-512" 10 ].

Definition aead : props :=
  [ num "eax" 1; num "ocb" 2; num "experimentalGCM" 100 ].

Definition packet : props :=
  [ num "publicKeyEncryptedSessionKey" 1; num "signature" 2;
    num "symEncryptedSessionKey" 3; num "onePassSignature" 4;
    num "secretKey" 5; num "publicKey" 6; num "secretSubkey" 7;
    num "compressedData" 8; num "symmetricallyEncryptedData" 9;
    num "marker" 10; num "literalData" 11; num "trust" 12;
    num "userID" 13; num "publicSubkey" 14; num "userAttribute" 17;
    num "symEncryptedIntegrityProtectedData" 18;
    num "modificationDetectionCode" 19; num "aeadEncryptedData" 20 ].

(** ['b'.charCodeAt()] and so on. *)
Definition literal : props :=
  [ num "binary" 98; num "text" 116; num "utf8" 117; num "mime" 109 ].

Definition signature : props :=
  [ num "binary" 0; num "text" 1; num "standalone" 2;
    num "certGeneric" 16; num "certPersona" 17; num "certCasual" 18;
    num "certPositive" 19; num "certRevocation" 48;
    num "subkeyBinding" 24; num "keyBinding" 25; num "key" 31;
    num "keyRevocation" 32; num "subkeyRevocation" 40;
    num "timestamp" 64; num "thirdParty" 80 ].

Definition signatureSubpacket : props :=
  [ num "signatureCreationTime" 2; num "signatureExpirationTime" 3;
    num "exportableCertification" 4; num "trustSignature" 5;
    num "regularExpression" 6; num "revocable" 7;
    num "keyExpirationTime" 9; num "placeholderBackwardsCompatibility" 10;
    num "preferredSymmetricAlgorithms" 11; num "revocationKey" 12;
    num "issuer" 16; num "notationData" 20;
    num "preferredHashAlgorithms" 21;
    num "preferredCompressionAlgorithms" 22;
    num "keyServerPreferences" 23; num "preferredKeyServer" 24;
    num "primaryUserID" 25; num "policyURI" 26; num "keyFlags" 27;
    num "signersUserID" 28; num "reasonForRevocation" 29;
    num "features" 30; num "signatureTarget" 31;
    num "embeddedSignature" 32; num "issuerFingerprint" 33;
    num "preferredAEADAlgorithms" 34 ].

Definition keyFlags : props :=
  [ num "certifyKeys" 1; num "signData" 2; num "encryptCommunication" 4;
    num "encryptStorage" 8; num "splitPrivateKey" 16;
    num "authentication" 32; num "sharedPrivateKey" 128 ].

Definition armor : props :=
  [ num "multipartSection" 0; num "multipartLast" 1; num "signed" 2;
    num "message" 3; num "publicKey" 4; num "privateKey" 5;
    num "signature" 6 ].

Definition reasonForRevocation : props :=
  [ num "noReason" 0; num "keySuperseded" 1; num "keyCompromised" 2;
    num "keyRetired" 3; num "userIDInvalid" 32 ].

Definition features : props :=
  [ num "modificationDetection" 1; num "aead" 2; num "v5Keys" 4 ].

(** Every enum table of the module. *)
Definition tables : list props :=
  [ curve; s2k; publicKey; symmetric; compression; hash; webHash; aead;
    packet; literal; signature; signatureSubpacket; keyFlags; armor;
    reasonForRevocation; features ].

(** The states an enum object can be in: never read, or carrying the
    reverse table that [read] built from its entries. *)
Definition cache_ok (t : enum_type) : Prop :=
  byValue t = None \/ byValue t = Some (build_rev (entries t)).

(** [type.name] for a table of numbers, as in [enums.publicKey.ecdsa];
    [None] stands for [undefined]. *)
Definition num_of (type : props) (name : string) : option Z :=
  match get_prop type name with
  | Some (VNum n) => Some n
  | _ => None
  end.

End Enums.

(** ** JavaScript numbers and typed arrays *)

Module JS.

(** [ToInt32] and [ToUint32], applied by the bitwise operators. *)
Definition to_int32 (x : Z) : Z := (x + 2 ^ 31) mod 2 ^ 32 - 2 ^ 31.
Definition to_uint32 (x : Z) : Z := x mod 2 ^ 32.

(** [ToUint8], applied when a number is stored in a [Uint8Array]. *)
Definition u8 (x : Z) : Z := x mod 256.

(** The elements of a [Uint8Array]. *)
Definition bytes_ok (a : list Z) : Prop := Forall (fun b => 0 <= b < 256) a.

Definition len (a : list Z) : Z := Z.of_nat (length a).

(** [a[i]]: [None] stands for [undefined] (index out of range). *)
Definition get (a : list Z) (i : Z) : option Z :=
  if i <? 0 then None else a !! Z.to_nat i.

(** [a[i]] as the operand of a bitwise operator: [undefined] counts as 0. *)
Definition get_int (a : list Z) (i : Z) : Z := default 0 (get a i).

(** [a[i] = v] on a typed array: ignored out of range. *)
Definition put (a : list Z) (i : Z) (v : Z) : list Z :=
  if i <? 0 then a else <[Z.to_nat i := u8 v]> a.

(** A relative index of [subarray]/[slice] clamped to the array. *)
Definition clamp_index (n i : Z) : Z :=
  if i <? 0 then Z.max (n + i) 0 else Z.min i n.

(** [a.subarray(b, e)] *)
Definition subarray (a : list Z) (b e : Z) : list Z :=
  let n := len a in
  let b' := clamp_index n b in
  let e' := clamp_index n e in
  take (Z.to_nat (e' - b')) (drop (Z.to_nat b') a).

(** [a.subarray(b)] *)
Definition subarray_from (a : list Z) (b : Z) : list Z :=
  subarray a b (len a).

(** [target.set(source, offset)]: a [RangeError] when the source does
    not fit. *)
Definition set (target source : list Z) (offset : Z) : result (list Z) :=
  if (offset <? 0) || (len target <? offset + len source)
  then Throw "RangeError: offset is out of bounds"
  else Ok (take (Z.to_nat offset) target ++ source
             ++ drop (Z.to_nat (offset + len source)) target).

(** [new Uint8Array(n)] *)
Definition zeros (n : Z) : list Z := replicate (Z.to_nat n) 0.

(** *** Operators, loops and constructors used by the rest of the code *)

(** [x >> s]: [ToInt32] of [x], shifted by the count modulo 32. *)
Definition sar (x s : Z) : Z := Z.shiftr (to_int32 x) (to_uint32 s mod 32).

(** [x << s]: the result is brought back to 32 bits. *)
Definition shl (x s : Z) : Z :=
  to_int32 (Z.shiftl (to_int32 x) (to_uint32 s mod 32)).

(** [x & y], [x | y] and [x ^ y] *)
Definition band (x y : Z) : Z := Z.land (to_int32 x) (to_int32 y).
Definition bor (x y : Z) : Z := Z.lor (to_int32 x) (to_int32 y).
Definition bxor (x y : Z) : Z := Z.lxor (to_int32 x) (to_int32 y).

(** [for (let i = i0; ...; i++) s = body(i, s)], [count] iterations
    being left. *)
Fixpoint for_up {St : Type} (count : nat) (i : Z) (body : Z -> St -> St)
                (s : St) : St :=
  match count with
  | O => s
  | S count' => for_up count' (i + 1) body (body i s)
  end.

(** [for (let i = i0; ...; i--) s = body(i, s)], [count] iterations
    being left. *)
Fixpoint for_down {St : Type} (count : nat) (i : Z) (body : Z -> St -> St)
                  (s : St) : St :=
  match count with
  | O => s
  | S count' => for_down count' (i - 1) body (body i s)
  end.

(** [new Uint8Array(length)] for an integer [length]. *)
Definition new_Uint8Array (length : Z) : result (list Z) :=
  if length <? 0 then Throw "RangeError: Invalid typed array length"
  else Ok (zeros length).

(** [a.copyWithin(target, start, end)]: the elements from [start] up to
    [end] are copied to [target], as far as the array goes. *)
Definition copyWithin (a : list Z) (target start end_ : Z) : list Z :=
  let n := len a in
  let to := clamp_index n target in
  let from := clamp_index n start in
  let final := clamp_index n end_ in
  let count := Z.min (final - from) (n - to) in
  if 0 <? count
  then take (Z.to_nat to) a
         ++ take (Z.to_nat count) (drop (Z.to_nat from) a)
         ++ drop (Z.to_nat (to + count)) a
  else a.

End JS.

(** ** [src/util.js] *)

Module Util.
Import JS.

(** [nbits(x)]: bit length of the integer [x] by binary search. *)
Definition nbits (x : Z) : Z :=
  let r := 1 in
  let t := Z.shiftr (to_uint32 x) 16 in
  let '(x, r) := if t =? 0 then (x, r) else (t, r + 16) in
  let t := Z.shiftr (to_int32 x) 8 in
  let '(x, r) := if t =? 0 then (x, r) else (t, r + 8) in
  let t := Z.shiftr (to_int32 x) 4 in
  let '(x, r) := if t =? 0 then (x, r) else (t, r + 4) in
  let t := Z.shiftr (to_int32 x) 2 in
  let '(x, r) := if t =? 0 then (x, r) else (t, r + 2) in
  let t := Z.shiftr (to_int32 x) 1 in
  let '(x, r) := if t =? 0 then (x, r) else (t, r + 1) in
  r.

(** [for (i = 0; i < bin.length; i++) if (bin[i] !== 0) break;] *)
Fixpoint leading_zeros (bin : list Z) : nat :=
  match bin with
  | [] => O
  | b :: rest => if b =? 0 then S (leading_zeros rest) else O
  end.

(** [uint8ArrayBitLength(bin)] *)
Definition uint8ArrayBitLength (bin : list Z) : Z :=
  let i := Z.of_nat (leading_zeros bin) in
  if i =? len bin then 0
  else
    let stripped := subarray_from bin i in
    (len stripped - 1) * 8 + nbits (get_int stripped 0).

(** [Math.ceil(bitSize / 8)] on a non-negative integer. *)
Definition ceil_div8 (x : Z) : Z := (x + 7) / 8.

(** [uint8ArrayToMPI(bin)] *)
Definition uint8ArrayToMPI (bin : list Z) : result (list Z) :=
  let bitSize := uint8ArrayBitLength bin in
  if bitSize =? 0 then Throw "Zero MPI"
  else
    let stripped := subarray_from bin (len bin - ceil_div8 bitSize) in
    let prefix := [ u8 (Z.shiftr (Z.land (to_int32 bitSize) 0xFF00) 8);
                    u8 (Z.land (to_int32 bitSize) 0xFF) ] in
    Ok (prefix ++ stripped).

(** [readMPI(bytes)]: the source has no [throw]; a missing length byte
    reads as [undefined], which the bitwise operators take for 0.  On
    bytes the shift and the disjunction stay within 32 bits. *)
Definition readMPI (bytes : list Z) : list Z :=
  let bits := Z.lor (Z.shiftl (to_int32 (get_int bytes 0)) 8)
                    (to_int32 (get_int bytes 1)) in
  let bytelen := Z.shiftr (to_uint32 (bits + 7)) 3 in
  subarray bytes 2 (2 + bytelen).


(** *** [equalsUint8Array] *)

(** [for (let i = 0; i < array1.length; i++)
      if (array1[i] !== array2[i]) return false;
    return true;] on arrays of one length. *)
Fixpoint equal_from (array1 array2 : list Z) : bool :=
  match array1, array2 with
  | x :: rest1, y :: rest2 =>
      if negb (x =? y) then false else equal_from rest1 rest2
  | _, _ => true
  end.

(** [equalsUint8Array(array1, array2)] on two typed arrays (anything
    else is rejected with an exception). *)
Definition equalsUint8Array (array1 array2 : list Z) : bool :=
  if negb (len array1 =? len array2) then false
  else equal_from array1 array2.

(** *** [canonicalizeEOL] *)

Definition CR : Z := 13.
Definition LF : Z := 10.

(** [bytes[k] === x]; [undefined] is no byte. *)
Definition is_byte (o : option Z) (x : Z) : bool :=
  match o with
  | Some b => b =? x
  | None => false
  end.

Fixpoint indexOf_aux (l : list Z) (x : Z) (pos : Z) : Z :=
  match l with
  | [] => -1
  | b :: rest => if b =? x then pos else indexOf_aux rest x (pos + 1)
  end.

(** [bytes.indexOf(x, from)] *)
Definition indexOf (bytes : list Z) (x from : Z) : Z :=
  let k := clamp_index (len bytes) from in
  indexOf_aux (drop (Z.to_nat k) bytes) x k.

(** The scanning loop
    [for (let i = 0; ; i = index) { index = bytes.indexOf(LF, i) + 1;
       if (index) { if (bytes[index - 2] !== CR) indices.push(index); }
       else break; }]
    with [fuel] bounding the number of iterations. *)
Fixpoint find_indices (fuel : nat) (bytes : list Z) (i : Z)
                      (indices : list Z) : option (list Z) :=
  match fuel with
  | O => None
  | S fuel' =>
      let index := indexOf bytes LF i + 1 in
      if index =? 0 then Some indices
      else
        find_indices fuel' bytes index
          (if is_byte (get bytes (index - 2)) CR then indices
           else indices ++ [index])
  end.

(** The copying loop
    [for (let i = 0; i < indices.length; i++) {
       const sub = bytes.subarray(indices[i - 1] || 0, indices[i]);
       normalized.set(sub, j); j += sub.length;
       normalized[j - 1] = CR; normalized[j] = LF; j++; }]
    where [prev] is [indices[i - 1] || 0]; it returns [normalized] and [j]. *)
Fixpoint fill (bytes : list Z) (prev : Z) (indices : list Z)
              (normalized : list Z) (j : Z) : result (list Z * Z) :=
  match indices with
  | [] => Ok (normalized, j)
  | idx :: rest =>
      let sub := subarray bytes prev idx in
      do n1 <- set normalized sub j;
      let j1 := j + len sub in
      let n2 := put n1 (j1 - 1) CR in
      let n3 := put n2 j1 LF in
      fill bytes idx rest n3 (j1 + 1)
  end.

(** The transformer of one chunk; [carryOverCR] is the variable shared
    by the chunk and flush callbacks.  The result is the new
    [carryOverCR] and the chunk passed downstream; [None] when the
    scanning loop is cut short. *)
Definition process (carryOverCR : bool) (chunk : list Z)
  : option (result (bool * list Z)) :=
  let bytes := if carryOverCR then [CR] ++ chunk else chunk in
  let ends_CR := is_byte (get bytes (len bytes - 1)) CR in
  let bytes := if ends_CR then subarray bytes 0 (-1) else bytes in
  match find_indices (S (length bytes)) bytes 0 [] with
  | None => None
  | Some [] => Some (Ok (ends_CR, bytes))
  | Some indices =>
      let normalized := zeros (len bytes + len indices) in
      Some (do nj <- fill bytes 0 indices normalized 0;
            do normalized <- set nj.1 (subarray_from bytes (List.last indices 0)) nj.2;
            Ok (ends_CR, normalized))
  end.

(** [stream.transform(data, process, finish)] of the streams library:
    [process] is applied to every chunk in order and [finish] once the
    input ends; what they return is passed on, chunk by chunk.  A plain
    array is treated like a stream of that one chunk. *)
Fixpoint transform (carryOverCR : bool) (data : list (list Z))
  : option (result (list (list Z))) :=
  match data with
  | [] => Some (Ok (if carryOverCR then [[CR]] else []))
  | chunk :: data' =>
      match process carryOverCR chunk with
      | None => None
      | Some (Throw m) => Some (Throw m)
      | Some (Ok (carry', out)) =>
          match transform carry' data' with
          | None => None
          | Some (Throw m) => Some (Throw m)
          | Some (Ok outs) => Some (Ok (out :: outs))
          end
      end
  end.

(** [canonicalizeEOL(data)] *)
Definition canonicalizeEOL (data : list (list Z))
  : option (result (list (list Z))) :=
  transform false data.

(** *** Numbers *)

(** [readNumber(bytes)].  The sum is one of JavaScript numbers, exact as
    long as it stays below [2 ^ 53], that is for up to six bytes. *)
Definition readNumber (bytes : list Z) : Z :=
  for_up (length bytes) 0
    (fun i n => n + 256 ^ i * get_int bytes (len bytes - 1 - i)) 0.

(** [writeNumber(n, bytes)] for integers [n] and [bytes]. *)
Definition writeNumber (n bytes : Z) : result (list Z) :=
  do b <- new_Uint8Array bytes;
  Ok (for_up (Z.to_nat bytes) 0
        (fun i b => put b i (band (sar n (8 * (bytes - i - 1))) 0xFF)) b).

(** [leftPad(bytes, length)] *)
Definition leftPad (bytes : list Z) (length : Z) : result (list Z) :=
  do padded <- new_Uint8Array length;
  do padded <- set padded bytes (length - len bytes);
  Ok padded.

(** [writeChecksum(text)] *)
Definition writeChecksum (text : list Z) : result (list Z) :=
  let s := for_up (length text) 0
             (fun i s => band (s + get_int text i) 0xFFFF) 0 in
  writeNumber s 2.

(** [double(data)] *)
Definition double (data : list Z) : list Z :=
  let doubleVar := zeros (len data) in
  let last := len data - 1 in
  let doubleVar :=
    for_up (Z.to_nat last) 0
      (fun i doubleVar =>
         put doubleVar i (bxor (shl (get_int data i) 1)
                               (sar (get_int data (i + 1)) 7)))
      doubleVar in
  put doubleVar last (bxor (shl (get_int data last) 1)
                           (sar (get_int data 0) 7 * 0x87)).

(** [shiftRight(array, bits)]: the array is updated in place and
    returned. *)
Definition shiftRight (array : list Z) (bits : Z) : list Z :=
  if bits =? 0 then array
  else
    for_down (length array) (len array - 1)
      (fun i array =>
         let array := put array i (sar (get_int array i) bits) in
         if 0 <? i
         then put array i (bor (get_int array i)
                               (shl (get_int array (i - 1)) (8 - bits)))
         else array)
      array.

(** [selectUint8Array(cond, a, b)]; the Boolean [cond] counts as 1 or 0
    in the arithmetic, and so do the two comparisons. *)
Definition selectUint8Array (cond : bool) (a b : list Z) : list Z :=
  let c := Z.b2z cond in
  let length := Z.max (len a) (len b) in
  let result := zeros length in
  let re :=
    for_up (Z.to_nat (len result)) 0
      (fun i (re : list Z * Z) =>
         (put re.1 i (bor (band (get_int a i) (256 - c))
                          (band (get_int b i) (255 + c))),
          re.2 + bor (band c (Z.b2z (i <? len a)))
                     (band (1 - c) (Z.b2z (i <? len b)))))
      (result, 0) in
  subarray re.1 0 re.2.

(** [selectUint8(cond, a, b)] *)
Definition selectUint8 (cond : bool) (a b : Z) : Z :=
  let c := Z.b2z cond in
  bor (band a (256 - c)) (band b (255 + c)).

(** *** Hexadecimal strings

    Names and strings of hexadecimal digits are [string]s, one
    character standing for one code unit below 256. *)

(** The digit that [Number.prototype.toString(16)] writes for a value
    below 16. *)
Definition hex_digit (d : Z) : Ascii.ascii :=
  default Ascii.zero (String.get (Z.to_nat d) "0123456789abcdef").

(** [b.toString(16)] for an element [b] of a [Uint8Array]. *)
Definition toString16 (b : Z) : string :=
  if b <? 16 then String (hex_digit b) EmptyString
  else String (hex_digit (b / 16))
              (String (hex_digit (b mod 16)) EmptyString).

(** [while (h.length < 2) h = '0' + h;]; two iterations bring any string
    to two characters. *)
Fixpoint pad_hex (count : nat) (h : string) : string :=
  match count with
  | O => h
  | S count' =>
      if Z.of_nat (String.length h) <? 2
      then pad_hex count' (String.append "0" h)
      else h
  end.

(** [uint8ArrayToHex(bytes)] *)
Definition uint8ArrayToHex (bytes : list Z) : string :=
  let r := for_up (length bytes) 0
             (fun c r => r ++ [pad_hex 2 (toString16 (get_int bytes c))])
             [] in
  String.concat "" r.

(** The code unit of a character. *)
Definition code (c : Ascii.ascii) : Z := Z.of_nat (Ascii.nat_of_ascii c).

(** The white space that [parseInt] skips, among the code units below
    256: TAB, LF, VT, FF, CR, SP and NBSP. *)
Definition is_white_space (c : Ascii.ascii) : bool :=
  let n := code c in
  (n =? 9) || (n =? 10) || (n =? 11) || (n =? 12) || (n =? 13)
  || (n =? 32) || (n =? 160).

Fixpoint trim_start (s : string) : string :=
  match s with
  | String c s' => if is_white_space c then trim_start s' else s
  | EmptyString => s
  end.

(** The value of a digit in radix 16. *)
Definition digit16 (c : Ascii.ascii) : option Z :=
  let n := code c in
  if (48 <=? n) && (n <=? 57) then Some (n - 48)
  else if (97 <=? n) && (n <=? 102) then Some (n - 87)
  else if (65 <=? n) && (n <=? 70) then Some (n - 55)
  else None.

(** The number written by the longest prefix of [s] made of digits;
    [acc] is the number read so far, [None] while no digit was read. *)
Fixpoint digits16 (s : string) (acc : option Z) : option Z :=
  match s with
  | String c s' =>
      match digit16 c with
      | Some d => digits16 s' (Some (default 0 acc * 16 + d))
      | None => acc
      end
  | EmptyString => acc
  end.

(** [parseInt(s, 16)]; [None] stands for [NaN].  The code units 45, 43,
    48, 120 and 88 are the characters [-], [+], [0], [x] and [X]. *)
Definition parseInt16 (s : string) : option Z :=
  let s := trim_start s in
  let signed :=
    match s with
    | String c s' =>
        if code c =? 45 then (-1, s')
        else if code c =? 43 then (1, s')
        else (1, s)
    | EmptyString => (1, s)
    end in
  let sign := signed.1 in
  let s := signed.2 in
  let s :=
    match s with
    | String c (String x s') =>
        if (code c =? 48) && ((code x =? 120) || (code x =? 88))
        then s' else s
    | _ => s
    end in
  option_map (Z.mul sign) (digits16 s None).

(** [hexToUint8Array(hex)]; [NaN] is stored as 0. *)
Definition hexToUint8Array (hex : string) : list Z :=
  let n := sar (Z.of_nat (String.length hex)) 1 in
  for_up (Z.to_nat n) 0
    (fun k result =>
       put result k
         (default 0 (parseInt16 (String.substring (Z.to_nat (shl k 1)) 2 hex))))
    (zeros n).

(** *** Strings of code units

    Where the characters of a string are data, the string is the list of
    its UTF-16 code units. *)

(** [1 << 14] *)
Definition bs : Z := shl 1 14.

(** [for (let i = 0; i < j; i += bs)
      result.push(String.fromCharCode.apply(String,
        bytes.subarray(i, i + bs < j ? i + bs : j)));]
    with [fuel] bounding the number of iterations. *)
Fixpoint to_string_loop (fuel : nat) (bytes : list Z) (i j : Z)
                        (result : list (list Z)) : option (list (list Z)) :=
  match fuel with
  | O => None
  | S fuel' =>
      if i <? j
      then to_string_loop fuel' bytes (i + bs) j
             (result ++ [subarray bytes i (if i + bs <? j then i + bs else j)])
      else Some result
  end.

(** [uint8ArrayToString(bytes)] on a typed array, of which
    [new Uint8Array(bytes)] is a copy; [None] when the loop is cut
    short. *)
Definition uint8ArrayToString (bytes : list Z) : option (list Z) :=
  option_map (@concat Z)
    (to_string_loop (S (length bytes)) bytes 0 (len bytes) []).

(** [stringToUint8Array(str)] on a string (anything else is rejected
    with an exception). *)
Definition stringToUint8Array (str : list Z) : list Z :=
  for_up (length str) 0
    (fun i result => put result i (get_int str i))
    (zeros (len str)).

(** [text.split('\n')] *)
Fixpoint split_lines (text : list Z) : list (list Z) :=
  match text with
  | [] => [[]]
  | c :: rest =>
      if c =? 10 then [] :: split_lines rest
      else match split_lines rest with
           | line :: lines => (c :: line) :: lines
           | [] => [[c]]
           end
  end.

(** [lines.join('\n')] *)
Fixpoint join_lines (lines : list (list Z)) : list Z :=
  match lines with
  | [] => []
  | [line] => line
  | line :: lines' => line ++ 10 :: join_lines lines'
  end.

(** [line[i] === ' ' || line[i] === '\t' || line[i] === '\r'] *)
Definition is_trailing (o : option Z) : bool :=
  is_byte o 32 || is_byte o 9 || is_byte o 13.

(** [for (; i >= 0 && (...); i--);] with [count] iterations left at
    most; it returns [i]. *)
Fixpoint strip_index (count : nat) (line : list Z) (i : Z) : Z :=
  match count with
  | O => i
  | S count' =>
      if (0 <=? i) && is_trailing (get line i)
      then strip_index count' line (i - 1)
      else i
  end.

(** The function mapped over the lines:
    [line => { let i = line.length - 1; for (...); return line.substr(0, i + 1); }] *)
Definition strip_line (line : list Z) : list Z :=
  let i := strip_index (length line) line (len line - 1) in
  take (Z.to_nat (i + 1)) line.

(** [removeTrailingSpaces(text)] *)
Definition removeTrailingSpaces (text : list Z) : list Z :=
  join_lines (map strip_line (split_lines text)).

(** *** [nativeEOL] *)

(** The loop
    [for (let i = 0; i !== bytes.length; i = index) {
       index = bytes.indexOf(CR, i) + 1;
       if (!index) index = bytes.length;
       const last = index - (bytes[index] === LF ? 1 : 0);
       if (i) bytes.copyWithin(j, i, last);
       j += last - i; }]
    with [fuel] bounding the number of iterations; it returns [bytes]
    and [j]. *)
Fixpoint native_loop (fuel : nat) (bytes : list Z) (i j : Z)
  : option (list Z * Z) :=
  match fuel with
  | O => None
  | S fuel' =>
      if i =? len bytes then Some (bytes, j)
      else
        let index := indexOf bytes CR i + 1 in
        let index := if index =? 0 then len bytes else index in
        let last := index - (if is_byte (get bytes index) LF then 1 else 0) in
        let bytes := if i =? 0 then bytes else copyWithin bytes j i last in
        native_loop fuel' bytes index (j + (last - i))
  end.

(** The transformer of one chunk of [nativeEOL]: the new [carryOverCR]
    and the chunk passed downstream; [None] when the loop is cut
    short. *)
Definition process_native (carryOverCR : bool) (chunk : list Z)
  : option (bool * list Z) :=
  let bytes := if carryOverCR && negb (is_byte (get chunk 0) LF)
               then [CR] ++ chunk else chunk in
  let ends_CR := is_byte (get bytes (len bytes - 1)) CR in
  let bytes := if ends_CR then subarray bytes 0 (-1) else bytes in
  match native_loop (S (length bytes)) bytes 0 0 with
  | None => None
  | Some (bytes, j) => Some (ends_CR, subarray bytes 0 j)
  end.

(** [stream.transform(data, process, finish)] for [nativeEOL], as for
    [canonicalizeEOL]. *)
Fixpoint transform_native (carryOverCR : bool) (data : list (list Z))
  : option (list (list Z)) :=
  match data with
  | [] => Some (if carryOverCR then [[CR]] else [])
  | chunk :: data' =>
      match process_native carryOverCR chunk with
      | None => None
      | Some (carry', out) =>
          match transform_native carry' data' with
          | None => None
          | Some outs => Some (out :: outs)
          end
      end
  end.

(** [nativeEOL(data)] *)
Definition nativeEOL (data : list (list Z)) : option (list (list Z)) :=
  transform_native false data.

End Util.

(** ** Reference notions used in the statements *)

Module Spec.
Import JS.

(** The bit length of the big-endian byte string [b :: rest] with [b]
    non-zero: the bit length of the most significant byte plus eight bits
    for every byte that follows. *)
Definition bit_length (b : Z) (rest : list Z) : Z :=
  Z.log2 b + 1 + 8 * len rest.

(** Line-ending canonicalisation as the specification words it: a CR is
    put in front of every LF that does not already follow a CR, and
    every byte of the input is copied.  [prevCR] tells whether the byte
    before [l] was a CR. *)
Fixpoint canonical_eol (prevCR : bool) (l : list Z) : list Z :=
  match l with
  | [] => []
  | b :: rest =>
      (if (b =? Util.LF) && negb prevCR then [Util.CR; Util.LF] else [b])
        ++ canonical_eol (b =? Util.CR) rest
  end.

(** Whether the last byte of [l] is a CR; [prevCR] answers for the
    empty [l]. *)
Definition ends_with_cr (prevCR : bool) (l : list Z) : bool :=
  match last l with
  | Some b => b =? Util.CR
  | None => prevCR
  end.

(** The end positions (index plus one, the first byte of [l] having
    index [pos]) of the LFs of [l] that do not follow a CR. *)
Fixpoint bare_lf_ends (prevCR : bool) (pos : Z) (l : list Z) : list Z :=
  match l with
  | [] => []
  | b :: rest =>
      (if (b =? Util.LF) && negb prevCR then [pos + 1] else [])
        ++ bare_lf_ends (b =? Util.CR) (pos + 1) rest
  end.

(** Every LF of [l] directly follows a CR. *)
Definition lf_follows_cr (l : list Z) : Prop :=
  forall i, l !! i = Some Util.LF ->
            exists j, i = S j /\ l !! j = Some Util.CR.

(** Neither CR nor LF. *)
Definition not_eol (b : Z) : bool :=
  negb (b =? Util.CR) && negb (b =? Util.LF).

(** The number that a byte string denotes, most significant byte
    first. *)
Definition big_endian (l : list Z) : Z :=
  fold_left (fun acc b => acc * 256 + b) l 0.

(** The number of bits of the shortest binary form of a non-negative
    integer. *)
Definition bits_of (x : Z) : Z := if x =? 0 then 0 else Z.log2 x + 1.

(** The first byte of [l] is an LF. *)
Definition starts_with_lf (l : list Z) : bool :=
  match l with
  | c :: _ => c =? Util.LF
  | [] => false
  end.

(** Line endings made native, as the source words it ("from
    canonicalized <CR><LF> to native <LF>"): every CR that an LF follows
    directly is taken out. *)
Fixpoint native_eol (l : list Z) : list Z :=
  match l with
  | [] => []
  | b :: rest =>
      if (b =? Util.CR) && starts_with_lf rest
      then native_eol rest
      else b :: native_eol rest
  end.

(** No CR of [l] is directly followed by an LF. *)
Definition no_crlf (l : list Z) : Prop :=
  forall i, l !! i = Some Util.CR -> l !! S i <> Some Util.LF.

End Spec.

(** ** [src/crypto/mode/gcm.js] *)

Module GCM.
Import JS.

(** The typed arrays live in a store; a reference is an index into it,
    so that two references may denote the same array. *)
Abbreviation store := (list (list Z)) (only parsing).
Abbreviation ref := nat (only parsing).

Definition deref (h : store) (r : ref) : list Z := default [] (h !! r).

(** [a.slice()]: a fresh array holding a copy of [a]. *)
Definition slice (h : store) (r : ref) : store * ref :=
  (h ++ [deref h r], length h).

(** [nonce[j] ^= chunkIndex[i]] *)
Definition xor_assign (h : store) (nonce : ref) (j : Z)
                      (chunkIndex : ref) (i : Z) : store :=
  let a := deref h nonce in
  let v := Z.lxor (to_int32 (get_int a j))
                  (to_int32 (get_int (deref h chunkIndex) i)) in
  <[nonce := put a j v]> h.

(** [for (let i = 0; i < chunkIndex.length; i++) nonce[4 + i] ^= chunkIndex[i];]
    with [count] iterations left. *)
Fixpoint xor_loop (count : nat) (i : Z) (h : store)
                  (nonce chunkIndex : ref) : store :=
  match count with
  | O => h
  | S count' =>
      xor_loop count' (i + 1) (xor_assign h nonce (4 + i) chunkIndex i)
               nonce chunkIndex
  end.

(** [GCM.getNonce(iv, chunkIndex)] *)
Definition getNonce (h : store) (iv chunkIndex : ref) : store * ref :=
  let '(h1, nonce) := slice h iv in
  (xor_loop (length (deref h1 chunkIndex)) 0 h1 nonce chunkIndex, nonce).

End GCM.

(** ** Big integers, PKCS#1 and the random source *)

Module BigInteger.
Import JS.

(** Modelled from the spec: the big-integer module [src/biginteger] is
    not among the sources at hand.  Section 3 fixes the byte form of a
    multi-precision integer, "big-endian unsigned integer", and the
    arithmetic is the one of the integers, the specification
    prescribing no particular big-integer library.

    [new BigInteger(bytes)] *)
Definition of_bytes (bytes : list Z) : Z :=
  fold_left (fun acc b => acc * 256 + b) bytes 0.

(** Modelled from the spec: the [k] low-order bytes of [x], least
    significant first. *)
Fixpoint to_bytes_le (k : nat) (x : Z) : list Z :=
  match k with
  | O => []
  | S k' => x mod 256 :: to_bytes_le k' (x / 256)
  end.

(** Modelled from the spec: [x.toUint8Array('be', length)], the
    big-endian bytes of [x] left-padded with zero bytes to [length]. *)
Definition toUint8Array (x : Z) (length : Z) : list Z :=
  rev (to_bytes_le (Z.to_nat length) x).

(** Modelled from the spec: [x.bitLength()], the number of bits of the
    shortest big-endian form of [x]. *)
Definition bitLength (x : Z) : Z := if x <=? 0 then 0 else Z.log2 x + 1.

(** Modelled from the spec: [x.byteLength()], the number of bytes of the
    shortest big-endian form of [x]. *)
Definition byteLength (x : Z) : Z := if x <=? 0 then 0 else Z.log2 x / 8 + 1.

(** Modelled from the spec: [a.mod(m)], the remainder of the integers,
    which lies in [0, m) for a positive modulus.  There is no remainder
    for the modulus zero: the division of JavaScript's [BigInt], which
    the module rests on, throws a [RangeError] there. *)
Definition modulo (a m : Z) : result Z :=
  if m =? 0 then Throw "RangeError: Division by zero"
  else Ok (a mod m).

(** Modelled from the spec: [b.modExp(e, n)], modular exponentiation. *)
Definition modExp (b e n : Z) : Z := b ^ e mod n.

(** Modelled from the spec: [a.modInv(n)], the inverse of [a] modulo
    [n]; there is none unless [a] and [n] are coprime. *)
Definition modInv (a n : Z) : result Z :=
  if Z.gcd a n =? 1 then Ok (Z.invmod a n)
  else Throw "Inverse does not exist".

End BigInteger.

Module PKCS1.
Import JS.

Section Emsa.
(** The DigestInfo prefix of each hash algorithm, by algorithm ID
    (the table [hash_headers] of [src/crypto/pkcs1.js]). *)
Variable hash_headers : Z -> list Z.

(** Modelled from the spec: [emsaEncode] of [src/crypto/pkcs1.js] is
    not among the sources at hand.  Section 4.3: "Signature uses
    EMSA-PKCS1-v1.5 encoding with the algorithm-appropriate DigestInfo
    prefix", that is [00 01 FF .. FF 00 | prefix | hash] with at least
    eight bytes of [FF], of total length [emLen]. *)
Definition emsaEncode (algo : Z) (hashed : list Z) (emLen : Z)
  : result (list Z) :=
  let hashPrefix := hash_headers algo in
  let tLen := len hashPrefix + len hashed in
  if emLen <? tLen + 11
  then Throw "Intended encoded message length too short"
  else Ok ([0; 1] ++ replicate (Z.to_nat (emLen - tLen - 3)) 255
             ++ [0] ++ hashPrefix ++ hashed).
End Emsa.

(** Modelled from the spec: the padding string [PS] and the message
    [M] of an EME-PKCS1-v1.5 block, separated by the first zero byte. *)
Fixpoint split_at_zero (l : list Z) : option (list Z * list Z) :=
  match l with
  | [] => None
  | b :: rest =>
      if b =? 0 then Some ([], rest)
      else match split_at_zero rest with
           | Some (ps, m) => Some (b :: ps, m)
           | None => None
           end
  end.

(** Modelled from the spec: the EME-PKCS1-v1.5 block
    [00 02 | PS | 00 | M] with [PS] at least eight non-zero bytes
    (Section 4.3: "encryption uses EME-PKCS1-v1.5 with random non-zero
    padding"); [None] is a padding failure. *)
Definition eme_payload (encoded : list Z) : option (list Z) :=
  match encoded with
  | 0 :: 2 :: rest =>
      match split_at_zero rest with
      | Some (ps, m) => if 8 <=? len ps then Some m else None
      | None => None
      end
  | _ => None
  end.

(** Modelled from the spec: [emeDecode] of [src/crypto/pkcs1.js] is not
    among the sources at hand.  Section 7: the constant-time path
    "replaces the would-be-error with a caller-supplied random payload";
    without such a payload a padding failure is an error. *)
Definition emeDecode (encoded : list Z) (randomPayload : option (list Z))
  : result (list Z) :=
  match eme_payload encoded, randomPayload with
  | Some m, _ => Ok m
  | None, Some payload => Ok payload
  | None, None => Throw "Decryption error"
  end.

End PKCS1.

(** ** [src/crypto/public_key/rsa.js] *)

Module RSA.
Import JS BigInteger.

Section Random.
(** [getRandomBigInteger(min, max)] of [src/crypto/random.js], the
    random source: what it returns on the call at hand. *)
Variable getRandomBigInteger : Z -> Z -> Z.

(** [validateParams(n, e, d, p, q, u)]; the second operand of [&&] is
    evaluated only when the first is true. *)
Definition validateParams (n e d p q u : list Z) : result bool :=
  let n := of_bytes n in
  let p := of_bytes p in
  let q := of_bytes q in
  if negb (p * q =? n) then Ok false
  else
    let two := 2 in
    let u := of_bytes u in
    do pu <- modulo (p * u) q;
    if negb (pu =? 1) then Ok false
    else
      let e := of_bytes e in
      let d := of_bytes d in
      let nSizeOver3 := bitLength n / 3 in
      let r := getRandomBigInteger two (Z.shiftl two nSizeOver3) in
      let rde := r * d * e in
      do rp <- modulo rde (p - 1);
      do areInverses <-
        (if rp =? r
         then do rq <- modulo rde (q - 1); Ok (rq =? r)
         else Ok false);
      if negb areInverses then Ok false
      else Ok true.

(** The numeric part of [bnDecrypt]: the blinded CRT exponentiation,
    up to the block handed to [emeDecode]. *)
Definition decrypt_block (data n e d p q u : list Z) : result (list Z) :=
  let data := of_bytes data in
  let n := of_bytes n in
  let e := of_bytes e in
  let d := of_bytes d in
  let p := of_bytes p in
  let q := of_bytes q in
  let u := of_bytes u in
  if n <=? data then Throw "Data too large."
  else
    let dq := d mod (q - 1) in
    let dp := d mod (p - 1) in
    let unblinder := getRandomBigInteger 2 n mod n in
    do inverse <- modInv unblinder n;
    let blinder := modExp inverse e n in
    let data := (data * blinder) mod n in
    let mp := modExp data dp p in
    let mq := modExp data dq q in
    let h := (u * (mq - mp)) mod q in
    let result := h * p + mp in
    let result := (result * unblinder) mod n in
    Ok (toUint8Array result (byteLength n)).

(** [bnDecrypt(data, n, e, d, p, q, u, randomPayload)] *)
Definition bnDecrypt (data n e d p q u : list Z)
                     (randomPayload : option (list Z)) : result (list Z) :=
  do block <- decrypt_block data n e d p q u;
  PKCS1.emeDecode block randomPayload.

(** [decrypt(data, n, e, d, p, q, u, randomPayload)] *)
Definition decrypt (data n e d p q u : list Z)
                   (randomPayload : option (list Z)) : result (list Z) :=
  bnDecrypt data n e d p q u randomPayload.
End Random.

Section Sign.
(** The DigestInfo prefixes, see [PKCS1.emsaEncode]. *)
Variable hash_headers : Z -> list Z.

(** [bnSign(hashAlgo, n, d, hashed)] *)
Definition bnSign (hashAlgo : Z) (n d hashed : list Z) : result (list Z) :=
  let n := of_bytes n in
  do em <- PKCS1.emsaEncode hash_headers hashAlgo hashed (byteLength n);
  let m := of_bytes em in
  let d := of_bytes d in
  if n <=? m then Throw "Message size cannot exceed modulus size"
  else Ok (toUint8Array (modExp m d n) (byteLength n)).

(** [bnVerify(hashAlgo, s, n, e, hashed)] *)
Definition bnVerify (hashAlgo : Z) (s n e hashed : list Z) : result bool :=
  let n := of_bytes n in
  let s := of_bytes s in
  let e := of_bytes e in
  if n <=? s then Throw "Signature size cannot exceed modulus size"
  else
    let EM1 := toUint8Array (modExp s e n) (byteLength n) in
    do EM2 <- PKCS1.emsaEncode hash_headers hashAlgo hashed (byteLength n);
    Ok (Util.equalsUint8Array EM1 EM2).
End Sign.

Section Encrypt.
(** [emeEncode(message, keyLength)] of [src/crypto/pkcs1.js], which
    draws the padding at random: what it returns on the call at
    hand. *)
Variable emeEncode : list Z -> Z -> result (list Z).

(** [bnEncrypt(data, n, e)] *)
Definition bnEncrypt (data n e : list Z) : result (list Z) :=
  let n := of_bytes n in
  do em <- emeEncode data (byteLength n);
  let data := of_bytes em in
  let e := of_bytes e in
  if n <=? data then Throw "Message size cannot exceed modulus size"
  else Ok (toUint8Array (modExp data e n) (byteLength n)).

(** [encrypt(data, n, e)] *)
Definition encrypt (data n e : list Z) : result (list Z) :=
  bnEncrypt data n e.
End Encrypt.

Section Web.
Variable hash_headers : Z -> list Z.
(** [webSign] and [webVerify], which call the Web Cryptography API,
    given the name of the hash and the other arguments. *)
Variable webSign : string -> list Z -> list Z -> list Z -> list Z
                   -> list Z -> list Z -> list Z -> result (list Z).
Variable webVerify : string -> list Z -> list Z -> list Z -> list Z
                     -> result bool.

(** [sign(hashAlgo, data, n, e, d, p, q, u, hashed)]; [data] is [None]
    when it is absent or a stream, and [webCrypto] tells whether
    [util.getWebCrypto()] is there.  What the [try] block throws is
    logged and followed by [bnSign]. *)
Definition sign (webCrypto : bool) (hashAlgo : Z) (data : option (list Z))
                (n e d p q u hashed : list Z) : result (list Z) :=
  let attempt :=
    match data with
    | Some data =>
        if webCrypto
        then Some (do hashName <- fst (Enums.read (Enums.fresh Enums.webHash)
                                                  (Enums.VNum hashAlgo));
                   webSign hashName data n e d p q u)
        else None
    | None => None
    end in
  match attempt with
  | Some (Ok signature) => Ok signature
  | _ => bnSign hash_headers hashAlgo n d hashed
  end.

(** [verify(hashAlgo, data, s, n, e, hashed)] *)
Definition verify (webCrypto : bool) (hashAlgo : Z) (data : option (list Z))
                  (s n e hashed : list Z) : result bool :=
  let attempt :=
    match data with
    | Some data =>
        if webCrypto
        then Some (do hashName <- fst (Enums.read (Enums.fresh Enums.webHash)
                                                  (Enums.VNum hashAlgo));
                   webVerify hashName data s n e)
        else None
    | None => None
    end in
  match attempt with
  | Some (Ok valid) => Ok valid
  | _ => bnVerify hash_headers hashAlgo s n e hashed
  end.
End Web.

End RSA.

(** ** [src/crypto/public_key/elliptic/oid_curves.js] *)

Module Curves.
Import JS.

(** An entry of the table [curves]; [None] stands for a property that
    the entry does not have. *)
Record curve_params : Type := mkParams {
  oid : list Z;
  keyType : option Z;
  hash : option Z;
  cipher : option Z;
  web : option string;
  payloadSize : Z;
  sharedSize : option Z
}.

Definition webCurves : list (string * string) :=
  [ ("p256", "P-256"); ("p384", "P-384"); ("p521", "P-521") ].

(** [webCurves.name] *)
Fixpoint web_name (l : list (string * string)) (name : string)
  : option string :=
  match l with
  | [] => None
  | (k, v) :: l' => if String.eqb k name then Some v else web_name l' name
  end.

Definition curves : list (string * curve_params) :=
  [ ("p256",
     mkParams [0x06; 0x08; 0x2A; 0x86; 0x48; 0xCE; 0x3D; 0x03; 0x01; 0x07]
              (Enums.num_of Enums.publicKey "ecdsa")
              (Enums.num_of Enums.hash "sha256")
              (Enums.num_of Enums.symmetric "aes128")
              (web_name webCurves "p256") 32 (Some 256));
    ("p384",
     mkParams [0x06; 0x05; 0x2B; 0x81; 0x04; 0x00; 0x22]
              (Enums.num_of Enums.publicKey "ecdsa")
              (Enums.num_of Enums.hash "sha384")
              (Enums.num_of Enums.symmetric "aes192")
              (web_name webCurves "p384") 48 (Some 384));
    ("p521",
     mkParams [0x06; 0x05; 0x2B; 0x81; 0x04; 0x00; 0x23]
              (Enums.num_of Enums.publicKey "ecdsa")
              (Enums.num_of Enums.hash "sha512")
              (Enums.num_of Enums.symmetric "aes256")
              (web_name webCurves "p521") 66 (Some 528));
    ("secp256k1",
     mkParams [0x06; 0x05; 0x2B; 0x81; 0x04; 0x00; 0x0A]
              (Enums.num_of Enums.publicKey "ecdsa")
              (Enums.num_of Enums.hash "sha256")
              (Enums.num_of Enums.symmetric "aes128")
              None 32 None);
    ("ed25519",
     mkParams [0x06; 0x09; 0x2B; 0x06; 0x01; 0x04; 0x01; 0xDA; 0x47; 0x0F; 0x01]
              (Enums.num_of Enums.publicKey "eddsaLegacy")
              (Enums.num_of Enums.hash "sha512")
              None
              None 32 None);
    ("curve25519",
     mkParams [0x06; 0x0A; 0x2B; 0x06; 0x01; 0x04; 0x01; 0x97; 0x55; 0x01; 0x05; 0x01]
              (Enums.num_of Enums.publicKey "ecdh")
              (Enums.num_of Enums.hash "sha256")
              (Enums.num_of Enums.symmetric "aes128")
              None 32 None);
    ("brainpoolP256r1",
     mkParams [0x06; 0x09; 0x2B; 0x24; 0x03; 0x03; 0x02; 0x08; 0x01; 0x01; 0x07]
              (Enums.num_of Enums.publicKey "ecdsa")
              (Enums.num_of Enums.hash "sha256")
              (Enums.num_of Enums.symmetric "aes128")
              None 32 None);
    ("brainpoolP384r1",
     mkParams [0x06; 0x09; 0x2B; 0x24; 0x03; 0x03; 0x02; 0x08; 0x01; 0x01; 0x0B]
              (Enums.num_of Enums.publicKey "ecdsa")
              (Enums.num_of Enums.hash "sha384")
              (Enums.num_of Enums.symmetric "aes192")
              None 48 None);
    ("brainpoolP512r1",
     mkParams [0x06; 0x09; 0x2B; 0x24; 0x03; 0x03; 0x02; 0x08; 0x01; 0x01; 0x0D]
              (Enums.num_of Enums.publicKey "ecdsa")
              (Enums.num_of Enums.hash "sha512")
              (Enums.num_of Enums.symmetric "aes256")
              None 64 None) ].

(** [curves[name]] *)
Fixpoint curve_entry (l : list (string * curve_params)) (name : string)
  : option curve_params :=
  match l with
  | [] => None
  | (k, v) :: l' => if String.eqb k name then Some v else curve_entry l' name
  end.

(** [curves[this.name]] for what [enums.write] returned on
    [enums.curve]: a string is looked up among the entries, no value of
    [enums.curve] being the name of a property of [Object.prototype];
    the string form of a number or of a function is no key. *)
Definition curves_at (name : Enums.value) : option curve_params :=
  match name with
  | Enums.VStr k => curve_entry curves k
  | _ => None
  end.

(** The fields that the constructor of [CurveWithOID] sets; [c_web]
    tells whether [this.web] is set, and [c_type] is [None] when
    [this.type] is left undefined. *)
Record curve : Type := mkCurve {
  c_name : Enums.value;
  c_keyType : option Z;
  c_oid : list Z;
  c_hash : option Z;
  c_cipher : option Z;
  c_web : bool;
  c_payloadSize : Z;
  c_type : option string
}.

(** [new CurveWithOID(oidOrName, params)] for a curve name or the string
    of an OID; [webCrypto] tells whether [util.getWebCrypto()] is there.
    [enums.write] on a string leaves the cache of the table alone.  Only
    what [enums.write] throws is turned into "Unknown curve"; without
    [params], reading [keyType] of the [undefined] that [curves] has for
    the name throws a [TypeError]. *)
Definition CurveWithOID (webCrypto : bool) (oidOrName : string)
                        (params : option curve_params) : result curve :=
  match fst (Enums.write (Enums.fresh Enums.curve) (Enums.VStr oidOrName)) with
  | Throw _ => Throw "Unknown curve"
  | Ok name =>
      let params := match params with
                    | Some p => Some p
                    | None => curves_at name
                    end in
      match params with
      | None => Throw "TypeError: Cannot read properties of undefined"
      | Some params =>
          let this_web :=
            match web params, curves_at name with
            | Some _, Some _ => true
            | _, _ => false
            end in
          Ok (mkCurve name (keyType params) (oid params) (hash params)
                      (cipher params) this_web (payloadSize params)
                      (if this_web && webCrypto then Some "web"
                       else if Enums.value_eqb name (Enums.VStr "curve25519")
                       then Some "curve25519"
                       else if Enums.value_eqb name (Enums.VStr "ed25519")
                       then Some "ed25519"
                       else None))
      end
  end.

(** [getPreferredHashAlgo(oid)], given [oid.toHex()]. *)
Definition getPreferredHashAlgo (oid_toHex : string) : result (option Z) :=
  match fst (Enums.write (Enums.fresh Enums.curve) (Enums.VStr oid_toHex)) with
  | Ok name =>
      match curves_at name with
      | Some params => Ok (hash params)
      | None => Throw "TypeError: Cannot read properties of undefined"
      end
  | Throw m => Throw m
  end.

Section Externals.
(** [getRandomBytes(length)] of [src/crypto/random.js]: what it
    returns on the call at hand. *)
Variable getRandomBytes : Z -> list Z.
(** [nacl.box.keyPair.fromSecretKey(secretKey).publicKey] of the
    library tweetnacl. *)
Variable nacl_box_publicKey : list Z -> list Z.
(** The check on the other curves, made by the library elliptic:
    parsing [Q], and comparing it with [d] times the base point. *)
Variable indutny_valid : string -> list Z -> list Z -> bool.

(** [genKeyPair()] on a curve of type ['curve25519']: the pair
    [(publicKey, privateKey)]. *)
Definition genKeyPair_curve25519 : list Z * list Z :=
  let privateKey := getRandomBytes 32 in
  let privateKey :=
    put privateKey 0 (bor (band (get_int privateKey 0) 127) 64) in
  let privateKey := put privateKey 31 (band (get_int privateKey 31) 248) in
  let secretKey := rev privateKey in
  let keyPair_publicKey := nacl_box_publicKey secretKey in
  let publicKey := [0x40] ++ keyPair_publicKey in
  (publicKey, privateKey).

(** Whether [supportedCurves[curveName]] is truthy, as the functions
    inherited from [Object.prototype] are. *)
Definition supportedCurves (algo : Z) (curveName : string) : bool :=
  if String.eqb curveName "p256" then true
  else if String.eqb curveName "p384" then true
  else if String.eqb curveName "p521" then true
  else if String.eqb curveName "secp256k1" then true
  else if String.eqb curveName "curve25519"
  then match Enums.num_of Enums.publicKey "ecdh" with
       | Some ecdh => algo =? ecdh
       | None => false
       end
  else if String.eqb curveName "brainpoolP256r1" then true
  else if String.eqb curveName "brainpoolP384r1" then true
  else if String.eqb curveName "brainpoolP512r1" then true
  else Enums.inherited curveName.

(** [validateStandardParams(algo, oid, Q, d)], given [oid.getName()]. *)
Definition validateStandardParams (algo : Z) (curveName : string)
                                  (Q d : list Z) : bool :=
  if negb (supportedCurves algo curveName) then false
  else if String.eqb curveName "curve25519" then
    let d := rev d in
    let publicKey := nacl_box_publicKey d in
    let dG := [0x40] ++ publicKey in
    if negb (Util.equalsUint8Array dG Q) then false else true
  else indutny_valid curveName Q d.
End Externals.

Section Base64.
(** [uint8ArrayToB64(bytes, true)] and [b64ToUint8Array(base64)] of
    [src/encoding/base64.js]. *)
Variable uint8ArrayToB64 : list Z -> string.
Variable b64ToUint8Array : string -> list Z.

(** The properties [crv], [x] and [y] of a JSON web key ([kty] is
    ['EC'] and [ext] is [true]). *)
Record jwk : Type := mkJwk { crv : string; x : string; y : string }.

(** [jwkToRawPublic(jwk)] *)
Definition jwkToRawPublic (k : jwk) : result (list Z) :=
  let bufX := b64ToUint8Array (x k) in
  let bufY := b64ToUint8Array (y k) in
  do publicKey <- new_Uint8Array (len bufX + len bufY + 1);
  let publicKey := put publicKey 0 0x04 in
  do publicKey <- set publicKey bufX 1;
  do publicKey <- set publicKey bufY (len bufX + 1);
  Ok publicKey.

(** [rawPublicToJWK(payloadSize, name, publicKey)]; [slice] takes the
    same elements as [subarray]. *)
Definition rawPublicToJWK (payloadSize : Z) (name : string)
                          (publicKey : list Z) : jwk :=
  let len := payloadSize in
  let bufX := subarray publicKey 1 (len + 1) in
  let bufY := subarray publicKey (len + 1) (len * 2 + 1) in
  mkJwk name (uint8ArrayToB64 bufX) (uint8ArrayToB64 bufY).
End Base64.

End Curves.

(** ** [src/packet/compressed_data.js] *)

Module CompressedData.
Import JS.

Section Codecs.
(** The packet list: [PacketList.fromBinary] with the allowed packets
    and the configuration at hand, and [packets.write()]. *)
Variable PacketList : Type.
Variable fromBinary : list Z -> result PacketList.
Variable packets_write : PacketList -> list Z.
(** The codecs of the libraries pako and seek-bzip on a whole array:
    [pako_zlib(Deflate, { raw: true, level })], [pako_zlib(Deflate,
    { level })], [pako_zlib(Inflate, { raw: true })],
    [pako_zlib(Inflate)] and [bzip2(BunzipDecode)]. *)
Variable deflate_raw deflate : list Z -> Z -> list Z.
Variable inflate_raw inflate bunzip : list Z -> result (list Z).

(** The fields of a [CompressedDataPacket]; [None] stands for
    [null]. *)
Record packet : Type := mkPacket {
  packets : option PacketList;
  algorithm : Z;
  compressed : option (list Z);
  deflateLevel : Z
}.

Definition uncompressed (data : list Z) : result (list Z) := Ok data.

(** [compress_fns[name]] and [decompress_fns[name]]; [None] stands for
    [undefined]. *)
Definition compress_fns (name : string)
  : option (list Z -> Z -> list Z) :=
  if String.eqb name "zip" then Some deflate_raw
  else if String.eqb name "zlib" then Some deflate
  else None.

Definition decompress_fns (name : string)
  : option (list Z -> result (list Z)) :=
  if String.eqb name "uncompressed" then Some uncompressed
  else if String.eqb name "zip" then Some inflate_raw
  else if String.eqb name "zlib" then Some inflate
  else if String.eqb name "bzip2" then Some bunzip
  else None.

(** [enums.read(enums.compression, this.algorithm)]; what [read]
    answers does not depend on the state of its cache. *)
Definition compressionName (this : packet) : result string :=
  fst (Enums.read (Enums.fresh Enums.compression)
                  (Enums.VNum (algorithm this))).

(** [decompress(config)], called with data in [this.compressed]: the
    new [this.packets]. *)
Definition decompress (this : packet) (data : list Z) : result PacketList :=
  do compressionName <- compressionName this;
  match decompress_fns compressionName with
  | None => Throw (String.append compressionName " decompression not supported")
  | Some decompressionFn =>
      do bytes <- decompressionFn data;
      fromBinary bytes
  end.

(** [compress()]: the new [this.compressed]. *)
Definition compress (this : packet) : result (list Z) :=
  do compressionName <- compressionName this;
  match compress_fns compressionName with
  | None => Throw (String.append compressionName " compression not supported")
  | Some compressionFn =>
      match packets this with
      | None => Throw "TypeError: Cannot read properties of null"
      | Some p => Ok (compressionFn (packets_write p) (deflateLevel this))
      end
  end.
End Codecs.

End CompressedData.

(** ** [src/crypto/hkdf.js] *)

Module HKDF.

Section Web.
(** [crypto.importKey] followed by [crypto.deriveBits] of the Web
    Cryptography API, given the name of the hash, the key, the salt,
    the info and the number of bits. *)
Variable deriveBits : string -> list Z -> list Z -> list Z -> Z
                      -> result (list Z).

(** [HKDF(hashAlgo, inputKey, salt, info, outLen)]; [webCrypto] tells
    whether the Web Cryptography API is there.  The empty string is
    the one string that [!hash] holds of. *)
Definition HKDF (webCrypto : bool) (hashAlgo : Z)
                (inputKey salt info : list Z) (outLen : Z)
  : result (list Z) :=
  do hash <- fst (Enums.read (Enums.fresh Enums.webHash)
                             (Enums.VNum hashAlgo));
  if String.eqb hash "" then Throw "Hash algo not supported with HKDF"
  else if webCrypto
  then deriveBits hash inputKey salt info (outLen * 8)
  else Throw "No HKDF implementation available".
End Web.

End HKDF.

(** ** Auxiliary definitions of the proofs *)

Module Aux.
Import JS Uint63.

(** The keys of an object literal are pairwise distinct. *)
Definition keys_distinct (p : Enums.props) : bool :=
  bool_decide (NoDup (map fst p)).

(** The loop of [GCM.getNonce] on the nonce array alone. *)
Fixpoint xor_bytes (count : nat) (i : Z) (a c : list Z) : list Z :=
  match count with
  | O => a
  | S count' =>
      xor_bytes count' (i + 1)
        (put a (4 + i) (Z.lxor (to_int32 (get_int a (4 + i)))
                               (to_int32 (get_int c i)))) c
  end.

(** Trial division by the odd numbers from 3 on, in machine integers:
    the next divisor, and whether none has divided [p] so far. *)
Definition trial_step (p : int) (st : int * bool) : int * bool :=
  (Uint63.add st.1 (of_Z 2),
   st.2 && negb (Uint63.eqb (Uint63.mod p st.1) (of_Z 0))).

(** [p] is odd, greater than 2, divisible by none of the first [iters]
    odd numbers from 3 on, and smaller than the square of the next
    one; everything stays below [2 ^ 62]. *)
Definition prime_check (p : Z) (iters : positive) : bool :=
  let next := 3 + 2 * Z.pos iters in
  (2 <? p) && (p <? 2 ^ 62) && (next <? 2 ^ 62) && (p <? next * next)
  && negb (p mod 2 =? 0)
  && (Pos.iter (trial_step (of_Z p)) (of_Z 3, true) iters).2.

(** A space, a tab or a carriage return. *)
Definition trailing (c : Z) : bool := (c =? 32) || (c =? 9) || (c =? 13).

(** A line holds no line feed. *)
Definition no_lf (line : list Z) : Prop := Forall (fun c => c <> 10) line.

(** Some entry of the table has the value [v]. *)
Definition occurs (v : Enums.value) (p : Enums.props) : bool :=
  existsb (fun kv => Enums.value_eqb (snd kv) v) p.

(** No two entries of the table have the same value. *)
Fixpoint values_distinct (p : Enums.props) : bool :=
  match p with
  | [] => true
  | (_, v) :: p' => negb (occurs v p') && values_distinct p'
  end.

(** A codec between byte arrays and strings, one character for a byte:
    an instance of the interface of [src/encoding/base64.js]. *)
Definition bytes_to_string (b : list Z) : string :=
  String.string_of_list_ascii (map (fun x => Ascii.ascii_of_nat (Z.to_nat x)) b).
Definition string_to_bytes (s : string) : list Z :=
  map (fun c => Z.of_nat (Ascii.nat_of_ascii c)) (String.list_ascii_of_string s).

End Aux.

(** * Properties of the enum registry *)

Section EnumsFacts.
Import Enums Aux.

Lemma value_eqb_eq a b : value_eqb a b = true <-> a = b.
Proof.
  destruct a, b; simpl; split; intros H; try discriminate.
  - apply Z.eqb_eq in H. congruence.
  - injection H as ->. apply Z.eqb_refl.
  - apply String.eqb_eq in H. congruence.
  - injection H as ->. apply String.eqb_refl.
  - apply String.eqb_eq in H. congruence.
  - injection H as ->. apply String.eqb_refl.
Qed.

(** An own property is what [type[e]] finds. *)
Lemma get_member_own p k v : get_prop p k = Some v -> get_member p k = Some v.
Proof. intros H. unfold get_member. by rewrite H. Qed.

Lemma value_eqb_refl a : value_eqb a a = true.
Proof. by apply value_eqb_eq. Qed.

(** Looking a value up in the accumulated reverse table. *)
Lemma get_rev_fold p : forall acc e,
  get_rev (fold_left (fun r kv => (snd kv, fst kv) :: r) p acc) e =
  match get_rev (build_rev p) e with
  | Some k => Some k
  | None => get_rev acc e
  end.
Proof.
  unfold build_rev. induction p as [|[k v] p IH]; intros acc e; simpl.
  - reflexivity.
  - rewrite (IH [(v, k)]), (IH ((v, k) :: acc)). simpl.
    destruct (get_rev _ e); [reflexivity|].
    destruct (value_eqb v e); reflexivity.
Qed.

Lemma build_rev_cons k v p e :
  get_rev (build_rev ((k, v) :: p)) e =
  match get_rev (build_rev p) e with
  | Some k' => Some k'
  | None => if value_eqb v e then Some k else None
  end.
Proof. unfold build_rev at 1. simpl. rewrite get_rev_fold. reflexivity. Qed.

(** A name found by the reverse table is an entry with that value. *)
Lemma build_rev_sound p : forall e k,
  get_rev (build_rev p) e = Some k -> In (k, e) p.
Proof.
  induction p as [|[k0 v0] p IH]; intros e k.
  - discriminate.
  - rewrite build_rev_cons. destruct (get_rev (build_rev p) e) eqn:E.
    + intros [= <-]. right. by apply IH.
    + destruct (value_eqb v0 e) eqn:Ev; [|discriminate].
      intros [= <-]. apply value_eqb_eq in Ev as ->. by left.
Qed.

(** Every value of the table is found. *)
Lemma build_rev_complete p : forall e k,
  In (k, e) p -> exists k', get_rev (build_rev p) e = Some k'.
Proof.
  induction p as [|[k0 v0] p IH]; intros e k Hin.
  - destruct Hin.
  - rewrite build_rev_cons. destruct Hin as [[= -> ->]|Hin].
    + destruct (get_rev (build_rev p) e); eauto.
      rewrite value_eqb_refl. eauto.
    + destruct (IH _ _ Hin) as [k' ->]. eauto.
Qed.

Lemma build_rev_none p e :
  (forall k, ~ In (k, e) p) -> get_rev (build_rev p) e = None.
Proof.
  intros H. destruct (get_rev (build_rev p) e) eqn:E; [|reflexivity].
  apply build_rev_sound in E. by apply H in E.
Qed.

(** Object literals have distinct keys, so a listed entry is what the
    property lookup returns. *)
Lemma get_prop_In p : forall k v,
  NoDup (map fst p) -> In (k, v) p -> get_prop p k = Some v.
Proof.
  induction p as [|[k0 v0] p IH]; intros k v Hnd Hin; [destruct Hin|].
  simpl in *. apply NoDup_cons in Hnd as [Hnotin Hnd].
  destruct Hin as [[= -> ->]|Hin].
  - by rewrite String.eqb_refl.
  - destruct (String.eqb k0 k) eqn:E.
    + apply String.eqb_eq in E as ->. exfalso. apply Hnotin.
      apply list_elem_of_In, in_map_iff. by exists (k, v).
    + by apply IH.
Qed.

Lemma tables_keys_distinct : forallb keys_distinct tables = true.
Proof. vm_compute. reflexivity. Qed.

Lemma table_NoDup p : In p tables -> NoDup (map fst p).
Proof.
  intros Hin. pose proof tables_keys_distinct as H.
  rewrite forallb_forall in H. apply H in Hin.
  unfold keys_distinct in Hin. by apply bool_decide_eq_true in Hin.
Qed.

(** The reverse table [read] consults, whatever the cache state. *)
Lemma read_table t e :
  cache_ok t ->
  read t e =
  (match get_rev (build_rev (entries t)) e with
   | Some k => Ok k
   | None => Throw "Invalid enum value."
   end, mkEnum (entries t) (Some (build_rev (entries t)))).
Proof.
  intros [H|H]; unfold read; rewrite H; destruct (get_rev _ e); reflexivity.
Qed.

(** [read] leaves the object in a consistent state. *)
Lemma read_cache_ok t e : cache_ok t -> cache_ok (snd (read t e)).
Proof. intros H. rewrite read_table by done. right. reflexivity. Qed.

End EnumsFacts.

(** C7. The numeric identifiers of the registries are the ones the
    specification lists: public-key, symmetric, hash, compression, AEAD and
    S2K algorithms, looked up by name in the tables of [enums]. *)
Theorem algorithm_ids_stable :
  let id (t : Enums.props) (name : string) := Enums.get_prop t name in
  (id Enums.publicKey "rsaEncryptSign" = Some (Enums.VNum 1) /\
   id Enums.publicKey "rsaEncrypt" = Some (Enums.VNum 2) /\
   id Enums.publicKey "rsaSign" = Some (Enums.VNum 3) /\
   id Enums.publicKey "elgamal" = Some (Enums.VNum 16) /\
   id Enums.publicKey "dsa" = Some (Enums.VNum 17) /\
   id Enums.publicKey "ecdh" = Some (Enums.VNum 18) /\
   id Enums.publicKey "ecdsa" = Some (Enums.VNum 19) /\
   id Enums.publicKey "eddsaLegacy" = Some (Enums.VNum 22) /\
   id Enums.publicKey "x25519" = Some (Enums.VNum 25) /\
   id Enums.publicKey "x448" = Some (Enums.VNum 26) /\
   id Enums.publicKey "ed25519" = Some (Enums.VNum 27) /\
   id Enums.publicKey "ed448" = Some (Enums.VNum 28)) /\
  (id Enums.symmetric "plaintext" = Some (Enums.VNum 0) /\
   id Enums.symmetric "idea" = Some (Enums.VNum 1) /\
   id Enums.symmetric "tripledes" = Some (Enums.VNum 2) /\
   id Enums.symmetric "cast5" = Some (Enums.VNum 3) /\
   id Enums.symmetric "blowfish" = Some (Enums.VNum 4) /\
   id Enums.symmetric "aes128" = Some (Enums.VNum 7) /\
   id Enums.symmetric "aes192" = Some (Enums.VNum 8) /\
   id Enums.symmetric "aes256" = Some (Enums.VNum 9) /\
   id Enums.symmetric "twofish" = Some (Enums.VNum 10)) /\
  (id Enums.hash "md5" = Some (Enums.VNum 1) /\
   id Enums.hash "sha1" = Some (Enums.VNum 2) /\
   id Enums.hash "ripemd" = Some (Enums.VNum 3) /\
   id Enums.hash "sha256" = Some (Enums.VNum 8) /\
   id Enums.hash "sha384" = Some (Enums.VNum 9) /\
   id Enums.hash "sha512" = Some (Enums.VNum 10) /\
   id Enums.hash "sha224" = Some (Enums.VNum 11)) /\
  (id Enums.compression "uncompressed" = Some (Enums.VNum 0) /\
   id Enums.compression "zip" = Some (Enums.VNum 1) /\
   id Enums.compression "zlib" = Some (Enums.VNum 2) /\
   id Enums.compression "bzip2" = Some (Enums.VNum 3)) /\
  (id Enums.aead "eax" = Some (Enums.VNum 1) /\
   id Enums.aead "ocb" = Some (Enums.VNum 2) /\
   id Enums.aead "experimentalGCM" = Some (Enums.VNum 100)) /\
  (id Enums.s2k "simple" = Some (Enums.VNum 0) /\
   id Enums.s2k "salted" = Some (Enums.VNum 1) /\
   id Enums.s2k "iterated" = Some (Enums.VNum 3) /\
   id Enums.s2k "gnu" = Some (Enums.VNum 101)).
Proof. cbv zeta. repeat split; reflexivity. Qed.

(** C10. For every enum table, in any state of its reverse-table cache,
    and every number [v]: if some name of the table maps to [v] then
    [write] returns [v] and [read] returns a name that the table maps back
    to [v]; if no name maps to [v] then [read] and [write] both throw. *)
Theorem enum_round_trip_and_rejection (t : Enums.enum_type) (v : Z) :
  In (Enums.entries t) Enums.tables ->
  Enums.cache_ok t ->
  ((exists name, In (name, Enums.VNum v) (Enums.entries t)) ->
     fst (Enums.write t (Enums.VNum v)) = Ok (Enums.VNum v) /\
     exists name, fst (Enums.read t (Enums.VNum v)) = Ok name /\
                  Enums.get_prop (Enums.entries t) name = Some (Enums.VNum v)) /\
  ((forall name, ~ In (name, Enums.VNum v) (Enums.entries t)) ->
     fst (Enums.read t (Enums.VNum v)) = Throw "Invalid enum value." /\
     fst (Enums.write t (Enums.VNum v)) = Throw "Invalid enum value.").
Proof.
  intros Htab Hc. pose proof (table_NoDup _ Htab) as Hnd.
  split.
  - intros [name Hin].
    destruct (build_rev_complete _ _ _ Hin) as [k Hk].
    pose proof (build_rev_sound _ _ _ Hk) as Hk_in.
    pose proof (get_prop_In _ _ _ Hnd Hk_in) as Hget.
    unfold Enums.write. rewrite read_table by done. rewrite Hk. simpl.
    rewrite (get_member_own _ _ _ Hget). simpl. split; [reflexivity|].
    by exists k.
  - intros Hnone. pose proof (build_rev_none _ _ Hnone) as Hk.
    unfold Enums.write. rewrite read_table by done. rewrite Hk. simpl. done.
Qed.

(** The law at [symmetric]: 7 is the value of [aes128]; no name has the
    value 5. *)
Lemma enum_round_trip_and_rejection_witness :
  (fst (Enums.write (Enums.fresh Enums.symmetric) (Enums.VNum 7)) = Ok (Enums.VNum 7) /\
   exists name, fst (Enums.read (Enums.fresh Enums.symmetric) (Enums.VNum 7)) = Ok name /\
     Enums.get_prop Enums.symmetric name = Some (Enums.VNum 7)) /\
  (fst (Enums.read (Enums.fresh Enums.symmetric) (Enums.VNum 5))
     = Throw "Invalid enum value." /\
   fst (Enums.write (Enums.fresh Enums.symmetric) (Enums.VNum 5))
     = Throw "Invalid enum value.").
Proof.
  split.
  - refine (proj1 (enum_round_trip_and_rejection
                     (Enums.fresh Enums.symmetric) 7 _ _) _).
    + vm_compute. tauto.
    + left. reflexivity.
    + exists "aes128"%string. vm_compute. tauto.
  - refine (proj2 (enum_round_trip_and_rejection
                     (Enums.fresh Enums.symmetric) 5 _ _) _).
    + vm_compute. tauto.
    + left. reflexivity.
    + intros name Hin. vm_compute in Hin.
      repeat (destruct Hin as [Hin|Hin]; [discriminate|]). exact Hin.
Defined.

Example read_eddsa : fst (Enums.read (Enums.fresh Enums.publicKey) (Enums.VNum 22)) = Ok "eddsa"%string.
Proof. reflexivity. Qed.

Example read_unassigned : fst (Enums.read (Enums.fresh Enums.symmetric) (Enums.VNum 5)) = Throw "Invalid enum value.".
Proof. reflexivity. Qed.

(** * Typed-array facts *)

Section ArrayFacts.
Import JS.

Lemma to_int32_small x : - 2 ^ 31 <= x < 2 ^ 31 -> to_int32 x = x.
Proof. intros H. unfold to_int32. rewrite Z.mod_small; lia. Qed.

Lemma to_uint32_small x : 0 <= x < 2 ^ 32 -> to_uint32 x = x.
Proof. intros H. unfold to_uint32. apply Z.mod_small. lia. Qed.

Lemma u8_small x : 0 <= x < 256 -> u8 x = x.
Proof. intros H. unfold u8. apply Z.mod_small. lia. Qed.

Lemma len_nonneg a : 0 <= len a.
Proof. unfold len. lia. Qed.

Lemma len_app a b : len (a ++ b) = len a + len b.
Proof. unfold len. rewrite length_app. lia. Qed.

Lemma len_cons x a : len (x :: a) = 1 + len a.
Proof. unfold len. simpl length. lia. Qed.

Lemma subarray_from_drop a i :
  0 <= i <= len a -> subarray_from a i = drop (Z.to_nat i) a.
Proof.
  intros H. unfold subarray_from, subarray, clamp_index.
  pose proof (len_nonneg a).
  replace (len a <? 0) with false by lia.
  replace (i <? 0) with false by lia.
  rewrite (Z.min_l i) by lia. rewrite Z.min_id.
  apply take_ge. rewrite length_drop. unfold len in *. lia.
Qed.

Lemma subarray_take_drop a b e :
  0 <= b <= e -> e <= len a ->
  subarray a b e = take (Z.to_nat (e - b)) (drop (Z.to_nat b) a).
Proof.
  intros H1 H2. unfold subarray, clamp_index.
  replace (b <? 0) with false by lia.
  replace (e <? 0) with false by lia.
  rewrite !Z.min_l by lia. reflexivity.
Qed.

Lemma get_0_cons x a : get (x :: a) 0 = Some x.
Proof. reflexivity. Qed.

Lemma get_succ_cons x a i : 0 <= i -> get (x :: a) (i + 1) = get a i.
Proof.
  intros H. unfold get.
  replace (i + 1 <? 0) with false by lia.
  replace (i <? 0) with false by lia.
  replace (Z.to_nat (i + 1)) with (S (Z.to_nat i)) by lia. reflexivity.
Qed.

Lemma bytes_ok_cons x a : bytes_ok (x :: a) <-> 0 <= x < 256 /\ bytes_ok a.
Proof. unfold bytes_ok. rewrite Forall_cons. reflexivity. Qed.

Lemma bytes_ok_app a b : bytes_ok (a ++ b) <-> bytes_ok a /\ bytes_ok b.
Proof. unfold bytes_ok. rewrite Forall_app. reflexivity. Qed.

(** A byte below a byte shifted left by eight: no carry. *)
Lemma lor_shiftl_8 hi lo :
  0 <= hi -> 0 <= lo < 256 -> Z.lor (Z.shiftl hi 8) lo = 256 * hi + lo.
Proof.
  intros Hhi Hlo.
  assert (Hand : Z.land (Z.shiftl hi 8) lo = 0).
  { apply Z.bits_inj'. intros n Hn. rewrite Z.land_spec, Z.bits_0.
    destruct (Z.lt_ge_cases n 8) as [Hlt|Hge].
    - rewrite Z.shiftl_spec_low by lia. reflexivity.
    - rewrite (Z.bits_above_log2 lo n); [apply andb_false_r|lia|].
      destruct (Z.eq_dec lo 0) as [->|Hnz]; [simpl; lia|].
      assert (Z.log2 lo < 8) by (apply Z.log2_lt_pow2; lia). lia. }
  pose proof (Z.add_lor_land (Z.shiftl hi 8) lo) as H.
  rewrite Hand, Z.add_0_r in H. rewrite H.
  rewrite Z.shiftl_mul_pow2 by lia. lia.
Qed.

(** The two prefix bytes of a 16-bit quantity. *)
Lemma prefix_hi x :
  0 <= x < 65536 -> u8 (Z.shiftr (Z.land (to_int32 x) 0xFF00) 8) = x / 256.
Proof.
  intros H. rewrite to_int32_small by lia.
  rewrite Z.shiftr_land. change (Z.shiftr 0xFF00 8) with (Z.ones 8).
  rewrite Z.land_ones by lia. rewrite Z.shiftr_div_pow2 by lia.
  change (2 ^ 8) with 256.
  assert (0 <= x / 256 < 256) by (split; [apply Z.div_pos|apply Z.div_lt_upper_bound]; lia).
  rewrite (Z.mod_small (x / 256)) by lia. by apply u8_small.
Qed.

Lemma prefix_lo x :
  0 <= x < 65536 -> u8 (Z.land (to_int32 x) 0xFF) = x mod 256.
Proof.
  intros H. rewrite to_int32_small by lia.
  change 0xFF with (Z.ones 8). rewrite Z.land_ones by lia.
  change (2 ^ 8) with 256. apply u8_small. apply Z.mod_pos_bound. lia.
Qed.

End ArrayFacts.

(** * MPI encoding *)

Section MPIFacts.
Import JS Util Spec.

(** On a byte, [nbits] is the position of the highest set bit. *)
Lemma nbits_bytes :
  forallb (fun n => nbits (Z.of_nat n) =? Z.log2 (Z.of_nat n) + 1)
          (seq 1 255) = true.
Proof. vm_compute. reflexivity. Qed.

Lemma nbits_byte x : 0 < x < 256 -> nbits x = Z.log2 x + 1.
Proof.
  intros H. pose proof nbits_bytes as Hall.
  rewrite forallb_forall in Hall.
  specialize (Hall (Z.to_nat x)).
  rewrite Z2Nat.id in Hall by lia.
  apply Z.eqb_eq, Hall, in_seq. lia.
Qed.

Lemma nbits_byte_range x : 0 < x < 256 -> 1 <= nbits x <= 8.
Proof.
  intros H. rewrite nbits_byte by done.
  pose proof (Z.log2_nonneg x).
  assert (Z.log2 x < 8) by (apply Z.log2_lt_pow2; lia). lia.
Qed.

Lemma leading_zeros_le bin : (leading_zeros bin <= length bin)%nat.
Proof.
  induction bin as [|b rest IH]; simpl; [lia|].
  destruct (b =? 0); lia.
Qed.

(** What the zero-skipping loop leaves: nothing, or a string that starts
    with a non-zero byte. *)
Lemma drop_leading_zeros bin :
  match drop (leading_zeros bin) bin with
  | [] => leading_zeros bin = length bin
  | b :: _ => b <> 0 /\ (leading_zeros bin < length bin)%nat
  end.
Proof.
  induction bin as [|b rest IH]; simpl; [reflexivity|].
  destruct (b =? 0) eqn:E; simpl.
  - destruct (drop (leading_zeros rest) rest); [lia|].
    destruct IH. split; [done|lia].
  - apply Z.eqb_neq in E. split; [done|lia].
Qed.

Lemma leading_zeros_all_zero bin :
  Forall (fun b => b = 0) bin -> leading_zeros bin = length bin.
Proof.
  induction 1 as [|b rest -> _ IH]; simpl; [reflexivity|]. by rewrite IH.
Qed.

Lemma leading_zeros_head b rest : b <> 0 -> leading_zeros (b :: rest) = O.
Proof. intros H. simpl. apply Z.eqb_neq in H. by rewrite H. Qed.

(** [uint8ArrayBitLength] on the stripped string. *)
Lemma uint8ArrayBitLength_stripped bin b rest :
  drop (leading_zeros bin) bin = b :: rest -> 0 < b < 256 ->
  uint8ArrayBitLength bin = bit_length b rest.
Proof.
  intros Hdrop Hb. unfold uint8ArrayBitLength.
  pose proof (drop_leading_zeros bin) as Hlz. rewrite Hdrop in Hlz.
  destruct Hlz as [_ Hlt].
  replace (Z.of_nat (leading_zeros bin) =? len bin) with false
    by (unfold len; lia).
  rewrite subarray_from_drop by (unfold len; lia).
  rewrite Nat2Z.id, Hdrop. unfold get_int. rewrite get_0_cons. simpl default.
  rewrite nbits_byte by done. unfold bit_length. rewrite len_cons. lia.
Qed.

Lemma uint8ArrayBitLength_zero bin :
  Forall (fun b => b = 0) bin -> uint8ArrayBitLength bin = 0.
Proof.
  intros H. unfold uint8ArrayBitLength.
  rewrite (leading_zeros_all_zero _ H). unfold len. by rewrite Z.eqb_refl.
Qed.

Lemma bit_length_pos b rest : 0 < b < 256 ->
  8 * len rest < bit_length b rest <= 8 * len rest + 8.
Proof.
  intros H. unfold bit_length. pose proof (Z.log2_nonneg b).
  assert (Z.log2 b < 8) by (apply Z.log2_lt_pow2; lia). lia.
Qed.

Lemma ceil_div8_bit_length b rest : 0 < b < 256 ->
  ceil_div8 (bit_length b rest) = len rest + 1.
Proof.
  intros H. pose proof (bit_length_pos b rest H). unfold ceil_div8.
  pose proof (len_nonneg rest).
  symmetry. apply (Z.div_unique _ 8 _ (bit_length b rest + 7 - 8 * (len rest + 1))); lia.
Qed.

(** The writer on any input with a non-zero byte: two prefix bytes and
    the input without its leading zero bytes. *)
Lemma uint8ArrayToMPI_shape bin b rest :
  bytes_ok bin ->
  drop (leading_zeros bin) bin = b :: rest ->
  uint8ArrayToMPI bin =
    Ok (u8 (Z.shiftr (Z.land (to_int32 (bit_length b rest)) 0xFF00) 8)
        :: u8 (Z.land (to_int32 (bit_length b rest)) 0xFF) :: b :: rest).
Proof.
  intros Hok Hdrop.
  pose proof (drop_leading_zeros bin) as Hlz. rewrite Hdrop in Hlz.
  destruct Hlz as [Hnz Hlt].
  assert (Hb : 0 < b < 256).
  { pose proof (Forall_drop _ (leading_zeros bin) _ Hok) as Hd.
    rewrite Hdrop in Hd. apply bytes_ok_cons in Hd. lia. }
  pose proof (bit_length_pos b rest Hb) as Hpos.
  pose proof (len_nonneg rest) as Hrest.
  unfold uint8ArrayToMPI.
  rewrite (uint8ArrayBitLength_stripped bin b rest) by done.
  replace (bit_length b rest =? 0) with false by lia.
  rewrite ceil_div8_bit_length by done.
  assert (Hlen : len bin = Z.of_nat (leading_zeros bin) + len rest + 1).
  { pose proof (f_equal (@length Z) Hdrop) as Hl. rewrite length_drop in Hl.
    simpl length in Hl. unfold len. lia. }
  rewrite subarray_from_drop by lia.
  replace (Z.to_nat (len bin - (len rest + 1))) with (leading_zeros bin) by lia.
  rewrite Hdrop. reflexivity.
Qed.

(** The prefix when the bit length fits it. *)
Lemma uint8ArrayToMPI_stripped bin b rest :
  bytes_ok bin ->
  drop (leading_zeros bin) bin = b :: rest ->
  bit_length b rest < 65536 ->
  uint8ArrayToMPI bin =
    Ok (bit_length b rest / 256 :: bit_length b rest mod 256 :: b :: rest).
Proof.
  intros Hok Hdrop Hfit.
  assert (Hb : 0 < b < 256).
  { pose proof (drop_leading_zeros bin) as Hlz. rewrite Hdrop in Hlz.
    pose proof (Forall_drop _ (leading_zeros bin) _ Hok) as Hd.
    rewrite Hdrop in Hd. apply bytes_ok_cons in Hd. lia. }
  pose proof (bit_length_pos b rest Hb) as Hpos.
  pose proof (len_nonneg rest) as Hrest.
  rewrite (uint8ArrayToMPI_shape bin b rest) by done.
  rewrite prefix_hi, prefix_lo by lia. reflexivity.
Qed.

(** The reader on a well-formed encoding. *)
Lemma readMPI_encoding bits payload rest :
  0 <= bits < 65536 -> len payload = ceil_div8 bits ->
  readMPI (bits / 256 :: bits mod 256 :: payload ++ rest) = payload.
Proof.
  intros Hbits Hlen. unfold readMPI, get_int.
  rewrite get_0_cons. change 1 with (0 + 1) at 1.
  rewrite get_succ_cons, get_0_cons by lia. simpl default.
  assert (0 <= bits / 256 < 256)
    by (split; [apply Z.div_pos|apply Z.div_lt_upper_bound]; lia).
  assert (0 <= bits mod 256 < 256) by (apply Z.mod_pos_bound; lia).
  rewrite !to_int32_small by lia.
  rewrite lor_shiftl_8 by lia.
  rewrite <- (Z.div_mod bits 256) by lia.
  rewrite to_uint32_small by lia.
  rewrite Z.shiftr_div_pow2 by lia. change (2 ^ 3) with 8.
  fold (ceil_div8 bits). rewrite <- Hlen.
  pose proof (len_nonneg payload).
  rewrite subarray_take_drop.
  - replace (Z.to_nat (2 + len payload - 2)) with (length payload)
      by (unfold len; lia).
    change (Z.to_nat 2) with 2%nat. simpl drop. rewrite drop_0.
    by rewrite take_app_length.
  - lia.
  - rewrite !len_cons, len_app. pose proof (len_nonneg rest). lia.
Qed.

End MPIFacts.

(** C1 (as the code has it). A non-empty byte array [b :: rest] with a
    non-zero first byte whose bit length fits the 16-bit prefix is encoded
    by [uint8ArrayToMPI], and [readMPI] of that encoding returns the
    array. *)
Theorem mpi_round_trip (b : Z) (rest : list Z) :
  JS.bytes_ok (b :: rest) -> b <> 0 ->
  Spec.bit_length b rest < 65536 ->
  exists enc, Util.uint8ArrayToMPI (b :: rest) = Ok enc /\
              Util.readMPI enc = b :: rest.
Proof.
  intros Hok Hnz Hfit.
  assert (Hb : 0 < b < 256) by (apply bytes_ok_cons in Hok; lia).
  pose proof (bit_length_pos b rest Hb).
  pose proof (len_nonneg rest) as Hrest.
  eexists. split.
  - apply uint8ArrayToMPI_stripped; [done| |done].
    by rewrite leading_zeros_head.
  - rewrite <- (app_nil_r (b :: rest)) at 1.
    apply readMPI_encoding; [lia|].
    rewrite ceil_div8_bit_length by done. rewrite len_cons. lia.
Qed.

Lemma mpi_round_trip_witness :
  exists enc, Util.uint8ArrayToMPI [1; 0; 255] = Ok enc /\
              Util.readMPI enc = [1; 0; 255].
Proof.
  apply (mpi_round_trip 1 [0; 255]).
  - repeat constructor; lia.
  - lia.
  - vm_compute. reflexivity.
Defined.

(** C1, as stated, fails where the bit length does not fit sixteen bits:
    the 8192-byte array [0x80 00 .. 00] has 65536 bits, the prefix wraps to
    [00 00], and [readMPI] returns the empty array. *)
Lemma mpi_round_trip_counterexample :
  let m := 128 :: JS.zeros 8191 in
  JS.bytes_ok m /\ hd 0 m <> 0 /\
  exists enc, Util.uint8ArrayToMPI m = Ok enc /\ Util.readMPI enc = [] /\
              Util.readMPI enc <> m.
Proof.
  cbv zeta. split; [|split].
  - apply bytes_ok_cons. split; [lia|]. unfold JS.bytes_ok.
    apply Forall_replicate. lia.
  - simpl. lia.
  - eexists. split; [vm_compute; reflexivity|]. split; [vm_compute; reflexivity|].
    vm_compute. discriminate.
Qed.

Section MPIWriter.
Import JS Util Spec.

Lemma leading_zeros_replicate k b rest :
  b <> 0 -> leading_zeros (replicate k 0 ++ b :: rest) = k.
Proof.
  intros H. induction k as [|k IH]; simpl.
  - apply Z.eqb_neq in H. by rewrite H.
  - by rewrite IH.
Qed.

(** A byte array with a non-zero byte is a run of zero bytes followed by
    a string that starts with a non-zero byte. *)
Lemma split_leading_zeros bin :
  Exists (fun x => x <> 0) bin ->
  exists k b rest, bin = replicate k 0 ++ b :: rest /\ b <> 0.
Proof.
  induction bin as [|x bin IH]; intros H.
  - by apply Exists_nil in H.
  - destruct (Z.eq_dec x 0) as [->|Hx].
    + apply Exists_cons in H as [H|H]; [done|].
      destruct (IH H) as (k & b & rest & -> & Hb).
      by exists (S k), b, rest.
    + by exists O, x, bin.
Qed.

End MPIWriter.

(** C6 (as the code has it). Every byte array with a non-zero byte is a
    run of zero bytes followed by [b :: rest] with [b] non-zero, and
    [uint8ArrayToMPI] returns two prefix bytes followed by exactly
    [b :: rest]: all leading zero bytes are stripped and the first payload
    byte is non-zero.  When the bit length of [b :: rest] fits sixteen
    bits, the prefix, read big-endian, is the bit length of [b] plus eight
    times the number of bytes that follow it. *)
Theorem mpi_write_canonical (bin : list Z) :
  JS.bytes_ok bin -> Exists (fun x => x <> 0) bin ->
  exists (k : nat) (b : Z) (rest : list Z) (hi lo : Z),
    bin = replicate k 0 ++ b :: rest /\ b <> 0 /\
    Util.uint8ArrayToMPI bin = Ok (hi :: lo :: b :: rest) /\
    0 <= hi < 256 /\ 0 <= lo < 256 /\
    (Spec.bit_length b rest < 65536 ->
     256 * hi + lo = Z.log2 b + 1 + 8 * JS.len rest).
Proof.
  intros Hok Hex.
  destruct (split_leading_zeros bin Hex) as (k & b & rest & -> & Hb).
  assert (Hb' : 0 < b < 256).
  { apply bytes_ok_app in Hok as [_ Hok]. apply bytes_ok_cons in Hok. lia. }
  assert (Hdrop : drop (Util.leading_zeros (replicate k 0 ++ b :: rest))
                       (replicate k 0 ++ b :: rest) = b :: rest).
  { rewrite leading_zeros_replicate by done.
    rewrite drop_app_length'; [reflexivity|]. by rewrite length_replicate. }
  pose proof (uint8ArrayToMPI_shape _ b rest Hok Hdrop) as Hshape.
  pose proof (bit_length_pos b rest Hb') as Hpos.
  pose proof (len_nonneg rest) as Hrest.
  eexists k, b, rest, _, _.
  split; [reflexivity|]. split; [done|]. split; [exact Hshape|].
  split; [apply Z.mod_pos_bound; lia|]. split; [apply Z.mod_pos_bound; lia|].
  intros Hfit. rewrite prefix_hi, prefix_lo by lia.
  rewrite <- Z.div_mod by lia. reflexivity.
Qed.

Lemma mpi_write_canonical_witness :
  exists hi lo,
    Util.uint8ArrayToMPI [0; 0; 5; 7] = Ok [hi; lo; 5; 7] /\
    256 * hi + lo = 11.
Proof.
  destruct (mpi_write_canonical [0; 0; 5; 7])
    as (k & b & rest & hi & lo & Heq & Hb & Henc & _ & _ & Hval).
  - repeat constructor; lia.
  - right. right. left. lia.
  - destruct k as [|[|[|k]]]; simpl in Heq; injection Heq as ? ?;
      try congruence.
    subst. exists hi, lo. split; [exact Henc|]. rewrite Hval.
    + reflexivity.
    + vm_compute. reflexivity.
Defined.

(** C6, as stated, fails on the 8192-byte array [0x80 00 .. 00]: nothing
    is stripped, the payload has 8 + 8 * 8191 = 65536 bits, and the prefix
    written is [00 00]. *)
Lemma mpi_write_canonical_counterexample :
  let bin := 128 :: JS.zeros 8191 in
  JS.bytes_ok bin /\ Exists (fun x => x <> 0) bin /\
  Util.uint8ArrayToMPI bin = Ok (0 :: 0 :: bin) /\
  256 * 0 + 0 <> Z.log2 128 + 1 + 8 * JS.len (JS.zeros 8191).
Proof.
  cbv zeta. split; [|split; [|split]].
  - apply bytes_ok_cons. split; [lia|]. unfold JS.bytes_ok.
    apply Forall_replicate. lia.
  - left. lia.
  - vm_compute. reflexivity.
  - vm_compute. discriminate.
Qed.

(** C5 (as the code has it). Zero is rejected by the writer, not by the
    reader.  For every byte array [zs] of zero bytes (the empty one
    included) [uint8ArrayToMPI] throws "Zero MPI"; [readMPI] returns the
    empty array for a declared bit length of zero whatever follows, and
    returns the payload [zs] itself for the declared bit length
    [8 * length zs]. *)
Theorem zero_mpi_rejected_by_writer_only (zs : list Z) :
  Forall (fun b => b = 0) zs ->
  Util.uint8ArrayToMPI zs = Throw "Zero MPI" /\
  Util.readMPI (0 :: 0 :: zs) = [] /\
  (8 * JS.len zs < 65536 ->
   Util.readMPI ((8 * JS.len zs) / 256 :: (8 * JS.len zs) mod 256 :: zs) = zs).
Proof.
  intros Hz. split; [|split].
  - unfold Util.uint8ArrayToMPI. by rewrite uint8ArrayBitLength_zero.
  - change (0 :: 0 :: zs) with (0 / 256 :: 0 mod 256 :: [] ++ zs).
    apply readMPI_encoding; [lia|reflexivity].
  - intros Hfit. pose proof (len_nonneg zs).
    rewrite <- (app_nil_r zs) at 3.
    apply readMPI_encoding; [lia|].
    unfold Util.ceil_div8. apply (Z.div_unique _ 8 _ 7); lia.
Qed.

Lemma zero_mpi_rejected_by_writer_only_witness :
  Util.uint8ArrayToMPI [0; 0] = Throw "Zero MPI" /\
  Util.readMPI [0; 0; 0; 0] = [] /\
  Util.readMPI [0; 16; 0; 0] = [0; 0].
Proof.
  destruct (zero_mpi_rejected_by_writer_only [0; 0]) as (H1 & H2 & H3).
  - repeat constructor.
  - split; [exact H1|]. split; [exact H2|]. apply H3. vm_compute. reflexivity.
Defined.

(** C5, as stated, fails: [readMPI] has no check and returns a value on
    zero-valued encodings, both for a declared bit length of zero and for
    an all-zero payload. *)
Lemma zero_mpi_read_counterexample :
  Util.readMPI [0; 0] = [] /\ Util.readMPI [0; 8; 0] = [0] /\
  Util.readMPI [0; 16; 0; 0] = [0; 0].
Proof. repeat split; reflexivity. Qed.

(** * The GCM nonce *)

Section GCMFacts.
Import JS GCM Aux.

(** The loop writes the nonce array only. *)
Lemma xor_loop_store count : forall i h nonce ci a,
  h !! nonce = Some a -> nonce <> ci ->
  xor_loop count i h nonce ci =
    <[nonce := xor_bytes count i a (deref h ci)]> h.
Proof.
  induction count as [|count IH]; intros i h nonce ci a Ha Hne; simpl.
  - symmetry. by apply list_insert_id.
  - unfold xor_assign. replace (deref h nonce) with a
      by (unfold deref; by rewrite Ha).
    set (a' := put a _ _).
    assert (Hlt : (nonce < length h)%nat) by (by eapply lookup_lt_Some).
    assert (Hci : deref (<[nonce:=a']> h) ci = deref h ci).
    { unfold deref. by rewrite list_lookup_insert_ne. }
    rewrite (IH _ _ _ _ a'); [|by apply list_lookup_insert_eq|done].
    by rewrite list_insert_insert_eq, Hci.
Qed.

Lemma xor_byte_ok x y :
  0 <= x < 256 -> 0 <= y < 256 ->
  u8 (Z.lxor (to_int32 x) (to_int32 y)) = Z.lxor x y /\
  0 <= Z.lxor x y < 256.
Proof.
  intros Hx Hy. rewrite !to_int32_small by lia.
  assert (H : 0 <= Z.lxor x y < 256).
  { split; [apply Z.lxor_nonneg; lia|].
    destruct (Z.eq_dec (Z.lxor x y) 0) as [->|Hnz]; [lia|].
    apply (Z.log2_lt_cancel _ (2 ^ 8)). rewrite Z.log2_pow2 by lia.
    eapply Z.le_lt_trans; [apply Z.log2_lxor; lia|].
    apply Z.max_lub_lt.
    - destruct (Z.eq_dec x 0) as [->|?]; [simpl; lia|].
      apply Z.log2_lt_pow2; lia.
    - destruct (Z.eq_dec y 0) as [->|?]; [simpl; lia|].
      apply Z.log2_lt_pow2; lia. }
  split; [by apply u8_small|done].
Qed.

Lemma xor_byte_u8 x y :
  0 <= x < 256 -> 0 <= y < 256 ->
  u8 (Z.lxor (to_int32 x) (to_int32 y)) = Z.lxor x y.
Proof. intros Hx Hy. by apply xor_byte_ok. Qed.

End GCMFacts.

(** C8. For a 12-byte IV and an 8-byte chunk index held in the store,
    [getNonce] returns a reference to a 12-byte array whose first four
    bytes are those of the IV and whose last eight bytes are the last
    eight bytes of the IV XORed byte-wise with the chunk index.  The nonce
    is a new array: every array of the original store, the IV included,
    is left as it was. *)
Theorem gcm_nonce_derivation (h : GCM.store) (iv ci : GCM.ref) (ivb cib : list Z) :
  h !! iv = Some ivb -> h !! ci = Some cib ->
  length ivb = 12%nat -> length cib = 8%nat ->
  JS.bytes_ok ivb -> JS.bytes_ok cib ->
  exists nb,
    (GCM.getNonce h iv ci).1 !! (GCM.getNonce h iv ci).2 = Some nb /\
    length nb = 12%nat /\ JS.bytes_ok nb /\
    take 4 nb = take 4 ivb /\
    drop 4 nb = zip_with Z.lxor (drop 4 ivb) cib /\
    (GCM.getNonce h iv ci).1 !! iv = Some ivb /\
    (forall r, (r < length h)%nat -> (GCM.getNonce h iv ci).1 !! r = h !! r).
Proof.
  intros Hiv Hci Hl1 Hl2 Hok1 Hok2.
  assert (Hivlt : (iv < length h)%nat) by (by eapply lookup_lt_Some).
  assert (Hcilt : (ci < length h)%nat) by (by eapply lookup_lt_Some).
  unfold GCM.getNonce, GCM.slice. cbn [fst snd].
  assert (Hd1 : GCM.deref h iv = ivb) by (unfold GCM.deref; by rewrite Hiv).
  assert (Hd2 : GCM.deref (h ++ [ivb]) ci = cib).
  { unfold GCM.deref. rewrite lookup_app_l by done. by rewrite Hci. }
  rewrite Hd1, Hd2, Hl2.
  rewrite (xor_loop_store _ _ _ _ _ ivb);
    [|by rewrite lookup_app_r, Nat.sub_diag by lia|lia].
  rewrite Hd2.
  exists (Aux.xor_bytes 8 0 ivb cib).
  assert (Hothers : forall r, (r < length h)%nat ->
            <[length h:=Aux.xor_bytes 8 0 ivb cib]> (h ++ [ivb]) !! r = h !! r).
  { intros r Hr. rewrite list_lookup_insert_ne by lia. by apply lookup_app_l. }
  split; [|split; [|split; [|split; [|split; [|split]]]]].
  - apply list_lookup_insert_eq. rewrite length_app. simpl. lia.
  - do 13 (destruct ivb as [|? ivb]; try discriminate).
    do 9 (destruct cib as [|? cib]; try discriminate). reflexivity.
  - do 13 (destruct ivb as [|? ivb]; try discriminate).
    do 9 (destruct cib as [|? cib]; try discriminate).
    repeat (apply bytes_ok_cons in Hok1 as [? Hok1]).
    repeat (apply bytes_ok_cons in Hok2 as [? Hok2]).
    cbv -[JS.to_int32 JS.u8 Z.lxor Z.lt Z.le JS.bytes_ok].
    repeat (apply bytes_ok_cons; split);
      try done; unfold JS.u8; apply Z.mod_pos_bound; lia.
  - do 13 (destruct ivb as [|? ivb]; try discriminate). reflexivity.
  - do 13 (destruct ivb as [|? ivb]; try discriminate).
    do 9 (destruct cib as [|? cib]; try discriminate).
    repeat (apply bytes_ok_cons in Hok1 as [? Hok1]).
    repeat (apply bytes_ok_cons in Hok2 as [? Hok2]).
    cbv -[JS.to_int32 JS.u8 Z.lxor].
    rewrite !xor_byte_u8 by done. reflexivity.
  - rewrite Hothers by done. done.
  - done.
Qed.

(** The IV [01 .. 0C] and the chunk index 1, next to each other in the
    store. *)
Lemma gcm_nonce_derivation_witness :
  exists nb,
    (GCM.getNonce [[1; 2; 3; 4; 5; 6; 7; 8; 9; 10; 11; 12];
                   [0; 0; 0; 0; 0; 0; 0; 1]] 0 1).1 !! 2%nat = Some nb /\
    nb = [1; 2; 3; 4; 5; 6; 7; 8; 9; 10; 11; 13] /\
    (GCM.getNonce [[1; 2; 3; 4; 5; 6; 7; 8; 9; 10; 11; 12];
                   [0; 0; 0; 0; 0; 0; 0; 1]] 0 1).1 !! 0%nat
      = Some [1; 2; 3; 4; 5; 6; 7; 8; 9; 10; 11; 12].
Proof.
  destruct (gcm_nonce_derivation
              [[1; 2; 3; 4; 5; 6; 7; 8; 9; 10; 11; 12]; [0; 0; 0; 0; 0; 0; 0; 1]]
              0 1 [1; 2; 3; 4; 5; 6; 7; 8; 9; 10; 11; 12] [0; 0; 0; 0; 0; 0; 0; 1])
    as (nb & Hnb & _ & _ & Htake & Hdrop & Hiv & _).
  - reflexivity.
  - reflexivity.
  - reflexivity.
  - reflexivity.
  - repeat constructor; lia.
  - repeat constructor; lia.
  - exists nb. split; [exact Hnb|]. split; [|exact Hiv].
    rewrite <- (take_drop 4 nb), Htake, Hdrop. reflexivity.
Defined.

(** * Line-ending canonicalisation *)

Section EOLReference.
Import JS Util Spec.

Lemma ends_with_cr_cons p b l :
  ends_with_cr p (b :: l) = ends_with_cr (b =? CR) l.
Proof.
  unfold ends_with_cr. rewrite last_cons. by destruct (last l).
Qed.

Lemma ends_with_cr_app p l1 l2 :
  ends_with_cr p (l1 ++ l2) = ends_with_cr (ends_with_cr p l1) l2.
Proof.
  revert p. induction l1 as [|b l1 IH]; intros p; simpl.
  - reflexivity.
  - by rewrite !ends_with_cr_cons, IH.
Qed.

Lemma ends_with_cr_snoc p l b : ends_with_cr p (l ++ [b]) = (b =? CR).
Proof. unfold ends_with_cr. by rewrite last_snoc. Qed.

Lemma canonical_eol_app p l1 l2 :
  canonical_eol p (l1 ++ l2) =
  canonical_eol p l1 ++ canonical_eol (ends_with_cr p l1) l2.
Proof.
  revert p. induction l1 as [|b l1 IH]; intros p; simpl.
  - reflexivity.
  - rewrite IH, ends_with_cr_cons, <- app_assoc. reflexivity.
Qed.

(** The flag is irrelevant in front of a CR. *)
Lemma canonical_eol_cr p q l :
  canonical_eol p (CR :: l) = canonical_eol q (CR :: l).
Proof. reflexivity. Qed.

Lemma bare_lf_ends_app p pos l1 l2 :
  bare_lf_ends p pos (l1 ++ l2) =
  bare_lf_ends p pos l1 ++
  bare_lf_ends (ends_with_cr p l1) (pos + len l1) l2.
Proof.
  revert p pos. induction l1 as [|b l1 IH]; intros p pos; simpl.
  - unfold len. simpl. by rewrite Z.add_0_r.
  - rewrite IH, ends_with_cr_cons, <- app_assoc, len_cons.
    by replace (pos + 1 + len l1) with (pos + (1 + len l1)) by lia.
Qed.

(** Without an LF nothing is recorded. *)
Lemma bare_lf_ends_no_lf p pos l :
  ~ In LF l -> bare_lf_ends p pos l = [].
Proof.
  revert p pos. induction l as [|b l IH]; intros p pos Hnin; simpl.
  - reflexivity.
  - destruct (Z.eqb_spec b LF) as [->|Hb].
    + exfalso. apply Hnin. by left.
    + simpl. apply IH. intros Hin. apply Hnin. by right.
Qed.

(** Where nothing is recorded the text is canonical already. *)
Lemma bare_lf_ends_nil_canonical p pos l :
  bare_lf_ends p pos l = [] -> canonical_eol p l = l.
Proof.
  revert p pos. induction l as [|b l IH]; intros p pos H; simpl in *.
  - reflexivity.
  - destruct ((b =? LF) && negb p); [discriminate|].
    simpl in *. f_equal. by eapply IH.
Qed.

(** The first recorded position splits the text at a bare LF. *)
Lemma bare_lf_ends_cons_inv p pos l idx rest :
  bare_lf_ends p pos l = idx :: rest ->
  exists pre post,
    l = pre ++ LF :: post /\ idx = pos + len pre + 1 /\
    canonical_eol p pre = pre /\ ends_with_cr p pre = false /\
    rest = bare_lf_ends false idx post.
Proof.
  revert p pos. induction l as [|b l IH]; intros p pos H; simpl in *.
  - discriminate.
  - destruct (Z.eqb_spec b LF) as [->|Hb]; simpl in H.
    + destruct p; simpl in H.
      * apply IH in H as (pre & post & -> & -> & Hc & He & ->).
        exists (LF :: pre), post. rewrite len_cons, ends_with_cr_cons.
        simpl. rewrite Hc. repeat split; try done. lia.
      * injection H as <- <-. exists [], l. simpl.
        repeat split; try done. unfold len. simpl. lia.
    + apply IH in H as (pre & post & -> & -> & Hc & He & ->).
      exists (b :: pre), post. rewrite len_cons, ends_with_cr_cons.
      simpl. apply Z.eqb_neq in Hb. rewrite Hb. simpl. rewrite Hc.
      repeat split; try done. lia.
Qed.

Lemma canonical_eol_at_bare_lf p pre post :
  canonical_eol p pre = pre -> ends_with_cr p pre = false ->
  canonical_eol p (pre ++ LF :: post) =
  pre ++ [CR; LF] ++ canonical_eol false post.
Proof.
  intros Hc He. rewrite canonical_eol_app, Hc, He. reflexivity.
Qed.

(** Every LF of the canonical text follows a CR (or is the first byte
    after a CR that came before the text). *)
Lemma canonical_eol_lf p l i :
  canonical_eol p l !! i = Some LF ->
  (i = O /\ p = true) \/
  exists j, i = S j /\ canonical_eol p l !! j = Some CR.
Proof.
  revert p i. induction l as [|b l IH]; intros p i H; simpl in *.
  - discriminate.
  - destruct (Z.eqb_spec b LF) as [->|Hb]; simpl in *.
    + destruct p; simpl in *.
      * destruct i as [|i]; [by left|]. simpl in H.
        apply IH in H as [[-> [=]]|(j & -> & Hj)].
        right. exists (S j). by split.
      * destruct i as [|[|i]]; simpl in H; [discriminate| |].
        -- right. by exists O.
        -- apply IH in H as [[-> [=]]|(j & -> & Hj)].
           right. exists (S (S j)). by split.
    + destruct i as [|i]; simpl in H; [congruence|].
      apply IH in H as [[-> Hcr]|(j & -> & Hj)].
      * right. exists O. split; [done|]. simpl.
        apply Z.eqb_eq in Hcr. by subst.
      * right. exists (S j). by split.
Qed.

Lemma canonical_eol_filter p l :
  List.filter not_eol (canonical_eol p l) = List.filter not_eol l.
Proof.
  revert p. induction l as [|b l IH]; intros p; simpl.
  - reflexivity.
  - destruct (Z.eqb_spec b LF) as [->|Hb]; simpl.
    + destruct p; simpl; apply IH.
    + rewrite IH. reflexivity.
Qed.

(** A text whose LFs all follow a CR has no bare LF. *)
Lemma lf_follows_cr_canonical l :
  lf_follows_cr l -> canonical_eol false l = l.
Proof.
  intros H.
  assert (G : forall pre suf, l = pre ++ suf ->
                canonical_eol (ends_with_cr false pre) suf = suf).
  { intros pre suf. revert pre. induction suf as [|b suf IH]; intros pre E.
    - reflexivity.
    - simpl. specialize (IH (pre ++ [b])).
      rewrite ends_with_cr_snoc in IH. rewrite IH by (by rewrite <- app_assoc).
      destruct (Z.eqb_spec b LF) as [->|Hb]; [|reflexivity].
      destruct (H (length pre)) as (j & Hj & Hcr).
      { subst l. by rewrite list_lookup_middle. }
      assert (Hlast : last pre = Some CR).
      { rewrite last_lookup, Hj. simpl. subst l.
        rewrite lookup_app_l in Hcr by lia. done. }
      unfold ends_with_cr. rewrite Hlast. reflexivity. }
  apply (G [] l). reflexivity.
Qed.

End EOLReference.

Section EOLCode.
Import JS Util Spec.

Lemma get_app_l a b i : 0 <= i < len a -> get (a ++ b) i = get a i.
Proof.
  intros H. unfold get. replace (i <? 0) with false by lia.
  apply lookup_app_l. unfold len in H. lia.
Qed.

(** The element before position [len a] is the last one of [a]. *)
Lemma get_before a b : get (a ++ b) (len a - 1) = last a.
Proof.
  destruct a as [|x a] using rev_ind.
  - reflexivity.
  - rewrite last_snoc, len_app, <- app_assoc. change (len [x]) with 1.
    replace (len a + 1 - 1) with (len a) by lia.
    unfold get. pose proof (len_nonneg a).
    replace (len a <? 0) with false by lia.
    unfold len. rewrite Nat2Z.id. simpl. by rewrite list_lookup_middle.
Qed.

Lemma is_byte_last p l : l <> [] -> is_byte (last l) CR = ends_with_cr p l.
Proof.
  intros H. unfold ends_with_cr. destruct (last l) eqn:E; [reflexivity|].
  by apply last_None in E.
Qed.

Lemma indexOf_aux_found pre x post pos :
  ~ In x pre -> indexOf_aux (pre ++ x :: post) x pos = pos + len pre.
Proof.
  revert pos. induction pre as [|b pre IH]; intros pos Hnin; simpl.
  - rewrite Z.eqb_refl. unfold len. simpl. lia.
  - destruct (Z.eqb_spec b x) as [->|Hb].
    + exfalso. apply Hnin. by left.
    + rewrite IH by (intros Hin; apply Hnin; by right).
      rewrite len_cons. lia.
Qed.

Lemma indexOf_aux_absent l x pos : ~ In x l -> indexOf_aux l x pos = -1.
Proof.
  revert pos. induction l as [|b l IH]; intros pos Hnin; simpl.
  - reflexivity.
  - destruct (Z.eqb_spec b x) as [->|Hb].
    + exfalso. apply Hnin. by left.
    + apply IH. intros Hin. apply Hnin. by right.
Qed.

(** A list either lacks [x] or splits at its first occurrence. *)
Lemma first_occurrence (x : Z) l :
  ~ In x l \/ exists pre post, l = pre ++ x :: post /\ ~ In x pre.
Proof.
  induction l as [|b l IH].
  - left. intros [].
  - destruct (Z.eq_dec b x) as [->|Hb].
    + right. exists [], l. split; [reflexivity|]. intros [].
    + destruct IH as [Hnin|(pre & post & -> & Hnin)].
      * left. intros [?|?]; [done|]. by apply Hnin.
      * right. exists (b :: pre), post. split; [reflexivity|].
        intros [?|?]; [done|]. by apply Hnin.
Qed.

Lemma indexOf_at_suffix b0 suffix x :
  indexOf (b0 ++ suffix) x (len b0) = indexOf_aux suffix x (len b0).
Proof.
  unfold indexOf, clamp_index. pose proof (len_nonneg b0).
  pose proof (len_nonneg suffix).
  replace (len b0 <? 0) with false by lia.
  rewrite len_app, Z.min_l by lia.
  unfold len. rewrite Nat2Z.id. by rewrite drop_app_length.
Qed.

(** The scanning loop records the ends of the bare LFs, and the fuel
    [process] gives it is enough. *)
Lemma find_indices_spec fuel : forall b0 suffix acc,
  (length suffix < fuel)%nat ->
  find_indices fuel (b0 ++ suffix) (len b0) acc =
  Some (acc ++ bare_lf_ends (ends_with_cr false b0) (len b0) suffix).
Proof.
  induction fuel as [|fuel IH]; intros b0 suffix acc Hfuel; [lia|].
  cbn [find_indices]. rewrite indexOf_at_suffix.
  pose proof (len_nonneg b0) as Hb0.
  destruct (first_occurrence LF suffix) as [Hnin|(pre & post & -> & Hnin)].
  - rewrite indexOf_aux_absent by done. simpl.
    by rewrite bare_lf_ends_no_lf, app_nil_r.
  - rewrite indexOf_aux_found by done.
    pose proof (len_nonneg pre) as Hpre.
    replace (len b0 + len pre + 1 =? 0) with false by lia.
    replace (len b0 + len pre + 1 - 2) with (len (b0 ++ pre) - 1)
      by (rewrite len_app; lia).
    rewrite (app_assoc b0 pre), get_before.
    replace (len b0 + len pre + 1) with (len ((b0 ++ pre) ++ [LF]))
      by (rewrite !len_app; change (len [LF]) with 1; lia).
    replace ((b0 ++ pre) ++ LF :: post) with (((b0 ++ pre) ++ [LF]) ++ post)
      by (by rewrite <- !app_assoc).
    rewrite IH by (rewrite length_app in Hfuel; simpl in Hfuel; lia).
    f_equal. rewrite ends_with_cr_snoc. change (LF =? CR) with false.
    rewrite bare_lf_ends_app, (bare_lf_ends_no_lf _ _ pre) by done.
    simpl. change (LF =? LF) with true. change (LF =? CR) with false.
    rewrite !len_app. change (len [LF]) with 1.
    assert (Hcr : is_byte (last (b0 ++ pre)) CR
                  = ends_with_cr (ends_with_cr false b0) pre).
    { rewrite <- ends_with_cr_app. unfold ends_with_cr.
      by destruct (last (b0 ++ pre)). }
    rewrite Hcr. destruct (ends_with_cr (ends_with_cr false b0) pre); simpl.
    + reflexivity.
    + by rewrite <- app_assoc.
Qed.

Lemma subarray_middle a m c :
  subarray (a ++ m ++ c) (len a) (len a + len m) = m.
Proof.
  pose proof (len_nonneg a). pose proof (len_nonneg m).
  pose proof (len_nonneg c).
  rewrite subarray_take_drop by (rewrite ?len_app; lia).
  replace (Z.to_nat (len a)) with (length a) by (unfold len; lia).
  replace (Z.to_nat (len a + len m - len a)) with (length m)
    by (unfold len; lia).
  by rewrite drop_app_length, take_app_length.
Qed.

Lemma subarray_from_suffix a c : subarray_from (a ++ c) (len a) = c.
Proof.
  pose proof (len_nonneg a). pose proof (len_nonneg c).
  rewrite subarray_from_drop by (rewrite len_app; lia).
  unfold len. by rewrite Nat2Z.id, drop_app_length.
Qed.

(** [subarray(0, -1)] drops the last element. *)
Lemma subarray_drop_last a x : subarray (a ++ [x]) 0 (-1) = a.
Proof.
  unfold subarray, clamp_index. rewrite len_app. change (len [x]) with 1.
  pose proof (len_nonneg a).
  change (0 <? 0) with false. change (-1 <? 0) with true. cbv iota.
  rewrite Z.min_l, Z.max_l by lia. change (Z.to_nat 0) with O.
  rewrite drop_0.
  replace (Z.to_nat (len a + 1 + -1 - 0)) with (length a)
    by (unfold len; lia).
  by rewrite take_app_length.
Qed.

Lemma set_at_end p zs m :
  len m <= len zs ->
  set (p ++ zs) m (len p) = Ok (p ++ m ++ drop (length m) zs).
Proof.
  intros H. unfold set. pose proof (len_nonneg p). pose proof (len_nonneg m).
  replace (len p <? 0) with false by lia.
  replace (len (p ++ zs) <? len p + len m) with false
    by (rewrite len_app; lia).
  simpl. f_equal.
  replace (Z.to_nat (len p)) with (length p) by (unfold len; lia).
  rewrite take_app_length. f_equal. f_equal.
  replace (Z.to_nat (len p + len m)) with (length p + length m)%nat
    by (unfold len; lia).
  by rewrite drop_app_add'.
Qed.

Lemma put_middle a x c v : put (a ++ x :: c) (len a) v = a ++ u8 v :: c.
Proof.
  unfold put. pose proof (len_nonneg a).
  replace (len a <? 0) with false by lia.
  unfold len. rewrite Nat2Z.id.
  replace (length a) with (length a + 0)%nat at 1 by lia.
  by rewrite insert_app_r.
Qed.

Lemma list_last_default (y d d' : Z) l :
  List.last (y :: l) d = List.last (y :: l) d'.
Proof.
  revert y. induction l as [|z l IH]; intros y; [reflexivity|].
  change (List.last (z :: l) d = List.last (z :: l) d'). apply IH.
Qed.

Lemma list_last_cons (x d : Z) l : List.last (x :: l) d = List.last l x.
Proof.
  destruct l as [|y l]; [reflexivity|].
  change (List.last (y :: l) d = List.last (y :: l) x).
  apply list_last_default.
Qed.

(** The copying loop writes the canonical form of the bytes up to the
    last recorded position and leaves room for the rest. *)
Lemma fill_spec indices : forall b0 r p zs,
  indices = bare_lf_ends false (len b0) r ->
  len zs = len r + len indices ->
  exists p' r' zs',
    fill (b0 ++ r) (len b0) indices (p ++ zs) (len p) = Ok (p' ++ zs', len p') /\
    len zs' = len r' /\
    p' ++ r' = p ++ canonical_eol false r /\
    r' = subarray_from (b0 ++ r) (List.last indices (len b0)).
Proof.
  induction indices as [|idx rest IH]; intros b0 r p zs Hind Hlen.
  - exists p, r, zs. simpl. split; [reflexivity|].
    split; [unfold len in *; simpl in *; lia|].
    split; [|by rewrite subarray_from_suffix].
    symmetry in Hind. by rewrite (bare_lf_ends_nil_canonical _ _ _ Hind).
  - symmetry in Hind.
    destruct (bare_lf_ends_cons_inv _ _ _ _ _ Hind)
      as (pre & post & -> & Hidx & Hc & He & Hrest).
    pose proof (len_nonneg pre) as Hpre. pose proof (len_nonneg post) as Hpost.
    pose proof (len_nonneg rest) as Hrst. pose proof (len_nonneg p) as Hp.
    rewrite len_app, !len_cons in Hlen.
    cbn [fill].
    assert (Hsub : subarray (b0 ++ pre ++ LF :: post) (len b0) idx = pre ++ [LF]).
    { replace (b0 ++ pre ++ LF :: post) with (b0 ++ (pre ++ [LF]) ++ post)
        by (by rewrite <- app_assoc).
      replace idx with (len b0 + len (pre ++ [LF]))
        by (rewrite len_app; change (len [LF]) with 1; lia).
      apply subarray_middle. }
    rewrite Hsub.
    assert (Hm : len (pre ++ [LF]) = len pre + 1)
      by (rewrite len_app; reflexivity).
    rewrite set_at_end by lia. cbn [bind].
    destruct (drop (length (pre ++ [LF])) zs) as [|z zs2] eqn:Hdrop.
    { apply (f_equal (@length Z)) in Hdrop. rewrite length_drop in Hdrop.
      unfold len in *. simpl in Hdrop. lia. }
    assert (Hzs2 : len zs2 = len post + len rest).
    { apply (f_equal (@length Z)) in Hdrop. rewrite length_drop in Hdrop.
      unfold len in *. simpl in Hdrop. lia. }
    replace (p ++ (pre ++ [LF]) ++ z :: zs2)
      with ((p ++ pre) ++ LF :: z :: zs2) by (by rewrite <- !app_assoc).
    replace (len p + len (pre ++ [LF]) - 1) with (len (p ++ pre))
      by (rewrite Hm, len_app; lia).
    rewrite put_middle.
    replace ((p ++ pre) ++ u8 CR :: z :: zs2)
      with ((p ++ pre ++ [CR]) ++ z :: zs2) by (by rewrite <- !app_assoc).
    replace (len p + len (pre ++ [LF])) with (len (p ++ pre ++ [CR]))
      by (rewrite Hm, !len_app; change (len [CR]) with 1; lia).
    rewrite put_middle. change (u8 LF) with LF.
    replace ((p ++ pre ++ [CR]) ++ LF :: zs2)
      with ((p ++ pre ++ [CR; LF]) ++ zs2) by (by rewrite <- !app_assoc).
    replace (len (p ++ pre ++ [CR]) + 1) with (len (p ++ pre ++ [CR; LF]))
      by (rewrite !len_app; change (len [CR]) with 1;
          change (len [CR; LF]) with 2; lia).
    replace (b0 ++ pre ++ LF :: post) with ((b0 ++ pre ++ [LF]) ++ post)
      by (by rewrite <- !app_assoc).
    assert (Hidx' : idx = len (b0 ++ pre ++ [LF]))
      by (rewrite !len_app; change (len [LF]) with 1; lia).
    rewrite Hidx'.
    destruct (IH (b0 ++ pre ++ [LF]) post (p ++ pre ++ [CR; LF]) zs2)
      as (p' & r' & zs' & Hfill & Hlen' & Hout & Hr').
    { by rewrite <- Hidx'. }
    { lia. }
    exists p', r', zs'. split; [exact Hfill|]. split; [exact Hlen'|].
    split.
    + rewrite Hout, canonical_eol_at_bare_lf by done.
      by rewrite <- !app_assoc.
    + by rewrite list_last_cons.
Qed.

(** One chunk: the CR carried over is put in front, a trailing CR is
    held back, and what is passed on is the canonical form of the rest. *)
Lemma process_spec (carry : bool) (chunk : list Z) :
  let bytes := (if carry then [CR] else []) ++ chunk in
  exists body,
    bytes = body ++ (if ends_with_cr false bytes then [CR] else []) /\
    process carry chunk =
      Some (Ok (ends_with_cr false bytes, canonical_eol false body)).
Proof.
  intros bytes. unfold process.
  replace (if carry then [CR] ++ chunk else chunk) with bytes
    by (unfold bytes; by destruct carry).
  assert (Hends : is_byte (get bytes (len bytes - 1)) CR
                  = ends_with_cr false bytes).
  { rewrite <- (app_nil_r bytes) at 1. rewrite get_before.
    unfold ends_with_cr. by destruct (last bytes). }
  rewrite Hends. clearbody bytes.
  assert (Hbody : exists body,
            bytes = body ++ (if ends_with_cr false bytes then [CR] else []) /\
            (if ends_with_cr false bytes then subarray bytes 0 (-1) else bytes)
            = body).
  { unfold ends_with_cr. destruct (last bytes) as [b|] eqn:Hl.
    - destruct (Z.eqb_spec b CR) as [->|Hb].
      + apply last_Some in Hl as [body ->]. exists body.
        split; [reflexivity|]. apply subarray_drop_last.
      + exists bytes. by rewrite app_nil_r.
    - exists bytes. by rewrite app_nil_r. }
  destruct Hbody as (body & Hsplit & ->). exists body. split; [exact Hsplit|].
  pose proof (find_indices_spec (S (length body)) [] body []) as Hfind.
  simpl app in Hfind. change (len []) with 0 in Hfind.
  change (ends_with_cr false []) with false in Hfind.
  rewrite Hfind by lia.
  destruct (bare_lf_ends false 0 body) as [|idx rest] eqn:Hbare.
  - by rewrite (bare_lf_ends_nil_canonical _ _ _ Hbare).
  - pose proof (len_nonneg body). pose proof (len_nonneg (idx :: rest)).
    destruct (fill_spec (idx :: rest) [] body []
                (zeros (len body + len (idx :: rest))))
      as (p' & r' & zs' & Hfill & Hlen' & Hout & Hr').
    { symmetry. exact Hbare. }
    { unfold zeros, len at 1. rewrite length_replicate. lia. }
    simpl app in Hfill, Hout, Hr'. change (len []) with 0 in Hfill, Hr'.
    rewrite Hfill. cbn [bind fst snd]. rewrite <- Hr'.
    rewrite set_at_end by lia.
    rewrite drop_ge by (unfold len in Hlen'; lia).
    rewrite app_nil_r, Hout. reflexivity.
Qed.

(** The whole stream: the chunks passed on, concatenated, are the
    canonical form of the concatenated input (after the CR held back
    from an earlier chunk, if any). *)
Lemma transform_spec (data : list (list Z)) : forall carry : bool,
  exists outs,
    transform carry data = Some (Ok outs) /\
    concat outs =
      canonical_eol false ((if carry then [CR] else []) ++ concat data).
Proof.
  induction data as [|chunk data IH]; intros carry.
  - exists (if carry then [[CR]] else []). split; [reflexivity|].
    by destruct carry.
  - destruct (process_spec carry chunk) as (body & Hsplit & Hproc).
    destruct (IH (ends_with_cr false ((if carry then [CR] else []) ++ chunk)))
      as (outs & Htr & Hcat).
    exists (canonical_eol false body :: outs).
    cbn [transform]. rewrite Hproc, Htr. split; [reflexivity|].
    cbn [concat]. rewrite Hcat, (app_assoc _ chunk).
    set (bytes := (if carry then [CR] else []) ++ chunk) in *.
    clearbody bytes.
    destruct (ends_with_cr false bytes) eqn:He.
    + subst bytes. rewrite <- !app_assoc, (canonical_eol_app false body).
      f_equal.
    + rewrite app_nil_r in Hsplit. subst body. simpl app.
      by rewrite canonical_eol_app, He.
Qed.

End EOLCode.

(** C9. On every input, however it is cut into chunks, [canonicalizeEOL]
    terminates without an exception; its output, concatenated, is the
    input with a CR put in front of every LF that does not follow a CR.
    Hence every LF of the output directly follows a CR, the bytes other
    than CR and LF are those of the input in the same order, and an input
    whose LFs all follow a CR comes out unchanged. *)
Theorem canonicalizeEOL_crlf (data : list (list Z)) :
  exists outs,
    Util.canonicalizeEOL data = Some (Ok outs) /\
    concat outs = Spec.canonical_eol false (concat data) /\
    Spec.lf_follows_cr (concat outs) /\
    List.filter Spec.not_eol (concat outs)
      = List.filter Spec.not_eol (concat data) /\
    (Spec.lf_follows_cr (concat data) -> concat outs = concat data).
Proof.
  destruct (transform_spec data false) as (outs & Htr & Hcat).
  simpl app in Hcat. exists outs. split; [exact Htr|]. split; [exact Hcat|].
  rewrite Hcat. split; [|split].
  - intros i Hi. apply canonical_eol_lf in Hi as [[_ [=]]|H]. exact H.
  - apply canonical_eol_filter.
  - apply lf_follows_cr_canonical.
Qed.

(** The canonical text "a CR LF b" delivered in two chunks that split
    the line ending. *)
Lemma canonicalizeEOL_crlf_witness :
  exists outs,
    Util.canonicalizeEOL [[97; 13]; [10; 98]] = Some (Ok outs) /\
    concat outs = [97; 13; 10; 98].
Proof.
  destruct (canonicalizeEOL_crlf [[97; 13]; [10; 98]])
    as (outs & H1 & _ & _ & _ & H2).
  exists outs. split; [exact H1|]. apply H2.
  intros i Hi. destruct i as [|[|[|[|i]]]]; simpl in Hi; try discriminate.
  exists 1%nat. split; reflexivity.
Defined.

Example canonicalizeEOL_chunks :
  Util.canonicalizeEOL [[97; 13]; [10; 98; 10]; [13]]
  = Some (Ok [[97]; [13; 10; 98; 13; 10]; []; [13]]).
Proof. vm_compute. reflexivity. Qed.

(** * Big-endian byte strings *)

Section BigIntegerFacts.
Import JS BigInteger.

Lemma of_bytes_snoc l b : of_bytes (l ++ [b]) = of_bytes l * 256 + b.
Proof. unfold of_bytes. by rewrite fold_left_app. Qed.

Lemma of_bytes_range l :
  bytes_ok l -> 0 <= of_bytes l < 256 ^ len l.
Proof.
  induction l as [|b l IH] using rev_ind; intros Hok.
  - change (of_bytes []) with 0. change (len []) with 0. simpl. lia.
  - apply bytes_ok_app in Hok as [Hl Hb]. apply bytes_ok_cons in Hb as [Hb _].
    specialize (IH Hl). rewrite of_bytes_snoc, len_app.
    change (len [b]) with 1. rewrite Z.pow_add_r by (pose proof (len_nonneg l); lia).
    change (256 ^ 1) with 256. nia.
Qed.

Lemma toUint8Array_succ x k :
  0 <= k ->
  toUint8Array x (k + 1) = toUint8Array (x / 256) k ++ [x mod 256].
Proof.
  intros Hk. unfold toUint8Array.
  replace (Z.to_nat (k + 1)) with (S (Z.to_nat k)) by lia. reflexivity.
Qed.

Lemma toUint8Array_len x k : 0 <= k -> len (toUint8Array x k) = k.
Proof.
  intros Hk. unfold toUint8Array, len. rewrite length_rev.
  assert (H : forall n y, length (to_bytes_le n y) = n).
  { induction n as [|n IH]; intros y; simpl; [reflexivity|]. by rewrite IH. }
  rewrite H. lia.
Qed.

Lemma toUint8Array_bytes_ok x k : bytes_ok (toUint8Array x k).
Proof.
  unfold toUint8Array, bytes_ok. apply Forall_rev.
  generalize (Z.to_nat k) as n. intros n. revert x.
  induction n as [|n IH]; intros x; simpl; constructor.
  - apply Z.mod_pos_bound. lia.
  - apply IH.
Qed.

(** Encoding the value of a byte string at its own length gives it back. *)
Lemma toUint8Array_of_bytes l :
  bytes_ok l -> toUint8Array (of_bytes l) (len l) = l.
Proof.
  induction l as [|b l IH] using rev_ind; intros Hok.
  - reflexivity.
  - apply bytes_ok_app in Hok as [Hl Hb]. apply bytes_ok_cons in Hb as [Hb _].
    rewrite len_app. change (len [b]) with 1.
    rewrite toUint8Array_succ by apply len_nonneg.
    rewrite of_bytes_snoc.
    replace ((of_bytes l * 256 + b) / 256) with (of_bytes l)
      by (apply (Z.div_unique _ 256 _ b); lia).
    replace ((of_bytes l * 256 + b) mod 256) with b
      by (apply (Z.mod_unique _ 256 (of_bytes l) b); lia).
    by rewrite IH.
Qed.

(** The value of the encoding of a number that fits. *)
Lemma of_bytes_toUint8Array k : forall x,
  0 <= k -> 0 <= x < 256 ^ k -> of_bytes (toUint8Array x k) = x.
Proof.
  intros x Hk. revert x. pattern k. apply natlike_ind; [| |exact Hk].
  - intros x Hx. change (256 ^ 0) with 1 in Hx.
    assert (x = 0) as -> by lia. reflexivity.
  - clear k Hk. intros k Hk IH x Hx. unfold Z.succ in *.
    rewrite toUint8Array_succ, of_bytes_snoc by done.
    rewrite Z.pow_add_r in Hx by lia. change (256 ^ 1) with 256 in Hx.
    rewrite IH.
    + pose proof (Z.div_mod x 256). lia.
    + split; [apply Z.div_pos; lia|apply Z.div_lt_upper_bound; lia].
Qed.

(** Byte strings of one length with one value are equal. *)
Lemma of_bytes_inj l1 l2 :
  bytes_ok l1 -> bytes_ok l2 -> len l1 = len l2 ->
  of_bytes l1 = of_bytes l2 -> l1 = l2.
Proof.
  intros H1 H2 Hlen Hv.
  rewrite <- (toUint8Array_of_bytes l1), <- (toUint8Array_of_bytes l2) by done.
  by rewrite Hv, Hlen.
Qed.

(** A positive number fits its byte length. *)
Lemma byteLength_fits x : 0 < x -> 0 < byteLength x /\ x < 256 ^ byteLength x.
Proof.
  intros Hx. unfold byteLength. replace (x <=? 0) with false by lia.
  pose proof (Z.log2_nonneg x) as Hl.
  assert (Hq : 0 <= Z.log2 x / 8) by (apply Z.div_pos; lia).
  split; [lia|].
  replace 256 with (2 ^ 8) by reflexivity.
  rewrite <- Z.pow_mul_r by lia.
  apply Z.log2_lt_pow2; [done|].
  pose proof (Z.div_mod (Z.log2 x) 8).
  pose proof (Z.mod_pos_bound (Z.log2 x) 8). lia.
Qed.

End BigIntegerFacts.

(** * The RSA permutation *)

Section RSAMath.

(** Fermat's little theorem, iterated. *)
Lemma pow_fermat p m k :
  Z.prime p -> 0 <= k -> m ^ (1 + k * (p - 1)) mod p = m mod p.
Proof.
  intros Hp Hk. pose proof (Z.prime_ge_2 _ Hp) as Hp2.
  rewrite Z.pow_add_r, Z.pow_1_r by nia.
  destruct (Z.eq_dec (m mod p) 0) as [Hz|Hnz].
  - rewrite <- Z.mul_mod_idemp_l, Hz by lia. simpl. by rewrite Z.mod_0_l by lia.
  - assert (E : m ^ (k * (p - 1)) mod p = 1).
    { rewrite (Z.mul_comm k), Z.pow_mul_r by lia.
      rewrite <- Z.mod_pow_l, Z.fermat_nz by done.
      rewrite Z.pow_1_l by lia. apply Z.mod_small. lia. }
    by rewrite <- Z.mul_mod_idemp_r, E, Z.mul_1_r by lia.
Qed.

Lemma divide_mul_coprime p q x :
  Z.gcd p q = 1 -> (p | x) -> (q | x) -> (p * q | x).
Proof.
  intros Hg [a ->] Hq. rewrite Z.gcd_comm in Hg.
  rewrite Z.mul_comm in Hq. pose proof (Z.gauss q p a Hq Hg) as [b ->].
  exists b. lia.
Qed.

Lemma distinct_primes_coprime p q :
  Z.prime p -> Z.prime q -> p <> q -> Z.gcd p q = 1.
Proof.
  intros Hp Hq Hne. apply Z.coprime_prime_l; [done|].
  intros Hd. apply Z.divide_prime_prime in Hd; done.
Qed.

(** Raising to [e] and then to [d] is the identity below [p * q]. *)
Lemma rsa_round_trip p q e d m :
  Z.prime p -> Z.prime q -> p <> q ->
  0 <= e -> 0 <= d -> (e * d) mod ((p - 1) * (q - 1)) = 1 ->
  0 <= m < p * q ->
  (m ^ e mod (p * q)) ^ d mod (p * q) = m.
Proof.
  intros Hp Hq Hne He Hd Hed Hm.
  pose proof (Z.prime_ge_2 _ Hp) as Hp2. pose proof (Z.prime_ge_2 _ Hq) as Hq2.
  rewrite Z.mod_pow_l, <- Z.pow_mul_r by lia.
  set (phi := (p - 1) * (q - 1)) in *. assert (Hphi : 0 < phi) by (unfold phi; nia).
  pose proof (Z.div_mod (e * d) phi) as Hdm. rewrite Hed in Hdm.
  set (t := e * d / phi) in *.
  assert (Ht : 0 <= t) by (apply Z.div_pos; nia).
  assert (Hmodp : m ^ (e * d) mod p = m mod p).
  { replace (e * d) with (1 + (t * (q - 1)) * (p - 1)) by (unfold phi in Hdm; lia).
    apply pow_fermat; [done|nia]. }
  assert (Hmodq : m ^ (e * d) mod q = m mod q).
  { replace (e * d) with (1 + (t * (p - 1)) * (q - 1)) by (unfold phi in Hdm; lia).
    apply pow_fermat; [done|nia]. }
  assert (Hdiv : (p * q | m ^ (e * d) - m)).
  { apply divide_mul_coprime.
    - by apply distinct_primes_coprime.
    - apply Z.mod_divide; [lia|]. by rewrite Zminus_mod, Hmodp, Z.sub_diag, Z.mod_0_l by lia.
    - apply Z.mod_divide; [lia|]. by rewrite Zminus_mod, Hmodq, Z.sub_diag, Z.mod_0_l by lia. }
  destruct Hdiv as [c Hc].
  replace (m ^ (e * d)) with (m + c * (p * q)) by lia.
  rewrite Z.mod_add by nia. apply Z.mod_small. lia.
Qed.

End RSAMath.

(** * Primality by trial division *)

Section Primality.
Import Aux.

Lemma trial_steps (p : Z) (n : positive) :
  0 <= p < 2 ^ 62 -> 3 + 2 * Z.pos n < 2 ^ 62 ->
  let st := Pos.iter (trial_step (Uint63.of_Z p)) (Uint63.of_Z 3, true) n in
  Uint63.to_Z st.1 = 3 + 2 * Z.pos n /\
  (st.2 = true -> forall i, 0 <= i < Z.pos n -> p mod (3 + 2 * i) <> 0).
Proof.
  intros Hp. assert (Hwb : Uint63.wB = 2 ^ 63) by reflexivity.
  assert (Hpz : Uint63.to_Z (Uint63.of_Z p) = p).
  { rewrite Uint63.of_Z_spec. apply Z.mod_small. lia. }
  assert (Hstep : forall d ok, 0 <= d < 2 ^ 62 ->
            forall st, st = trial_step (Uint63.of_Z p) (Uint63.of_Z d, ok) ->
            Uint63.to_Z st.1 = d + 2 /\
            (st.2 = true <-> ok = true /\ p mod d <> 0)).
  { intros d ok Hd st ->. unfold trial_step. cbn [fst snd].
    assert (Hdz : Uint63.to_Z (Uint63.of_Z d) = d).
    { rewrite Uint63.of_Z_spec. apply Z.mod_small. lia. }
    split.
    - rewrite Uint63.add_spec, Hdz. change (Uint63.to_Z (Uint63.of_Z 2)) with 2.
      apply Z.mod_small. lia.
    - rewrite andb_true_iff, negb_true_iff, Uint63.eqb_false_spec.
      apply and_iff_compat_l. split; intros H E; apply H.
      + apply Uint63.to_Z_inj. rewrite Uint63.mod_spec, Hpz, Hdz. exact E.
      + apply (f_equal Uint63.to_Z) in E.
        by rewrite Uint63.mod_spec, Hpz, Hdz in E. }
  induction n as [|n IH] using Pos.peano_ind; intros Hn; cbv zeta.
  - cbn [Pos.iter].
    destruct (Hstep 3 true ltac:(lia) _ eq_refl) as [H1 H2].
    split; [rewrite H1; lia|]. intros H i Hi.
    assert (i = 0) as -> by lia. by apply H2.
  - rewrite Pos.iter_succ.
    destruct IH as [Hd Hok]; [lia|].
    destruct (Pos.iter (trial_step (Uint63.of_Z p)) (Uint63.of_Z 3, true) n)
      as [d ok].
    cbn [fst snd] in Hd, Hok.
    assert (Hdd : d = Uint63.of_Z (3 + 2 * Z.pos n)).
    { apply Uint63.to_Z_inj. rewrite Hd, Uint63.of_Z_spec.
      symmetry. apply Z.mod_small. lia. }
    subst d.
    destruct (Hstep (3 + 2 * Z.pos n) ok ltac:(lia) _ eq_refl) as [H1 H2].
    split; [rewrite H1; lia|]. intros H i Hi.
    apply H2 in H as [Hk Hnd].
    destruct (Z.eq_dec i (Z.pos n)) as [->|Hne]; [done|].
    apply Hok; [done|lia].
Qed.

(** The check is sound. *)
Lemma prime_check_sound p iters : prime_check p iters = true -> Z.prime p.
Proof.
  unfold prime_check. cbv zeta. intros H.
  repeat (apply andb_true_iff in H as [H ?]).
  repeat match goal with
         | E : (_ <? _) = true |- _ => apply Z.ltb_lt in E
         end.
  assert (Hodd : p mod 2 <> 0) by (by apply Z.eqb_neq, negb_true_iff).
  pose proof (trial_steps p iters ltac:(lia) ltac:(lia)) as [_ Hok].
  cbv zeta in Hok.
  assert (Hno : forall i, 0 <= i < Z.pos iters -> p mod (3 + 2 * i) <> 0)
    by (by apply Hok).
  clear Hok. set (d := 3 + 2 * Z.pos iters) in *.
  split; [lia|]. intros n Hn [c Hc].
  (* a divisor [a] with [a * a <= p] *)
  assert (Hsmall : exists a b, p = a * b /\ 1 < a /\ a * a <= p).
  { destruct (Z_le_gt_dec (n * n) p) as [Hle|Hgt].
    - exists n, c. split; [lia|]. lia.
    - exists c, n. split; [lia|]. split; [nia|]. nia. }
  destruct Hsmall as (a & b & Hab & Ha1 & Haa). clear n c Hn Hc.
  assert (Ha_odd : a mod 2 = 1).
  { pose proof (Z.mod_pos_bound a 2).
    destruct (Z.eq_dec (a mod 2) 0) as [Hz|?]; [|lia].
    exfalso. apply Hodd. apply Z.mod_divide in Hz as [a' ->]; [|lia].
    rewrite Hab. replace (a' * 2 * b) with ((a' * b) * 2) by lia.
    apply Z.mod_mul. lia. }
  assert (Hlt : a < d) by nia.
  pose proof (Z.div_mod a 2) as Hdm. rewrite Ha_odd in Hdm.
  apply (Hno ((a - 3) / 2)).
  - split; [apply Z.div_pos; lia|]. apply Z.div_lt_upper_bound; lia.
  - replace (3 + 2 * ((a - 3) / 2)) with a.
    + rewrite Hab, Z.mul_comm. apply Z.mod_mul. lia.
    + pose proof (Z.div_mod (a - 3) 2).
      assert ((a - 3) mod 2 = 0).
      { replace (a - 3) with (a + (-2) * 2 + 1) by lia.
        rewrite <- Z.add_mod_idemp_l, Z.mod_add, Ha_odd by lia. reflexivity. }
      lia.
Qed.

Lemma prime_17592186044423 : Z.prime 17592186044423.
Proof. apply (prime_check_sound _ 2097152). vm_compute. reflexivity. Qed.

Lemma prime_17592186044437 : Z.prime 17592186044437.
Proof. apply (prime_check_sound _ 2097152). vm_compute. reflexivity. Qed.

End Primality.

(** * RSA parameter validation *)




Example validateParams_rejects_wrong_inverse :
  RSA.validateParams (fun _ _ => 2) [55] [3] [7] [5] [11] [8] = Ok false.
Proof. reflexivity. Qed.

Example validateParams_rejects_wrong_exponent :
  RSA.validateParams (fun _ _ => 2) [55] [3] [5] [5] [11] [9] = Ok false.
Proof. reflexivity. Qed.

(** * Blinded CRT decryption *)

Section DecryptFacts.
Import JS BigInteger.

(** An exponent may be reduced modulo [p - 1] when it is invertible
    modulo [p - 1]. *)
Lemma pow_mod_reduce p e d x :
  Z.prime p -> 2 < p -> 0 <= d -> (e * d) mod (p - 1) = 1 ->
  x ^ (d mod (p - 1)) mod p = x ^ d mod p.
Proof.
  intros Hp Hp3 Hd Hed.
  pose proof (Z.div_mod d (p - 1) ltac:(lia)) as Hdm.
  pose proof (Z.mod_pos_bound d (p - 1) ltac:(lia)) as Hr.
  set (dp := d mod (p - 1)) in *. set (k := d / (p - 1)) in *.
  assert (Hk : 0 <= k) by (apply Z.div_pos; lia).
  assert (Hdp : 0 < dp).
  { destruct (Z.eq_dec dp 0) as [Hz|]; [|lia]. exfalso.
    rewrite Hz, Z.add_0_r in Hdm. rewrite Hdm in Hed.
    replace (e * ((p - 1) * k)) with ((e * k) * (p - 1)) in Hed by lia.
    rewrite Z.mod_mul in Hed by lia. discriminate. }
  clearbody dp k. subst d. rewrite Z.pow_add_r, Z.pow_mul_r by nia.
  destruct (Z.eq_dec (x mod p) 0) as [Hz|Hnz].
  - rewrite <- (Z.mod_pow_l x dp), Hz, Z.pow_0_l, Z.mod_0_l by lia.
    rewrite <- Z.mul_mod_idemp_r, <- (Z.mod_pow_l x dp), Hz, Z.pow_0_l by lia.
    rewrite Z.mod_0_l, Z.mul_0_r, Z.mod_0_l by lia. reflexivity.
  - rewrite <- Z.mul_mod_idemp_l by lia.
    rewrite <- (Z.mod_pow_l (x ^ (p - 1)) k p), Z.fermat_nz by done.
    rewrite Z.pow_1_l, (Z.mod_small 1), Z.mul_1_l by lia. reflexivity.
Qed.

(** The inverse of [e] modulo [(p - 1) * (q - 1)] is one modulo [p - 1]. *)
Lemma inverse_mod_factor p q x :
  2 < p -> 1 < q -> x mod ((p - 1) * (q - 1)) = 1 -> x mod (p - 1) = 1.
Proof.
  intros Hp Hq H.
  pose proof (Z.div_mod x ((p - 1) * (q - 1)) ltac:(nia)) as Hdm.
  rewrite H in Hdm. rewrite Hdm.
  replace ((p - 1) * (q - 1) * (x / ((p - 1) * (q - 1))) + 1)
    with (1 + ((q - 1) * (x / ((p - 1) * (q - 1)))) * (p - 1)) by lia.
  rewrite Z.mod_add by lia. apply Z.mod_small. lia.
Qed.

(** Two residues below [p * q] that agree modulo [p] and modulo [q]. *)
Lemma crt_unique p q x y :
  Z.prime p -> Z.prime q -> p <> q ->
  0 <= x < p * q -> 0 <= y < p * q ->
  x mod p = y mod p -> x mod q = y mod q -> x = y.
Proof.
  intros Hp Hq Hne Hx Hy Hmp Hmq.
  pose proof (Z.prime_ge_2 _ Hp). pose proof (Z.prime_ge_2 _ Hq).
  assert (Hdiv : (p * q | x - y)).
  { apply divide_mul_coprime.
    - by apply distinct_primes_coprime.
    - apply Z.mod_divide; [lia|]. by apply Z.cong_iff_0.
    - apply Z.mod_divide; [lia|]. by apply Z.cong_iff_0. }
  destruct Hdiv as [c Hc]. assert (c = 0) by nia. lia.
Qed.

Variable getRandomBigInteger : Z -> Z -> Z.

(** For a well-formed key, the blinded CRT computation of [bnDecrypt]
    yields the bytes of [data ^ d mod n]. *)
Lemma decrypt_block_correct (data n e d p q u : list Z) :
  let N := of_bytes n in
  let P := of_bytes p in
  let Q := of_bytes q in
  Z.prime P -> Z.prime Q -> P <> Q -> 2 < P -> 2 < Q -> N = P * Q ->
  bytes_ok data -> bytes_ok e -> bytes_ok d ->
  (of_bytes e * of_bytes d) mod ((P - 1) * (Q - 1)) = 1 ->
  (P * of_bytes u) mod Q = 1 ->
  of_bytes data < N ->
  Z.gcd (getRandomBigInteger 2 N mod N) N = 1 ->
  RSA.decrypt_block getRandomBigInteger data n e d p q u =
  Ok (toUint8Array (of_bytes data ^ of_bytes d mod N) (byteLength N)).
Proof.
  intros N P Q Hp Hq Hne Hp3 Hq3 HN Hdat He Hd Hed Hu Hlt Hgcd.
  unfold RSA.decrypt_block. fold N P Q.
  pose proof (proj1 (of_bytes_range data Hdat)) as Hc.
  pose proof (proj1 (of_bytes_range e He)) as HE.
  pose proof (proj1 (of_bytes_range d Hd)) as HD.
  set (C := of_bytes data) in *. set (E := of_bytes e) in *.
  set (D := of_bytes d) in *. set (U := of_bytes u) in *.
  assert (HNpos : 2 <= N) by nia.
  replace (N <=? C) with false by lia.
  set (a := getRandomBigInteger 2 N mod N) in *.
  unfold modInv. rewrite Hgcd. cbn [Z.eqb Pos.eqb bind].
  f_equal. f_equal. unfold modExp.
  set (inv := Z.invmod a N).
  assert (Hinv : (inv * a) mod N = 1) by (by apply Z.invmod_coprime).
  assert (Hinv_range : 0 <= inv < N).
  { unfold inv. rewrite <- Z.mod_invmod. apply Z.mod_pos_bound. lia. }
  set (c' := (C * (inv ^ E mod N)) mod N).
  assert (Hc' : 0 <= c' < N) by (apply Z.mod_pos_bound; lia).
  assert (HedP : (E * D) mod (P - 1) = 1)
    by (apply (inverse_mod_factor P Q); [lia|lia|done]).
  assert (HedQ : (E * D) mod (Q - 1) = 1).
  { apply (inverse_mod_factor Q P); [lia|lia|].
    by rewrite (Z.mul_comm (Q - 1)). }
  set (mp := c' ^ (D mod (P - 1)) mod P).
  set (mq := c' ^ (D mod (Q - 1)) mod Q).
  assert (Hmp : mp = c' ^ D mod P) by (by apply (pow_mod_reduce P E D)).
  assert (Hmq : mq = c' ^ D mod Q) by (by apply (pow_mod_reduce Q E D)).
  assert (Hmp_range : 0 <= mp < P) by (apply Z.mod_pos_bound; lia).
  assert (Hmq_range : 0 <= mq < Q) by (apply Z.mod_pos_bound; lia).
  set (h := (U * (mq - mp)) mod Q).
  assert (Hh : 0 <= h < Q) by (apply Z.mod_pos_bound; lia).
  (* the CRT recombination is [c' ^ D mod N] *)
  assert (Hres : h * P + mp = c' ^ D mod N).
  { apply (crt_unique P Q); try done.
    - nia.
    - rewrite <- HN. apply Z.mod_pos_bound. lia.
    - rewrite Z.add_comm, Z.mod_add by lia.
      rewrite HN, Z.mod_mod_divide by (exists Q; lia).
      rewrite <- Hmp. apply Z.mod_small. lia.
    - rewrite HN, Z.mod_mod_divide by (exists P; lia).
      rewrite <- Hmq. unfold h.
      rewrite <- Z.add_mod_idemp_l, Z.mul_mod_idemp_l by lia.
      replace (U * (mq - mp) * P) with ((P * U) * (mq - mp)) by lia.
      rewrite <- Z.mul_mod_idemp_l, Hu, Z.mul_1_l by lia.
      rewrite Z.add_mod_idemp_l by lia.
      replace (mq - mp + mp) with mq by lia. apply Z.mod_small. lia. }
  rewrite Hres.
  (* unblinding *)
  rewrite Z.mul_mod_idemp_l by lia.
  unfold c'. rewrite <- Z.mul_mod_idemp_l, Z.mod_pow_l by lia.
  rewrite Z.mul_mod_idemp_l by lia.
  rewrite Z.pow_mul_l, <- Z.mul_assoc.
  rewrite <- Z.mul_mod_idemp_r by lia.
  replace (((inv ^ E mod N) ^ D * a) mod N) with 1.
  - by rewrite Z.mul_1_r.
  - rewrite <- Z.mul_mod_idemp_l by lia.
    rewrite HN, (rsa_round_trip P Q E D inv) by (done || lia).
    rewrite <- HN. by rewrite Hinv.
Qed.

End DecryptFacts.

(** * RSA decryption and the PKCS#1 padding failure *)



(** With the key above, 2 ^ 7 mod 55 = 18 is what the numeric part
    recovers from the ciphertext 2. *)
Example decrypt_block_value :
  RSA.decrypt_block (fun _ _ => 2) [2] [55] [3] [7] [5] [11] [9] = Ok [18].
Proof. vm_compute. reflexivity. Qed.

(** * RSA signatures *)

Section SignFacts.
Import JS BigInteger.

Lemma equal_from_eq a1 : forall a2,
  length a1 = length a2 -> Util.equal_from a1 a2 = true -> a1 = a2.
Proof.
  induction a1 as [|x a1 IH]; intros [|y a2] Hlen H; simpl in *;
    try discriminate; [reflexivity|].
  destruct (Z.eqb_spec x y) as [->|Hne]; [|discriminate].
  f_equal. apply IH; [lia|done].
Qed.

Lemma equal_from_refl a : Util.equal_from a a = true.
Proof. induction a as [|x a IH]; simpl; [reflexivity|]. by rewrite Z.eqb_refl. Qed.

Lemma equalsUint8Array_true a1 a2 :
  Util.equalsUint8Array a1 a2 = true <-> a1 = a2.
Proof.
  unfold Util.equalsUint8Array. split.
  - destruct (Z.eqb_spec (len a1) (len a2)) as [Hlen|]; [|discriminate].
    simpl. apply equal_from_eq. unfold len in Hlen. lia.
  - intros ->. rewrite Z.eqb_refl. simpl. apply equal_from_refl.
Qed.

Variable hash_headers : Z -> list Z.

(** The encoded message has the length asked for and consists of bytes. *)
Lemma emsaEncode_shape algo hashed k em :
  PKCS1.emsaEncode hash_headers algo hashed k = Ok em ->
  bytes_ok (hash_headers algo) -> bytes_ok hashed ->
  len em = k /\ bytes_ok em.
Proof.
  unfold PKCS1.emsaEncode. intros H Hp Hh.
  destruct (k <? len (hash_headers algo) + len hashed + 11) eqn:E;
    [discriminate|].
  injection H as <-. apply Z.ltb_ge in E.
  pose proof (len_nonneg (hash_headers algo)).
  pose proof (len_nonneg hashed). split.
  - rewrite !len_cons, len_app, len_cons, len_app.
    unfold len at 1. rewrite length_replicate. lia.
  - apply bytes_ok_cons. split; [lia|]. apply bytes_ok_cons. split; [lia|].
    apply bytes_ok_app. split; [apply Forall_replicate; lia|].
    apply bytes_ok_cons. split; [lia|]. by apply bytes_ok_app.
Qed.

(** Two hashes of one length with one encoding are equal. *)
Lemma emsaEncode_inj algo h1 h2 k em :
  PKCS1.emsaEncode hash_headers algo h1 k = Ok em ->
  PKCS1.emsaEncode hash_headers algo h2 k = Ok em ->
  len h1 = len h2 -> h1 = h2.
Proof.
  unfold PKCS1.emsaEncode. intros H1 H2 Hlen. rewrite <- Hlen in H2.
  destruct (k <? len (hash_headers algo) + len h1 + 11); [discriminate|].
  rewrite <- H1 in H2. injection H2 as H2.
  apply app_inv_head in H2. injection H2 as H2.
  by apply app_inv_head in H2.
Qed.

End SignFacts.

(** C2. For an RSA key [n = p * q] of two distinct primes with
    [e * d = 1] modulo [(p - 1) * (q - 1)], and a hash whose
    EMSA-PKCS1-v1.5 encoding is numerically smaller than [n]: [bnSign]
    returns a signature that [bnVerify] accepts; [bnVerify] does not
    accept any other byte string of the same length in place of the
    signature, nor the signature for any other hash of the same length
    (it returns [false] or throws). *)
Theorem rsa_sign_verify (hash_headers : Z -> list Z) (hashAlgo p q : Z)
                        (n e d hashed em : list Z) :
  Z.prime p -> Z.prime q -> p <> q ->
  BigInteger.of_bytes n = p * q ->
  JS.bytes_ok e -> JS.bytes_ok d ->
  (BigInteger.of_bytes e * BigInteger.of_bytes d) mod ((p - 1) * (q - 1)) = 1 ->
  JS.bytes_ok (hash_headers hashAlgo) -> JS.bytes_ok hashed ->
  PKCS1.emsaEncode hash_headers hashAlgo hashed
    (BigInteger.byteLength (BigInteger.of_bytes n)) = Ok em ->
  BigInteger.of_bytes em < BigInteger.of_bytes n ->
  exists sig,
    RSA.bnSign hash_headers hashAlgo n d hashed = Ok sig /\
    RSA.bnVerify hash_headers hashAlgo sig n e hashed = Ok true /\
    (forall sig', JS.bytes_ok sig' -> JS.len sig' = JS.len sig -> sig' <> sig ->
       RSA.bnVerify hash_headers hashAlgo sig' n e hashed <> Ok true) /\
    (forall hashed', JS.bytes_ok hashed' -> JS.len hashed' = JS.len hashed ->
       hashed' <> hashed ->
       RSA.bnVerify hash_headers hashAlgo sig n e hashed' <> Ok true).
Proof.
  intros Hp Hq Hne Hn He Hd Hed Hpre Hh Hem Hlt.
  pose proof (Z.prime_ge_2 _ Hp) as Hp2. pose proof (Z.prime_ge_2 _ Hq) as Hq2.
  set (N := BigInteger.of_bytes n) in *.
  set (E := BigInteger.of_bytes e) in *. set (D := BigInteger.of_bytes d) in *.
  assert (HN : 0 < N) by nia.
  destruct (byteLength_fits N HN) as [Hk Hfit].
  set (k := BigInteger.byteLength N) in *.
  destruct (emsaEncode_shape _ _ _ _ _ Hem Hpre Hh) as [Hemlen Hemok].
  pose proof (of_bytes_range em Hemok) as Hm.
  pose proof (of_bytes_range e He) as HE. pose proof (of_bytes_range d Hd) as HD.
  fold E in HE. fold D in HD.
  set (m := BigInteger.of_bytes em) in *.
  set (s := m ^ D mod N).
  assert (Hs : 0 <= s < N) by (apply Z.mod_pos_bound; lia).
  assert (Hsig_val : BigInteger.of_bytes (BigInteger.toUint8Array s k) = s)
    by (apply of_bytes_toUint8Array; lia).
  assert (Hback : s ^ E mod N = m).
  { unfold s. rewrite Hn. apply rsa_round_trip; try done; try lia.
    by rewrite Z.mul_comm. }
  assert (Hverify : forall sig' hashed',
            BigInteger.of_bytes sig' < N ->
            RSA.bnVerify hash_headers hashAlgo sig' n e hashed' =
            do EM2 <- PKCS1.emsaEncode hash_headers hashAlgo hashed' k;
            Ok (Util.equalsUint8Array
                  (BigInteger.toUint8Array
                     (BigInteger.of_bytes sig' ^ E mod N) k) EM2)).
  { intros sig' hashed' Hlt'. unfold RSA.bnVerify. fold N E k.
    replace (N <=? BigInteger.of_bytes sig') with false by lia. reflexivity. }
  assert (HEM1 : BigInteger.toUint8Array (s ^ E mod N) k = em).
  { rewrite Hback. unfold m. rewrite <- Hemlen. by apply toUint8Array_of_bytes. }
  exists (BigInteger.toUint8Array s k). split; [|split; [|split]].
  - unfold RSA.bnSign. fold N k. rewrite Hem. cbn [bind]. fold m D.
    replace (N <=? m) with false by lia. reflexivity.
  - rewrite Hverify, Hsig_val by lia. rewrite Hem. cbn [bind].
    rewrite HEM1. f_equal. by apply equalsUint8Array_true.
  - intros sig' Hok' Hlen' Hdiff Hacc.
    rewrite toUint8Array_len in Hlen' by lia.
    pose proof (of_bytes_range sig' Hok') as Hr'.
    destruct (Z_lt_le_dec (BigInteger.of_bytes sig') N) as [Hlt'|Hge].
    2: { unfold RSA.bnVerify in Hacc. fold N in Hacc.
         replace (N <=? BigInteger.of_bytes sig') with true in Hacc by lia.
         discriminate. }
    rewrite Hverify, Hem in Hacc by done. cbn [bind] in Hacc.
    injection Hacc as Hacc. apply equalsUint8Array_true in Hacc.
    apply (f_equal BigInteger.of_bytes) in Hacc. fold m in Hacc.
    rewrite of_bytes_toUint8Array in Hacc
      by (pose proof (Z.mod_pos_bound (BigInteger.of_bytes sig' ^ E) N); lia).
    assert (Hs' : BigInteger.of_bytes sig' = s).
    { unfold s. rewrite <- Hacc, Hn. symmetry.
      apply rsa_round_trip; try done; try lia. }
    apply Hdiff. apply of_bytes_inj; try done.
    + apply toUint8Array_bytes_ok.
    + rewrite toUint8Array_len by lia. done.
    + by rewrite Hsig_val.
  - intros hashed' Hok' Hlen' Hdiff Hacc.
    rewrite Hverify, Hsig_val in Hacc by lia.
    destruct (PKCS1.emsaEncode hash_headers hashAlgo hashed' k) as [em'|]
      eqn:Hem'; [|discriminate].
    cbn [bind] in Hacc. injection Hacc as Hacc.
    apply equalsUint8Array_true in Hacc. rewrite HEM1 in Hacc. subst em'.
    apply Hdiff. by apply (emsaEncode_inj hash_headers hashAlgo hashed' hashed k em).
Qed.

(** A 89-bit key: p = 17592186044423, q = 17592186044437, e = 65537, with
    no DigestInfo prefix and the one-byte hash [AB]. *)
Lemma rsa_sign_verify_witness :
  exists sig,
    RSA.bnSign (fun _ => []) 8 [1; 0; 0; 0; 0; 1; 192; 0; 0; 0; 0; 147]
      [74; 103; 181; 152; 74; 224; 158; 31; 97; 224; 193] [171] = Ok sig /\
    RSA.bnVerify (fun _ => []) 8 sig [1; 0; 0; 0; 0; 1; 192; 0; 0; 0; 0; 147]
      [1; 0; 1] [171] = Ok true.
Proof.
  destruct (rsa_sign_verify (fun _ => []) 8 17592186044423 17592186044437
              [1; 0; 0; 0; 0; 1; 192; 0; 0; 0; 0; 147] [1; 0; 1]
              [74; 103; 181; 152; 74; 224; 158; 31; 97; 224; 193] [171]
              [0; 1; 255; 255; 255; 255; 255; 255; 255; 255; 0; 171])
    as (sig & Hsign & Hverify & _).
  - exact prime_17592186044423.
  - exact prime_17592186044437.
  - lia.
  - vm_compute. reflexivity.
  - repeat constructor; lia.
  - repeat constructor; lia.
  - vm_compute. reflexivity.
  - constructor.
  - repeat constructor; lia.
  - vm_compute. reflexivity.
  - vm_compute. reflexivity.
  - exists sig. by split.
Defined.

(** * Operators and loops *)

Section OperatorFacts.
Import JS.

Lemma to_int32_range x : - 2 ^ 31 <= to_int32 x < 2 ^ 31.
Proof. unfold to_int32. pose proof (Z.mod_pos_bound (x + 2 ^ 31) (2 ^ 32)). lia. Qed.

Lemma to_int32_eq x : to_int32 x = x - 2 ^ 32 * ((x + 2 ^ 31) / 2 ^ 32).
Proof. unfold to_int32. rewrite Z.mod_eq by lia. lia. Qed.

Lemma to_int32_idem x : to_int32 (to_int32 x) = to_int32 x.
Proof. apply to_int32_small, to_int32_range. Qed.

(** The low [n] bits of [ToInt32 x] are those of [x]. *)
Lemma to_int32_mod x n : 0 <= n <= 32 -> to_int32 x mod 2 ^ n = x mod 2 ^ n.
Proof.
  intros Hn. rewrite to_int32_eq.
  replace (2 ^ 32) with (2 ^ n * 2 ^ (32 - n))
    by (rewrite <- Z.pow_add_r by lia; f_equal; lia).
  replace (x - 2 ^ n * 2 ^ (32 - n) * ((x + 2 ^ 31) / (2 ^ n * 2 ^ (32 - n))))
    with (x + (- (2 ^ (32 - n) * ((x + 2 ^ 31) / (2 ^ n * 2 ^ (32 - n))))) * 2 ^ n)
    by lia.
  apply Z.mod_add. lia.
Qed.

Lemma band_ones x n : 0 <= n < 32 -> band x (2 ^ n - 1) = x mod 2 ^ n.
Proof.
  intros Hn. unfold band.
  assert (Hp : 0 < 2 ^ n) by lia.
  assert (Hlt : 2 ^ n <= 2 ^ 31) by (apply Z.pow_le_mono_r; lia).
  rewrite (to_int32_small (2 ^ n - 1)) by lia.
  replace (2 ^ n - 1) with (Z.ones n) by (rewrite Z.ones_equiv; lia).
  rewrite Z.land_ones by lia. apply to_int32_mod. lia.
Qed.

Lemma band_255 x : band x 255 = x mod 256.
Proof. apply (band_ones x 8). lia. Qed.

Lemma band_65535 x : band x 65535 = x mod 65536.
Proof. apply (band_ones x 16). lia. Qed.

Lemma sar_div x s : 0 <= s < 32 -> sar x s = to_int32 x / 2 ^ s.
Proof.
  intros Hs. unfold sar, to_uint32.
  rewrite (Z.mod_small s) by lia. rewrite (Z.mod_small s) by lia.
  apply Z.shiftr_div_pow2. lia.
Qed.

(** The byte of [x] at bit offset [s], for [s] up to 24: the sign
    extension of [>>] stays above it. *)
Lemma sar_byte x s : 0 <= s <= 24 -> sar x s mod 256 = (x / 2 ^ s) mod 256.
Proof.
  intros Hs. rewrite sar_div by lia. rewrite to_int32_eq.
  replace (2 ^ 32) with (2 ^ (32 - s) * 2 ^ s)
    by (rewrite <- Z.pow_add_r by lia; f_equal; lia).
  set (k := (x + 2 ^ 31) / (2 ^ (32 - s) * 2 ^ s)).
  replace (x - 2 ^ (32 - s) * 2 ^ s * k)
    with (x + (- (2 ^ (32 - s) * k)) * 2 ^ s) by lia.
  rewrite Z.div_add by lia.
  replace (2 ^ (32 - s)) with (2 ^ (24 - s) * 256)
    by (change 256 with (2 ^ 8); rewrite <- Z.pow_add_r by lia; f_equal; lia).
  replace (x / 2 ^ s + - (2 ^ (24 - s) * 256 * k))
    with (x / 2 ^ s + (- (2 ^ (24 - s) * k)) * 256) by lia.
  apply Z.mod_add. lia.
Qed.

(** A loop that stores [f i] at index [i] of an array. *)
Lemma for_up_fill (f : Z -> Z) k : forall i done todo,
  len done = i -> length todo = k ->
  for_up k i (fun i b => put b i (f i)) (done ++ todo)
  = done ++ map (fun j => u8 (f j)) (seqZ i (Z.of_nat k)).
Proof.
  induction k as [|k IH]; intros i done todo Hi Hk.
  - destruct todo; [|done]. reflexivity.
  - destruct todo as [|x todo]; [done|]. simpl for_up.
    rewrite <- Hi, put_middle.
    replace (done ++ u8 (f (len done)) :: todo)
      with ((done ++ [u8 (f (len done))]) ++ todo) by (by rewrite <- app_assoc).
    rewrite IH.
    + rewrite (seqZ_cons (len done)) by lia.
      rewrite <- app_assoc. simpl. do 4 f_equal; lia.
    + rewrite len_app. reflexivity.
    + simpl in Hk. lia.
Qed.

Lemma for_up_fill_zeros (f : Z -> Z) n : 0 <= n ->
  for_up (Z.to_nat n) 0 (fun i b => put b i (f i)) (zeros n)
  = map (fun j => u8 (f j)) (seqZ 0 n).
Proof.
  intros Hn. change (zeros n) with ([] ++ zeros n).
  rewrite (for_up_fill f (Z.to_nat n) 0 [] (zeros n)).
  - simpl. by rewrite Z2Nat.id.
  - reflexivity.
  - unfold zeros. by rewrite length_replicate.
Qed.

(** A loop over a pair of independent components. *)
Lemma for_up_pair {A B} (g : Z -> A -> A) (h : Z -> B -> B) k : forall i a b,
  for_up k i (fun i (s : A * B) => (g i s.1, h i s.2)) (a, b)
  = (for_up k i g a, for_up k i h b).
Proof. induction k as [|k IH]; intros i a b; simpl; [done|]. apply IH. Qed.

Lemma for_up_ext {St} (f g : Z -> St -> St) k : forall i s,
  (forall j s', i <= j < i + Z.of_nat k -> f j s' = g j s') ->
  for_up k i f s = for_up k i g s.
Proof.
  induction k as [|k IH]; intros i s H; simpl; [done|].
  rewrite H by lia. apply IH. intros j s' Hj. apply H. lia.
Qed.

End OperatorFacts.

(** * Numbers and byte strings *)

Section NumberFacts.
Import JS Util Spec BigInteger.

Lemma big_endian_of_bytes l : big_endian l = of_bytes l.
Proof. reflexivity. Qed.

Lemma big_endian_snoc l b : big_endian (l ++ [b]) = big_endian l * 256 + b.
Proof. apply of_bytes_snoc. Qed.

Lemma big_endian_app l1 l2 :
  big_endian (l1 ++ l2) = big_endian l1 * 256 ^ len l2 + big_endian l2.
Proof.
  induction l2 as [|b l2 IH] using rev_ind.
  - rewrite app_nil_r. change (len []) with 0. change (big_endian []) with 0. lia.
  - rewrite app_assoc, !big_endian_snoc, IH, len_app.
    change (len [b]) with 1.
    rewrite Z.pow_add_r by (pose proof (len_nonneg l2); lia). lia.
Qed.

Lemma big_endian_cons b l :
  big_endian (b :: l) = b * 256 ^ len l + big_endian l.
Proof.
  change (b :: l) with ([b] ++ l). rewrite big_endian_app.
  change (big_endian [b]) with (0 * 256 + b). lia.
Qed.

Lemma big_endian_zeros k l : big_endian (replicate k 0 ++ l) = big_endian l.
Proof.
  rewrite big_endian_app.
  assert (H : big_endian (replicate k 0) = 0).
  { induction k as [|k IH]; [reflexivity|].
    rewrite replicate_S, big_endian_cons, IH. lia. }
  rewrite H. lia.
Qed.

Lemma big_endian_range l : bytes_ok l -> 0 <= big_endian l < 256 ^ len l.
Proof. apply of_bytes_range. Qed.

(** The loop of [readNumber] with [k] bytes still to read. *)
Lemma readNumber_loop l k : forall i acc,
  (k + i = length l)%nat ->
  for_up k (Z.of_nat i)
    (fun i n => n + 256 ^ i * get_int l (len l - 1 - i)) acc
  = acc + 256 ^ Z.of_nat i * big_endian (take k l).
Proof.
  induction k as [|k IH]; intros i acc Hlen.
  - simpl for_up. rewrite take_0. change (big_endian []) with 0. ring.
  - simpl for_up.
    replace (Z.of_nat i + 1) with (Z.of_nat (S i)) by lia.
    rewrite IH by lia.
    assert (Hk : (k < length l)%nat) by lia.
    destruct (lookup_lt_is_Some_2 l k Hk) as [x Hx].
    rewrite (take_S_r l k x Hx), big_endian_snoc.
    unfold get_int, get. unfold len.
    replace (Z.of_nat (length l) - 1 - Z.of_nat i <? 0) with false by lia.
    replace (Z.to_nat (Z.of_nat (length l) - 1 - Z.of_nat i)) with k by lia.
    rewrite Hx. simpl default.
    replace (Z.of_nat (S i)) with (Z.of_nat i + 1) by lia.
    rewrite Z.pow_add_r by lia. change (256 ^ 1) with 256. ring.
Qed.

(** [readNumber] reads a big-endian number. *)
Lemma readNumber_value l : readNumber l = big_endian l.
Proof.
  unfold readNumber. change 0 with (Z.of_nat 0) at 1.
  rewrite (readNumber_loop l (length l) O 0) by lia.
  rewrite firstn_all. change (Z.of_nat 0) with 0. lia.
Qed.

(** The bytes of [toUint8Array], one by one. *)
Lemma toUint8Array_digits k : 0 <= k -> forall x,
  toUint8Array x k
  = map (fun j => (x / 2 ^ (8 * (k - j - 1))) mod 256) (seqZ 0 k).
Proof.
  intros Hk. pattern k. apply natlike_ind; [| |exact Hk]; clear k Hk.
  - reflexivity.
  - intros k Hk IH x. unfold Z.succ.
    rewrite toUint8Array_succ by done. rewrite IH.
    rewrite seqZ_app by lia. rewrite map_app. f_equal.
    + apply map_ext_in. intros j Hj. apply list_elem_of_In, elem_of_seqZ in Hj.
      rewrite Z.div_div by lia. change 256 with (2 ^ 8) at 1.
      rewrite <- Z.pow_add_r by lia. do 3 f_equal. lia.
    + replace (seqZ (0 + k) 1) with [k] by (unfold seqZ; simpl; f_equal; lia).
      cbn [map]. replace (8 * (k + 1 - k - 1)) with 0 by lia.
      change (2 ^ 0) with 1. by rewrite Z.div_1_r.
Qed.

(** The bytes that [writeNumber] stores. *)
Lemma writeNumber_bytes n k : 0 <= k ->
  writeNumber n k
  = Ok (map (fun j => sar n (8 * (k - j - 1)) mod 256) (seqZ 0 k)).
Proof.
  intros Hk. unfold writeNumber, new_Uint8Array.
  replace (k <? 0) with false by lia. simpl bind.
  rewrite for_up_fill_zeros by done. f_equal.
  apply map_ext. intros j. rewrite band_255. unfold u8.
  rewrite Zmod_mod. reflexivity.
Qed.

(** Up to four bytes, [writeNumber] writes the big-endian form. *)
Lemma writeNumber_toUint8Array n k : 0 <= k <= 4 ->
  writeNumber n k = Ok (toUint8Array n k).
Proof.
  intros Hk. rewrite writeNumber_bytes, toUint8Array_digits by lia. f_equal.
  apply map_ext_in. intros j Hj. apply list_elem_of_In, elem_of_seqZ in Hj.
  apply sar_byte. lia.
Qed.

(** The value of the low [k] bytes of a number. *)
Lemma big_endian_toUint8Array k : 0 <= k -> forall x,
  big_endian (toUint8Array x k) = x mod 256 ^ k.
Proof.
  intros Hk. pattern k. apply natlike_ind; [| |exact Hk]; clear k Hk.
  - intros x. change (256 ^ 0) with 1. by rewrite Z.mod_1_r.
  - intros k Hk IH x. unfold Z.succ.
    rewrite toUint8Array_succ, big_endian_snoc, IH by done.
    rewrite Z.pow_add_r by lia. change (256 ^ 1) with 256.
    rewrite (Z.mul_comm (256 ^ k) 256).
    rewrite Z.rem_mul_r by lia. lia.
Qed.

End NumberFacts.

Section ChecksumFacts.
Import JS Util Spec BigInteger.

(** A loop that reads the array from left to right is a left fold. *)
Lemma for_up_fold {St} (F : St -> Z -> St) l : forall pre s,
  for_up (length l) (len pre) (fun i s => F s (get_int (pre ++ l) i)) s
  = fold_left F l s.
Proof.
  induction l as [|x l IH]; intros pre s; [reflexivity|].
  simpl for_up. simpl fold_left.
  assert (Hx : get_int (pre ++ x :: l) (len pre) = x).
  { unfold get_int, get. pose proof (len_nonneg pre).
    replace (len pre <? 0) with false by lia.
    unfold len. rewrite Nat2Z.id.
    rewrite lookup_app_r by lia. by rewrite Nat.sub_diag. }
  rewrite Hx.
  replace (pre ++ x :: l) with ((pre ++ [x]) ++ l) by (by rewrite <- app_assoc).
  replace (len pre + 1) with (len (pre ++ [x])) by (by rewrite len_app).
  apply IH.
Qed.

Lemma sum_mod_fold l : forall s, 0 <= s < 65536 ->
  fold_left (fun s x => (s + x) mod 65536) l s
  = (s + fold_right Z.add 0 l) mod 65536.
Proof.
  induction l as [|x l IH]; intros s Hs; simpl.
  - rewrite Z.add_0_r. by rewrite Z.mod_small.
  - rewrite IH by (apply Z.mod_pos_bound; lia).
    rewrite Z.add_mod_idemp_l by lia. f_equal. lia.
Qed.

Lemma checksum_loop text :
  for_up (length text) 0 (fun i s => band (s + get_int text i) 0xFFFF) 0
  = fold_right Z.add 0 text mod 65536.
Proof.
  change 0 with (len []) at 1. change text with ([] ++ text) at 2.
  rewrite (for_up_fold (fun s x => band (s + x) 65535) text [] 0).
  assert (H : forall l s, fold_left (fun s x => band (s + x) 65535) l s
                          = fold_left (fun s x => (s + x) mod 65536) l s).
  { induction l as [|x l IH]; intros s; simpl; [done|].
    by rewrite band_65535, IH. }
  rewrite H, sum_mod_fold by lia. reflexivity.
Qed.

End ChecksumFacts.

(** X1. Reading a number of up to four bytes and writing it back at the
    same length gives the bytes read. *)
Theorem writeNumber_readNumber (bytes : list Z) :
  JS.bytes_ok bytes -> JS.len bytes <= 4 ->
  Util.writeNumber (Util.readNumber bytes) (JS.len bytes) = Ok bytes.
Proof.
  intros Hok Hlen. pose proof (len_nonneg bytes).
  rewrite writeNumber_toUint8Array by lia.
  rewrite readNumber_value, big_endian_of_bytes.
  by rewrite toUint8Array_of_bytes.
Qed.

Lemma writeNumber_readNumber_witness :
  Util.writeNumber (Util.readNumber [0; 1; 226; 64]) 4 = Ok [0; 1; 226; 64].
Proof.
  apply (writeNumber_readNumber [0; 1; 226; 64]).
  - repeat constructor; lia.
  - vm_compute. discriminate.
Defined.

(** X2. Up to four bytes, [writeNumber] stores the low-order bytes of an
    integer, most significant first: reading them gives the integer
    modulo [256 ^ bytes], hence the integer itself when it fits. *)
Theorem readNumber_writeNumber (n bytes : Z) :
  0 <= bytes <= 4 ->
  exists b, Util.writeNumber n bytes = Ok b /\ JS.len b = bytes /\
            JS.bytes_ok b /\
            Util.readNumber b = n mod 256 ^ bytes /\
            (0 <= n < 256 ^ bytes -> Util.readNumber b = n).
Proof.
  intros Hk. exists (BigInteger.toUint8Array n bytes).
  rewrite writeNumber_toUint8Array by done.
  rewrite readNumber_value, big_endian_toUint8Array by lia.
  split; [done|]. split; [apply toUint8Array_len; lia|].
  split; [apply toUint8Array_bytes_ok|]. split; [done|].
  intros Hn. by apply Z.mod_small.
Qed.

Lemma readNumber_writeNumber_witness :
  exists b, Util.writeNumber 123456 4 = Ok b /\ JS.len b = 4 /\
            JS.bytes_ok b /\
            Util.readNumber b = 123456 mod 256 ^ 4 /\
            (0 <= 123456 < 256 ^ 4 -> Util.readNumber b = 123456).
Proof. apply (readNumber_writeNumber 123456 4). lia. Defined.

(** X3. Beyond four bytes [writeNumber] is no big-endian writer: the shift
    count of [>>] is taken modulo 32, so the [j] bytes in front of the low
    four repeat the last [j] of them. *)
Theorem writeNumber_wraps_after_four_bytes (n j : Z) (b4 : list Z) :
  0 <= j <= 4 ->
  Util.writeNumber n 4 = Ok b4 ->
  Util.writeNumber n (4 + j) = Ok (drop (Z.to_nat (4 - j)) b4 ++ b4).
Proof.
  intros Hj H4. rewrite writeNumber_bytes in H4 by lia.
  injection H4 as <-.
  rewrite writeNumber_bytes by lia.
  assert (Hc : j = 0 \/ j = 1 \/ j = 2 \/ j = 3 \/ j = 4) by lia.
  destruct Hc as [->|[->|[->|[->| ->]]]]; reflexivity.
Qed.

Lemma writeNumber_wraps_after_four_bytes_witness :
  Util.writeNumber 16909060 8 = Ok [1; 2; 3; 4; 1; 2; 3; 4].
Proof.
  apply (writeNumber_wraps_after_four_bytes 16909060 4 [1; 2; 3; 4]).
  - lia.
  - reflexivity.
Defined.

(** X4. [writeChecksum] returns, as two big-endian bytes, the sum of the
    bytes modulo 65536; the order of the bytes does not matter. *)
Theorem writeChecksum_sum (text : list Z) :
  JS.bytes_ok text ->
  exists b, Util.writeChecksum text = Ok b /\ JS.len b = 2 /\
            Util.readNumber b = fold_right Z.add 0 text mod 65536 /\
            forall text', Permutation text text' ->
                          Util.writeChecksum text' = Ok b.
Proof.
  intros Hok.
  assert (Hw : forall t, Util.writeChecksum t
     = Ok (BigInteger.toUint8Array (fold_right Z.add 0 t mod 65536) 2)).
  { intros t. unfold Util.writeChecksum. rewrite checksum_loop.
    by rewrite writeNumber_toUint8Array by lia. }
  eexists. split; [apply Hw|].
  split; [apply toUint8Array_len; lia|]. split.
  - rewrite readNumber_value, big_endian_toUint8Array by lia.
    change (256 ^ 2) with 65536. by rewrite Zmod_mod.
  - intros text' Hp. rewrite Hw. do 3 f_equal.
    clear Hok Hw. induction Hp; simpl; lia.
Qed.

Lemma writeChecksum_sum_witness :
  exists b, Util.writeChecksum [255; 255; 3] = Ok b /\ JS.len b = 2 /\
            Util.readNumber b = fold_right Z.add 0 [255; 255; 3] mod 65536 /\
            forall text', Permutation [255; 255; 3] text' ->
                          Util.writeChecksum text' = Ok b.
Proof. apply (writeChecksum_sum [255; 255; 3]). repeat constructor; lia. Defined.

(** * Bit lengths *)

Section BitFacts.
Import JS Util Spec.

(** One step of the binary search of [nbits]. *)
Lemma nbits_step k x r x0 :
  0 < k -> 0 < x < 2 ^ (2 * k) -> Z.log2 x0 + 1 = Z.log2 x + r ->
  let t := Z.shiftr x k in
  let xr := if t =? 0 then (x, r) else (t, r + k) in
  0 < xr.1 < 2 ^ k /\ Z.log2 x0 + 1 = Z.log2 xr.1 + xr.2.
Proof.
  intros Hk Hx Hinv t xr. subst xr t.
  rewrite Z.shiftr_div_pow2 by lia.
  assert (Hp : 0 < 2 ^ k) by lia.
  destruct (x / 2 ^ k =? 0) eqn:E; simpl.
  - apply Z.eqb_eq in E. split; [|done].
    apply Z.div_small_iff in E; lia.
  - apply Z.eqb_neq in E.
    assert (Hq : 0 <= x / 2 ^ k) by (apply Z.div_pos; lia).
    assert (Hlt : x / 2 ^ k < 2 ^ k).
    { apply Z.div_lt_upper_bound; [lia|]. rewrite <- Z.pow_add_r by lia.
      replace (k + k) with (2 * k) by lia. lia. }
    split; [lia|].
    rewrite <- Z.shiftr_div_pow2 by lia.
    rewrite Z.log2_shiftr by lia.
    assert (Hle : k <= Z.log2 x).
    { apply Z.log2_le_pow2; [lia|].
      pose proof (Z.div_mod x (2 ^ k)). pose proof (Z.mod_pos_bound x (2 ^ k)). nia. }
    lia.
Qed.

(** [nbits] on every positive 32-bit integer. *)
Lemma nbits_log2 x : 0 < x < 2 ^ 32 -> nbits x = Z.log2 x + 1.
Proof.
  intros Hx. unfold nbits. rewrite to_uint32_small by lia.
  pose proof (nbits_step 16 x 1 x ltac:(lia) ltac:(lia) ltac:(lia)) as H1.
  cbv zeta in H1.
  destruct (if Z.shiftr x 16 =? 0 then (x, 1) else (Z.shiftr x 16, 1 + 16))
    as [x1 r1]. simpl in H1. destruct H1 as [B1 I1].
  rewrite to_int32_small by lia.
  pose proof (nbits_step 8 x1 r1 x ltac:(lia) ltac:(lia) I1) as H2.
  cbv zeta in H2.
  destruct (if Z.shiftr x1 8 =? 0 then (x1, r1) else (Z.shiftr x1 8, r1 + 8))
    as [x2 r2]. simpl in H2. destruct H2 as [B2 I2].
  rewrite to_int32_small by lia.
  pose proof (nbits_step 4 x2 r2 x ltac:(lia) ltac:(lia) I2) as H3.
  cbv zeta in H3.
  destruct (if Z.shiftr x2 4 =? 0 then (x2, r2) else (Z.shiftr x2 4, r2 + 4))
    as [x3 r3]. simpl in H3. destruct H3 as [B3 I3].
  rewrite to_int32_small by lia.
  pose proof (nbits_step 2 x3 r3 x ltac:(lia) ltac:(lia) I3) as H4.
  cbv zeta in H4.
  destruct (if Z.shiftr x3 2 =? 0 then (x3, r3) else (Z.shiftr x3 2, r3 + 2))
    as [x4 r4]. simpl in H4. destruct H4 as [B4 I4].
  rewrite to_int32_small by lia.
  pose proof (nbits_step 1 x4 r4 x ltac:(lia) ltac:(lia) I4) as H5.
  cbv zeta in H5.
  destruct (if Z.shiftr x4 1 =? 0 then (x4, r4) else (Z.shiftr x4 1, r4 + 1))
    as [x5 r5]. simpl in H5. destruct H5 as [B5 I5].
  assert (x5 = 1) as -> by lia. change (Z.log2 1) with 0 in I5. lia.
Qed.

End BitFacts.

Section BitLengthFacts.
Import JS Util Spec.

Lemma take_leading_zeros bin :
  take (leading_zeros bin) bin = replicate (leading_zeros bin) 0.
Proof.
  induction bin as [|b rest IH]; simpl; [reflexivity|].
  destruct (b =? 0) eqn:E; simpl; [|reflexivity].
  apply Z.eqb_eq in E. subst b. by rewrite IH.
Qed.

(** Every byte array is a run of zero bytes followed by what the
    zero-skipping loop leaves. *)
Lemma leading_zeros_split bin :
  bin = replicate (leading_zeros bin) 0 ++ drop (leading_zeros bin) bin.
Proof. by rewrite <- take_leading_zeros, take_drop. Qed.

Lemma leading_zeros_app_zeros k bin :
  leading_zeros (replicate k 0 ++ bin) = (k + leading_zeros bin)%nat.
Proof. induction k as [|k IH]; simpl; [reflexivity|]. by rewrite IH. Qed.

(** The position of the highest set bit of a byte string that starts
    with a non-zero byte. *)
Lemma log2_big_endian b rest :
  0 < b < 256 -> bytes_ok rest ->
  Z.log2 (big_endian (b :: rest)) = Z.log2 b + 8 * len rest.
Proof.
  intros Hb Hrest. rewrite big_endian_cons.
  pose proof (big_endian_range rest Hrest) as Hv.
  pose proof (len_nonneg rest) as Hl.
  pose proof (Z.log2_nonneg b) as Hlb.
  destruct (Z.log2_spec b ltac:(lia)) as [Hlo Hhi].
  replace 256 with (2 ^ 8) in * by reflexivity.
  rewrite <- Z.pow_mul_r in * by lia.
  assert (Hp : 0 < 2 ^ (8 * len rest)) by lia.
  assert (E1 : 2 ^ (Z.log2 b + 8 * len rest)
               = 2 ^ Z.log2 b * 2 ^ (8 * len rest))
    by (rewrite Z.pow_add_r by lia; reflexivity).
  assert (E2 : 2 ^ Z.succ (Z.log2 b + 8 * len rest)
               = 2 ^ Z.succ (Z.log2 b) * 2 ^ (8 * len rest)).
  { rewrite <- Z.pow_add_r by lia. f_equal. lia. }
  apply Z.log2_unique; [lia|].
  rewrite E1, E2. nia.
Qed.

Lemma uint8ArrayBitLength_value bin :
  bytes_ok bin -> uint8ArrayBitLength bin = bits_of (big_endian bin).
Proof.
  intros Hok.
  pose proof (leading_zeros_split bin) as Hsplit.
  pose proof (drop_leading_zeros bin) as Hlz.
  destruct (drop (leading_zeros bin) bin) as [|b rest] eqn:Hdrop.
  - rewrite app_nil_r in Hsplit.
    rewrite uint8ArrayBitLength_zero.
    + rewrite Hsplit. rewrite <- (app_nil_r (replicate _ _)).
      by rewrite big_endian_zeros.
    + rewrite Hsplit. apply Forall_replicate. reflexivity.
  - destruct Hlz as [Hnz _].
    assert (Hd : bytes_ok (b :: rest)).
    { rewrite <- Hdrop. by apply Forall_drop. }
    apply bytes_ok_cons in Hd as [Hb Hrest].
    rewrite (uint8ArrayBitLength_stripped bin b rest) by (done || lia).
    rewrite Hsplit, big_endian_zeros. unfold bits_of, bit_length.
    rewrite log2_big_endian by (done || lia).
    assert (Hpos : 0 < big_endian (b :: rest)).
    { rewrite big_endian_cons. pose proof (big_endian_range rest Hrest).
      pose proof (len_nonneg rest). 
      assert (0 < 256 ^ len rest) by lia. nia. }
    replace (big_endian (b :: rest) =? 0) with false by lia. lia.
Qed.

End BitLengthFacts.

(** X5. [nbits] is the bit length of every positive integer below
    [2 ^ 32] (one more than the position of its highest set bit), and 1
    on zero. *)
Theorem nbits_bit_length (x : Z) :
  (0 < x < 2 ^ 32 -> Util.nbits x = Z.log2 x + 1) /\ Util.nbits 0 = 1.
Proof. split; [apply nbits_log2|reflexivity]. Qed.

(** X6. [uint8ArrayBitLength] is the number of bits of the big-endian
    number that the byte array holds, whatever its leading zero bytes: 0
    for the number zero, else one more than the position of the highest
    set bit. *)
Theorem uint8ArrayBitLength_big_endian (bin : list Z) :
  JS.bytes_ok bin ->
  Util.uint8ArrayBitLength bin = Spec.bits_of (Spec.big_endian bin).
Proof. apply uint8ArrayBitLength_value. Qed.

Lemma uint8ArrayBitLength_big_endian_witness :
  Util.uint8ArrayBitLength [0; 0; 5; 255]
  = Spec.bits_of (Spec.big_endian [0; 0; 5; 255]).
Proof.
  apply (uint8ArrayBitLength_big_endian [0; 0; 5; 255]).
  repeat constructor; lia.
Defined.

(** * More on the MPI reader and writer *)

(** X7. Leading zero bytes do not change what [uint8ArrayToMPI] returns:
    the same encoding, or the same rejection of zero. *)
Theorem uint8ArrayToMPI_leading_zeros (k : nat) (bin : list Z) :
  JS.bytes_ok bin ->
  Util.uint8ArrayToMPI (replicate k 0 ++ bin) = Util.uint8ArrayToMPI bin.
Proof.
  intros Hok.
  assert (Hok' : JS.bytes_ok (replicate k 0 ++ bin)).
  { apply bytes_ok_app. split; [|done]. apply Forall_replicate. lia. }
  pose proof (leading_zeros_split bin) as Hsplit.
  destruct (drop (Util.leading_zeros bin) bin) as [|b rest] eqn:Hdrop.
  - rewrite app_nil_r in Hsplit.
    unfold Util.uint8ArrayToMPI.
    rewrite !uint8ArrayBitLength_zero; [reflexivity| |].
    + rewrite Hsplit. apply Forall_replicate. reflexivity.
    + rewrite Hsplit. apply Forall_app. split; apply Forall_replicate; reflexivity.
  - rewrite (uint8ArrayToMPI_shape bin b rest) by done.
    apply uint8ArrayToMPI_shape; [done|].
    rewrite leading_zeros_app_zeros.
    rewrite drop_app_ge by (rewrite length_replicate; lia).
    rewrite length_replicate.
    replace (k + Util.leading_zeros bin - k)%nat with (Util.leading_zeros bin) by lia.
    done.
Qed.

Lemma uint8ArrayToMPI_leading_zeros_witness :
  Util.uint8ArrayToMPI (replicate 3 0 ++ [1; 0]) = Util.uint8ArrayToMPI [1; 0].
Proof.
  apply (uint8ArrayToMPI_leading_zeros 3 [1; 0]). repeat constructor; lia.
Defined.

(** X8. Writing what [readMPI] reads gives back the encoding read, when
    that encoding is canonical: its first payload byte is not zero and its
    prefix holds the exact bit length of the payload.  Bytes after the
    encoding play no part. *)
Theorem mpi_write_read (hi lo b : Z) (tl rest : list Z) :
  JS.bytes_ok (hi :: lo :: b :: tl) -> b <> 0 ->
  256 * hi + lo = Spec.bit_length b tl ->
  Util.uint8ArrayToMPI (Util.readMPI (hi :: lo :: (b :: tl) ++ rest))
  = Ok (hi :: lo :: b :: tl).
Proof.
  intros Hok Hb Hbits.
  apply bytes_ok_cons in Hok as [Hhi Hok].
  apply bytes_ok_cons in Hok as [Hlo Hok].
  pose proof Hok as Hpay.
  apply bytes_ok_cons in Hok as [Hb' Htl].
  assert (Hdiv : (256 * hi + lo) / 256 = hi)
    by (symmetry; apply (Z.div_unique _ 256 _ lo); lia).
  assert (Hmod : (256 * hi + lo) mod 256 = lo)
    by (symmetry; apply (Z.mod_unique _ 256 hi lo); lia).
  pose proof (readMPI_encoding (256 * hi + lo) (b :: tl) rest) as Hread.
  rewrite Hdiv, Hmod in Hread. rewrite Hread.
  - rewrite (uint8ArrayToMPI_stripped (b :: tl) b tl).
    + rewrite <- Hbits, Hdiv, Hmod. reflexivity.
    + done.
    + by rewrite leading_zeros_head.
    + lia.
  - lia.
  - rewrite Hbits, ceil_div8_bit_length by lia. rewrite len_cons. lia.
Qed.

Lemma mpi_write_read_witness :
  Util.uint8ArrayToMPI (Util.readMPI (0 :: 9 :: [1; 255] ++ [7; 7]))
  = Ok [0; 9; 1; 255].
Proof.
  apply (mpi_write_read 0 9 1 [255] [7; 7]).
  - repeat constructor; lia.
  - lia.
  - reflexivity.
Defined.

(** X9. [readMPI] does not reject a truncated encoding: when fewer bytes
    follow the prefix than it announces, all of them are returned. *)
Theorem readMPI_truncated (hi lo : Z) (payload : list Z) :
  JS.bytes_ok (hi :: lo :: payload) ->
  JS.len payload <= Util.ceil_div8 (256 * hi + lo) ->
  Util.readMPI (hi :: lo :: payload) = payload.
Proof.
  intros Hok Hlen.
  apply bytes_ok_cons in Hok as [Hhi Hok].
  apply bytes_ok_cons in Hok as [Hlo Hok].
  unfold Util.readMPI, JS.get_int.
  rewrite get_0_cons. change 1 with (0 + 1) at 1.
  rewrite get_succ_cons, get_0_cons by lia. simpl default.
  rewrite !to_int32_small by lia.
  rewrite lor_shiftl_8 by lia.
  rewrite to_uint32_small by lia.
  rewrite Z.shiftr_div_pow2 by lia. change (2 ^ 3) with 8.
  fold (Util.ceil_div8 (256 * hi + lo)).
  pose proof (len_nonneg payload) as Hp.
  unfold JS.subarray. rewrite !len_cons. unfold JS.clamp_index.
  replace (2 <? 0) with false by lia.
  replace (2 + Util.ceil_div8 (256 * hi + lo) <? 0) with false by lia.
  rewrite (Z.min_l 2) by lia.
  rewrite (Z.min_r (2 + Util.ceil_div8 (256 * hi + lo))) by lia.
  change (Z.to_nat 2) with 2%nat. simpl drop. rewrite drop_0.
  apply take_ge. unfold JS.len in *. lia.
Qed.

Lemma readMPI_truncated_witness :
  Util.readMPI [1; 0; 170; 187] = [170; 187].
Proof.
  apply (readMPI_truncated 1 0 [170; 187]).
  - repeat constructor; lia.
  - vm_compute. discriminate.
Defined.

(** * Byte arrays *)

Section ByteFacts.
Import JS.

(** A decidable property of bytes holds of all of them once it is
    checked on the 256 of them. *)
Lemma forall_bytes (P : Z -> bool) :
  forallb (fun n => P (Z.of_nat n)) (seq 0 256) = true ->
  forall x, 0 <= x < 256 -> P x = true.
Proof.
  intros Hall x Hx. rewrite forallb_forall in Hall.
  specialize (Hall (Z.to_nat x)). rewrite Z2Nat.id in Hall by lia.
  apply Hall, in_seq. lia.
Qed.

Lemma get_int_ge a i : len a <= i -> get_int a i = 0.
Proof.
  intros H. unfold get_int, get. pose proof (len_nonneg a).
  replace (i <? 0) with false by lia.
  rewrite lookup_ge_None_2; [reflexivity|]. unfold len in *. lia.
Qed.

Lemma get_int_neg a i : i < 0 -> get_int a i = 0.
Proof.
  intros H. unfold get_int, get. by replace (i <? 0) with true by lia.
Qed.

Lemma get_int_app_l a b i : i < len a -> get_int (a ++ b) i = get_int a i.
Proof.
  intros H. destruct (Z.ltb_spec i 0) as [Hn|Hn].
  - by rewrite !get_int_neg.
  - unfold get_int. by rewrite get_app_l.
Qed.

Lemma get_int_middle a x b : get_int (a ++ x :: b) (len a) = x.
Proof.
  unfold get_int, get. pose proof (len_nonneg a).
  replace (len a <? 0) with false by lia.
  unfold len. rewrite Nat2Z.id.
  rewrite lookup_app_r by lia. by rewrite Nat.sub_diag.
Qed.

Lemma get_int_cons_succ x a i : 0 <= i -> get_int (x :: a) (i + 1) = get_int a i.
Proof. intros H. unfold get_int. by rewrite get_succ_cons. Qed.

Lemma get_int_bytes a i : bytes_ok a -> 0 <= get_int a i < 256.
Proof.
  intros Hok. unfold get_int, get.
  destruct (i <? 0); simpl; [lia|].
  destruct (a !! Z.to_nat i) as [x|] eqn:E; simpl; [|lia].
  unfold bytes_ok in Hok. rewrite Forall_lookup in Hok. by apply (Hok _ _ E).
Qed.

(** Reading every index of an array, and some more. *)
Lemma map_get_int a n : len a <= n ->
  map (get_int a) (seqZ 0 n) = a ++ replicate (Z.to_nat (n - len a)) 0.
Proof.
  intros Hn. pose proof (len_nonneg a) as Ha.
  replace n with (len a + (n - len a)) at 1 by lia.
  rewrite seqZ_app, map_app by lia. f_equal.
  - clear n Hn Ha. induction a as [|x a IH] using rev_ind; [reflexivity|].
    rewrite len_app. change (len [x]) with 1.
    rewrite seqZ_app by (pose proof (len_nonneg a); lia). rewrite map_app.
    f_equal.
    + transitivity (map (get_int a) (seqZ 0 (len a))); [|exact IH].
      apply map_ext_in. intros j Hj.
      apply list_elem_of_In, elem_of_seqZ in Hj.
      apply get_int_app_l. lia.
    + replace (seqZ (0 + len a) 1) with [len a]
        by (unfold seqZ; simpl; f_equal; lia).
      simpl. by rewrite get_int_middle.
  - rewrite <- (length_seqZ (0 + len a) (n - len a)).
    apply (const_fmap (get_int a)). intros i x Hx.
    apply lookup_seqZ in Hx as [-> _]. apply get_int_ge. lia.
Qed.

(** [subarray] with a start and an end in order. *)
Lemma subarray_clamp a b e : 0 <= b <= e ->
  subarray a b e = take (Z.to_nat (e - b)) (drop (Z.to_nat b) a).
Proof.
  intros H. unfold subarray, clamp_index. pose proof (len_nonneg a) as Hl.
  replace (b <? 0) with false by lia. replace (e <? 0) with false by lia.
  destruct (Z.le_gt_cases b (len a)) as [Hb|Hb].
  - rewrite (Z.min_l b) by lia.
    destruct (Z.le_gt_cases e (len a)) as [He|He].
    + by rewrite Z.min_l by lia.
    + rewrite Z.min_r by lia.
      rewrite !take_ge; [reflexivity| |]; rewrite length_drop; unfold len in *; lia.
  - rewrite !drop_ge by (unfold len in *; lia). by rewrite !take_nil.
Qed.

(** A loop that stores [f i] at index [i], some of the array lying
    beyond its range. *)
Lemma for_up_fill_app (f : Z -> Z) k : forall i done todo rest,
  len done = i -> length todo = k ->
  for_up k i (fun i b => put b i (f i)) (done ++ todo ++ rest)
  = done ++ map (fun j => u8 (f j)) (seqZ i (Z.of_nat k)) ++ rest.
Proof.
  induction k as [|k IH]; intros i done todo rest Hi Hk.
  - destruct todo; [|done]. reflexivity.
  - destruct todo as [|x todo]; [done|]. simpl for_up.
    rewrite <- Hi. simpl app. rewrite put_middle.
    replace (done ++ u8 (f (len done)) :: todo ++ rest)
      with ((done ++ [u8 (f (len done))]) ++ todo ++ rest)
      by (by rewrite <- app_assoc).
    rewrite IH; [|by rewrite len_app|simpl in Hk; lia].
    rewrite (seqZ_cons (len done) (Z.of_nat (S k))) by lia.
    replace (Z.pred (Z.of_nat (S k))) with (Z.of_nat k) by lia.
    unfold Z.succ. rewrite <- app_assoc. reflexivity.
Qed.

(** A loop that counts the indices below a bound. *)
Lemma for_up_count L k : forall i e, 0 <= i ->
  for_up k i (fun i e => e + Z.b2z (i <? L)) e
  = e + Z.max 0 (Z.min (i + Z.of_nat k) L - i).
Proof.
  induction k as [|k IH]; intros i e Hi; simpl for_up.
  - lia.
  - rewrite IH by lia. destruct (Z.ltb_spec i L); simpl Z.b2z; lia.
Qed.

End ByteFacts.

(** X10. [leftPad] puts zero bytes in front of the array up to the length
    asked for, which leaves the big-endian number unchanged; it throws
    when the array is longer than that length. *)
Theorem leftPad_pads (bytes : list Z) (length : Z) :
  (JS.len bytes <= length ->
     exists padded,
       Util.leftPad bytes length = Ok padded /\
       padded = replicate (Z.to_nat (length - JS.len bytes)) 0 ++ bytes /\
       JS.len padded = length /\
       Spec.big_endian padded = Spec.big_endian bytes) /\
  (length < JS.len bytes ->
     exists msg, Util.leftPad bytes length = Throw msg).
Proof.
  pose proof (len_nonneg bytes) as Hb. unfold Util.leftPad, JS.new_Uint8Array.
  split; intros Hlen.
  - replace (length <? 0) with false by lia. simpl bind.
    eexists. split; [|split; [reflexivity|]].
    + set (k := Z.to_nat (length - JS.len bytes)).
      assert (Hk : length - JS.len bytes = JS.len (replicate k 0))
        by (unfold JS.len in *; rewrite length_replicate; lia).
      unfold JS.zeros.
      replace (Z.to_nat length) with (k + Datatypes.length bytes)%nat
        by (unfold JS.len in *; lia).
      rewrite replicate_add, Hk.
      rewrite set_at_end
        by (unfold JS.len; rewrite length_replicate; lia).
      simpl bind. rewrite drop_replicate, Nat.sub_diag. simpl.
      by rewrite app_nil_r.
    + split; [|apply big_endian_zeros].
      rewrite len_app. unfold JS.len at 1. rewrite length_replicate. lia.
  - destruct (length <? 0) eqn:E; simpl bind; [by eexists|].
    unfold JS.set. pose proof (len_nonneg (JS.zeros length)).
    replace (length - JS.len bytes <? 0) with true by lia.
    simpl. by eexists.
Qed.

Lemma leftPad_pads_witness :
  (exists padded,
     Util.leftPad [1; 2] 4 = Ok padded /\
     padded = replicate (Z.to_nat (4 - JS.len [1; 2])) 0 ++ [1; 2] /\
     JS.len padded = 4 /\
     Spec.big_endian padded = Spec.big_endian [1; 2]) /\
  (exists msg, Util.leftPad [1; 2; 3] 2 = Throw msg).
Proof.
  split.
  - apply (leftPad_pads [1; 2] 4). vm_compute. discriminate.
  - apply (leftPad_pads [1; 2; 3] 2). reflexivity.
Defined.

(** X11. [equalsUint8Array] returns [true] on equal arrays and on no
    others. *)
Theorem equalsUint8Array_decides (array1 array2 : list Z) :
  Util.equalsUint8Array array1 array2 = true <-> array1 = array2.
Proof. apply equalsUint8Array_true. Qed.

Section SelectFacts.
Import JS Util.

Lemma band_256_byte x : 0 <= x < 256 -> band x 256 = 0.
Proof.
  intros Hx. apply Z.eqb_eq.
  apply (forall_bytes (fun x => band x 256 =? 0)); [|done].
  vm_compute. reflexivity.
Qed.

Lemma bor_0_r x : - 2 ^ 31 <= x < 2 ^ 31 -> bor x 0 = x.
Proof. intros H. unfold bor. rewrite to_int32_small by done. apply Z.lor_0_r. Qed.

Lemma bor_0_l x : - 2 ^ 31 <= x < 2 ^ 31 -> bor 0 x = x.
Proof. intros H. unfold bor. rewrite (to_int32_small x) by done. apply Z.lor_0_l. Qed.

(** The constant-time choice between two bytes. *)
Lemma select_byte (cond : bool) x y :
  0 <= x < 256 -> 0 <= y < 256 ->
  bor (band x (256 - Z.b2z cond)) (band y (255 + Z.b2z cond))
  = if cond then x else y.
Proof.
  intros Hx Hy. destruct cond; simpl Z.b2z.
  - change (256 - 1) with 255. change (255 + 1) with 256.
    rewrite band_255, band_256_byte, Z.mod_small by done.
    apply bor_0_r. lia.
  - change (256 - 0) with 256. change (255 + 0) with 255.
    rewrite band_255, band_256_byte, Z.mod_small by done.
    apply bor_0_l. lia.
Qed.

(** The increment of [end]. *)
Lemma select_count (cond : bool) (s t : bool) :
  bor (band (Z.b2z cond) (Z.b2z s)) (band (1 - Z.b2z cond) (Z.b2z t))
  = Z.b2z (if cond then s else t).
Proof. by destruct cond, s, t. Qed.

Lemma selectUint8Array_chosen (cond : bool) a b :
  bytes_ok a -> bytes_ok b ->
  selectUint8Array cond a b = if cond then a else b.
Proof.
  intros Ha Hb. unfold selectUint8Array.
  set (n := Z.max (len a) (len b)).
  set (c := if cond then a else b).
  assert (Hn : 0 <= n) by (pose proof (len_nonneg a); lia).
  assert (Hzn : len (zeros n) = n)
    by (unfold len, zeros; rewrite length_replicate; lia).
  assert (Hc : len c <= n) by (subst c n; destruct cond; lia).
  rewrite Hzn.
  pose proof (for_up_pair
    (fun i (r : list Z) =>
       put r i (bor (band (get_int a i) (256 - Z.b2z cond))
                    (band (get_int b i) (255 + Z.b2z cond))))
    (fun i (e : Z) =>
       e + bor (band (Z.b2z cond) (Z.b2z (i <? len a)))
               (band (1 - Z.b2z cond) (Z.b2z (i <? len b))))
    (Z.to_nat n) 0 (zeros n) 0) as Hpair.
  cbv beta in Hpair. rewrite Hpair. clear Hpair. cbn [fst snd].
  rewrite for_up_fill_zeros by done.
  rewrite (for_up_ext _ (fun i e => e + Z.b2z (i <? len c))).
  2:{ intros j e _. rewrite select_count. subst c. by destruct cond. }
  rewrite for_up_count by lia. rewrite Z2Nat.id by done.
  rewrite (map_ext _ (get_int c)).
  2:{ intros j. rewrite select_byte by (by apply get_int_bytes).
      unfold u8. subst c.
      destruct cond; apply Z.mod_small; by apply get_int_bytes. }
  rewrite map_get_int by done.
  pose proof (len_nonneg c) as Hc0.
  replace (0 + Z.max 0 (Z.min (0 + n) (len c) - 0)) with (len c) by lia.
  rewrite subarray_take_drop.
  - change (Z.to_nat 0) with O. rewrite drop_0.
    replace (Z.to_nat (len c - 0)) with (length c) by (unfold len; lia).
    apply take_app_length.
  - lia.
  - rewrite len_app. pose proof (len_nonneg (replicate (Z.to_nat (n - len c)) 0)). lia.
Qed.

End SelectFacts.

(** X12. [selectUint8Array] returns [a] when [cond] is true and [b]
    otherwise, whatever the lengths of the two arrays; [selectUint8] does
    the same on two bytes. *)
Theorem select_chooses (cond : bool) (a b : list Z) (x y : Z) :
  JS.bytes_ok a -> JS.bytes_ok b -> 0 <= x < 256 -> 0 <= y < 256 ->
  Util.selectUint8Array cond a b = (if cond then a else b) /\
  Util.selectUint8 cond x y = (if cond then x else y).
Proof.
  intros Ha Hb Hx Hy. split.
  - by apply selectUint8Array_chosen.
  - unfold Util.selectUint8. by apply select_byte.
Qed.

Lemma select_chooses_witness :
  Util.selectUint8Array true [1; 2; 3] [9] = [1; 2; 3] /\
  Util.selectUint8 true 7 200 = 7.
Proof.
  apply (select_chooses true [1; 2; 3] [9] 7 200);
    try (repeat constructor; lia); lia.
Defined.

(** * Doubling and shifting *)

Section DoubleFacts.
Import JS Util Spec.

Lemma lxor_mod_pow2 a b n : 0 <= n ->
  Z.lxor a b mod 2 ^ n = Z.lxor (a mod 2 ^ n) (b mod 2 ^ n).
Proof.
  intros Hn. apply Z.bits_inj'. intros k Hk.
  rewrite Z.lxor_spec, !Z.testbit_mod_pow2, Z.lxor_spec by done.
  by destruct (k <? n).
Qed.

(** An exclusive or with a byte changes the low byte only. *)
Lemma lxor_low A z m : 0 <= z < 256 -> 0 <= m < 256 ->
  Z.lxor (256 * A + z) m = 256 * A + Z.lxor z m.
Proof.
  intros Hz Hm. set (N := 256 * A + z).
  assert (Hdiv : N / 256 = A)
    by (symmetry; apply (Z.div_unique _ 256 _ z); subst N; lia).
  assert (Hmod : N mod 256 = z)
    by (symmetry; apply (Z.mod_unique _ 256 A z); subst N; lia).
  rewrite (Z.div_mod (Z.lxor N m) 256) by lia. f_equal.
  - f_equal. change 256 with (2 ^ 8).
    rewrite <- !Z.shiftr_div_pow2 by lia. rewrite Z.shiftr_lxor.
    rewrite !Z.shiftr_div_pow2 by lia. change (2 ^ 8) with 256.
    rewrite Hdiv, (Z.div_small m) by lia. apply Z.lxor_0_r.
  - change 256 with (2 ^ 8). rewrite lxor_mod_pow2 by lia.
    change (2 ^ 8) with 256. rewrite Hmod. by rewrite (Z.mod_small m).
Qed.

(** Numbers with no common bit: the disjunction is the sum. *)
Lemma land_disjoint a b k : 0 <= k -> 0 <= a < 2 ^ k ->
  Z.land a (b * 2 ^ k) = 0.
Proof.
  intros Hk Ha. apply Z.bits_inj'. intros i Hi.
  rewrite Z.land_spec, Z.bits_0.
  destruct (Z.ltb_spec i k) as [Hlt|Hge].
  - rewrite Z.mul_pow2_bits_low by done. apply andb_false_r.
  - rewrite <- (Z.mod_small a (2 ^ k)) by done.
    rewrite Z.mod_pow2_bits_high by lia. reflexivity.
Qed.

Lemma lor_disjoint a b k : 0 <= k -> 0 <= a < 2 ^ k ->
  Z.lor a (b * 2 ^ k) = a + b * 2 ^ k.
Proof.
  intros Hk Ha. symmetry. apply Z.add_nocarry_lor. by apply land_disjoint.
Qed.

Lemma sar_byte_small x s : 0 <= x < 256 -> 0 <= s < 32 ->
  sar x s = x / 2 ^ s.
Proof.
  intros Hx Hs. rewrite sar_div by done. by rewrite to_int32_small by lia.
Qed.

Lemma shl_byte_small y s : 0 <= y < 256 -> 0 <= s <= 8 ->
  shl y s = y * 2 ^ s.
Proof.
  intros Hy Hs. unfold shl, to_uint32.
  rewrite (Z.mod_small s) by lia. rewrite (Z.mod_small s) by lia.
  rewrite (to_int32_small y) by lia. rewrite Z.shiftl_mul_pow2 by lia.
  apply to_int32_small.
  assert (0 < 2 ^ s <= 2 ^ 8) by (split; [lia|apply Z.pow_le_mono_r; lia]).
  change (2 ^ 8) with 256 in *. nia.
Qed.

Lemma top_bit y : 0 <= y < 256 -> 0 <= y / 128 < 2.
Proof.
  intros Hy. split; [apply Z.div_pos; lia|apply Z.div_lt_upper_bound; lia].
Qed.

(** The two byte computations of [double]. *)
Lemma double_byte x y : 0 <= x < 256 -> 0 <= y < 256 ->
  u8 (bxor (shl x 1) (sar y 7)) = (2 * x + y / 128) mod 256.
Proof.
  intros Hx Hy. pose proof (top_bit y Hy) as Hc.
  rewrite shl_byte_small, sar_byte_small by lia.
  change (2 ^ 1) with 2. change (2 ^ 7) with 128.
  unfold bxor, u8. rewrite !to_int32_small by lia.
  rewrite Z.lxor_comm. change 2 with (2 ^ 1) at 1.
  rewrite Z.lxor_lor by (apply land_disjoint; lia).
  rewrite lor_disjoint by lia. f_equal. change (2 ^ 1) with 2. lia.
Qed.

Lemma double_last_byte x y : 0 <= x < 256 -> 0 <= y < 256 ->
  u8 (bxor (shl x 1) (sar y 7 * 135))
  = Z.lxor ((2 * x) mod 256) (135 * (y / 128)).
Proof.
  intros Hx Hy. pose proof (top_bit y Hy) as Hc.
  rewrite shl_byte_small, sar_byte_small by lia.
  change (2 ^ 1) with 2. change (2 ^ 7) with 128.
  unfold bxor, u8. rewrite !to_int32_small by lia.
  change 256 with (2 ^ 8). rewrite lxor_mod_pow2 by lia.
  change (2 ^ 8) with 256.
  rewrite (Z.mod_small (y / 128 * 135)) by lia.
  f_equal; [f_equal|]; lia.
Qed.

(** The bit that doubling shifts out is the top bit of the first
    byte. *)
Lemma carry_out d : bytes_ok d ->
  get_int d 0 / 128 = (2 * big_endian d) / 256 ^ len d.
Proof.
  intros Hok. destruct d as [|x d]; [reflexivity|].
  apply bytes_ok_cons in Hok as [Hx Hd].
  unfold get_int. rewrite get_0_cons. simpl default.
  rewrite big_endian_cons, len_cons.
  pose proof (big_endian_range d Hd) as Hv. pose proof (len_nonneg d) as Hl.
  rewrite Z.pow_add_r by lia. change (256 ^ 1) with 256.
  set (M := 256 ^ len d) in *.
  pose proof (Z.div_mod x 128 ltac:(lia)) as Hq.
  pose proof (Z.mod_pos_bound x 128 ltac:(lia)) as Hr.
  apply (Z.div_unique _ _ _ (2 * (x mod 128) * M + 2 * big_endian d)); nia.
Qed.

(** The bytes of a string shifted left by one bit hold twice its number,
    without the bit shifted out. *)
Lemma shift_left_value d : bytes_ok d ->
  big_endian (map (fun j => (2 * get_int d j + get_int d (j + 1) / 128) mod 256)
                  (seqZ 0 (len d)))
  = (2 * big_endian d) mod 256 ^ len d.
Proof.
  induction d as [|x d IH]; intros Hok; [reflexivity|].
  apply bytes_ok_cons in Hok as [Hx Hd]. specialize (IH Hd).
  pose proof (len_nonneg d) as Hl.
  rewrite len_cons. rewrite (seqZ_cons 0) by lia.
  replace (Z.pred (1 + len d)) with (len d) by lia.
  change (Z.succ 0) with (1 + 0). rewrite <- fmap_add_seqZ.
  cbn [map]. change (fmap (Z.add 1) (seqZ 0 (len d)))
    with (map (Z.add 1) (seqZ 0 (len d))).
  rewrite map_map.
  rewrite (map_ext_in _
    (fun j => (2 * get_int d j + get_int d (j + 1) / 128) mod 256)).
  2:{ intros j Hj. apply list_elem_of_In, elem_of_seqZ in Hj.
      replace (1 + j) with (j + 1) by lia.
      rewrite !get_int_cons_succ by lia. reflexivity. }
  rewrite big_endian_cons, IH.
  replace (len (map _ (seqZ 0 (len d)))) with (len d)
    by (unfold len at 2; rewrite length_map, length_seqZ; lia).
  change (0 + 1) with (0 + 1). rewrite (get_int_cons_succ x d 0) by lia.
  unfold get_int at 1. rewrite get_0_cons. simpl default.
  rewrite (carry_out d Hd), (big_endian_cons x d).
  rewrite Z.pow_add_r by lia. change (256 ^ 1) with 256.
  set (M := 256 ^ len d). set (v := big_endian d).
  assert (HM : 0 < M) by (subst M; lia).
  rewrite (Z.mul_comm 256 M), Z.rem_mul_r by lia.
  replace (2 * (x * M + v)) with (2 * x * M + 2 * v) by lia.
  rewrite Z.div_add_l by lia.
  rewrite (Z.add_comm (2 * x * M)), Z.mod_add by lia. lia.
Qed.

Lemma double_bytes d x : 
  double (d ++ [x])
  = map (fun j => u8 (bxor (shl (get_int (d ++ [x]) j) 1)
                           (sar (get_int (d ++ [x]) (j + 1)) 7)))
        (seqZ 0 (len d))
    ++ [u8 (bxor (shl x 1) (sar (get_int (d ++ [x]) 0) 7 * 135))].
Proof.
  unfold double. rewrite len_app. change (len [x]) with 1.
  pose proof (len_nonneg d) as Hl.
  replace (len d + 1 - 1) with (len d) by lia.
  unfold zeros. replace (Z.to_nat (len d + 1)) with (length d + 1)%nat
    by (unfold len; lia).
  rewrite replicate_add. change (replicate 1 0) with [0].
  pose proof (for_up_fill_app
    (fun i => bxor (shl (get_int (d ++ [x]) i) 1)
                   (sar (get_int (d ++ [x]) (i + 1)) 7))
    (Z.to_nat (len d)) 0 [] (replicate (length d) 0) [0]) as Hfill.
  simpl app in Hfill. rewrite Hfill; clear Hfill.
  - rewrite Z2Nat.id by done.
    set (l := map _ _).
    replace (len d) with (len l) at 1
      by (subst l; unfold len; rewrite length_map, length_seqZ; unfold len; lia).
    rewrite put_middle. by rewrite get_int_middle.
  - reflexivity.
  - rewrite length_replicate. unfold len. lia.
Qed.

Lemma double_value data :
  bytes_ok data -> data <> [] ->
  big_endian (double data)
  = Z.lxor ((2 * big_endian data) mod 256 ^ len data)
           (135 * ((2 * big_endian data) / 256 ^ len data)).
Proof.
  intros Hok Hne.
  destruct data as [|x d _] using rev_ind; [done|]. clear Hne.
  pose proof (len_nonneg d) as Hl.
  rewrite <- (shift_left_value (d ++ [x])) by done.
  rewrite <- carry_out by done.
  rewrite double_bytes. rewrite len_app. change (len [x]) with 1.
  rewrite seqZ_app by lia. rewrite map_app.
  replace (seqZ (0 + len d) 1) with [len d]
    by (unfold seqZ; simpl; f_equal; lia).
  cbn [map]. rewrite get_int_middle.
  rewrite (get_int_ge (d ++ [x]) (len d + 1))
    by (rewrite len_app; change (len [x]) with 1; lia).
  change (0 / 128) with 0. rewrite Z.add_0_r.
  pose proof Hok as Hall.
  apply bytes_ok_app in Hok as [Hd Hx]. apply bytes_ok_cons in Hx as [Hx _].
  assert (Hd0 : 0 <= get_int (d ++ [x]) 0 < 256) by (by apply get_int_bytes).
  rewrite double_last_byte by done.
  rewrite (map_ext_in _
    (fun j => (2 * get_int (d ++ [x]) j + get_int (d ++ [x]) (j + 1) / 128) mod 256)).
  2:{ intros j Hj. apply double_byte; by apply get_int_bytes. }
  rewrite !big_endian_snoc.
  rewrite (Z.mul_comm _ 256).
  apply eq_sym, lxor_low.
  - apply Z.mod_pos_bound. lia.
  - assert (0 <= get_int (d ++ [x]) 0 / 128 <= 1).
    { split; [apply Z.div_pos; lia|].
      apply Z.lt_succ_r, Z.div_lt_upper_bound; lia. }
    lia.
Qed.

End DoubleFacts.

Section ShiftFacts.
Import JS Util Spec.

(** The byte computations of [shiftRight]. *)
Lemma shift_byte bits x y :
  0 < bits < 8 -> 0 <= x < 256 -> 0 <= y < 256 ->
  u8 (sar x bits) = x / 2 ^ bits /\
  u8 (bor (u8 (sar x bits)) (shl y (8 - bits)))
  = x / 2 ^ bits + (y mod 2 ^ bits) * 2 ^ (8 - bits).
Proof.
  intros Hb Hx Hy.
  assert (H256 : 256 = 2 ^ (8 - bits) * 2 ^ bits)
    by (rewrite <- Z.pow_add_r by lia; by replace (8 - bits + bits) with 8 by lia).
  assert (Hp : 0 < 2 ^ bits) by lia.
  assert (Hk : 0 < 2 ^ (8 - bits)) by lia.
  assert (Ha : 0 <= x / 2 ^ bits < 2 ^ (8 - bits)).
  { split; [apply Z.div_pos; lia|]. apply Z.div_lt_upper_bound; lia. }
  assert (Hk8 : 2 ^ (8 - bits) <= 256) by nia.
  rewrite sar_byte_small, shl_byte_small by lia.
  rewrite (u8_small (x / 2 ^ bits)) by lia.
  split; [reflexivity|].
  assert (Hy2 : 0 <= y * 2 ^ (8 - bits) < 2 ^ 16).
  { change (2 ^ 16) with (256 * 256). nia. }
  unfold bor, u8. rewrite !to_int32_small by lia.
  rewrite lor_disjoint by lia.
  rewrite H256 at 1. rewrite Z.rem_mul_r by lia.
  rewrite Z.mod_add by lia. rewrite Z.mod_small by lia.
  rewrite Z.div_add by lia. rewrite (Z.div_small (x / 2 ^ bits)) by lia.
  rewrite Z.add_0_l. lia.
Qed.

(** The array that the loop of [shiftRight] leaves. *)
Lemma shiftRight_loop bits : 0 < bits < 8 -> forall pre post,
  bytes_ok pre ->
  for_down (length pre) (len pre - 1)
    (fun i array =>
       let array := put array i (sar (get_int array i) bits) in
       if 0 <? i
       then put array i (bor (get_int array i)
                             (shl (get_int array (i - 1)) (8 - bits)))
       else array)
    (pre ++ post)
  = map (fun j => get_int pre j / 2 ^ bits
                  + (get_int pre (j - 1) mod 2 ^ bits) * 2 ^ (8 - bits))
        (seqZ 0 (len pre)) ++ post.
Proof.
  intros Hb pre. induction pre as [|x pre IH] using rev_ind; intros post Hok.
  - reflexivity.
  - apply bytes_ok_app in Hok as [Hpre Hx]. apply bytes_ok_cons in Hx as [Hx _].
    pose proof (len_nonneg pre) as Hl.
    rewrite length_app. simpl length. rewrite Nat.add_1_r.
    rewrite len_app. change (len [x]) with 1.
    replace (len pre + 1 - 1) with (len pre) by lia.
    simpl for_down. cbv zeta.
    rewrite <- app_assoc. simpl app.
    rewrite get_int_middle, put_middle, get_int_middle.
    assert (Hprev : get_int (pre ++ u8 (sar x bits) :: post) (len pre - 1)
                    = get_int pre (len pre - 1))
      by (apply get_int_app_l; lia).
    assert (Hy : 0 <= get_int pre (len pre - 1) < 256) by (by apply get_int_bytes).
    destruct (shift_byte bits x (get_int pre (len pre - 1)) Hb Hx Hy) as [E1 E2].
    assert (Hnew : (if 0 <? len pre
             then put (pre ++ u8 (sar x bits) :: post) (len pre)
                    (bor (u8 (sar x bits))
                         (shl (get_int (pre ++ u8 (sar x bits) :: post)
                                       (len pre - 1)) (8 - bits)))
             else pre ++ u8 (sar x bits) :: post)
            = pre ++ (x / 2 ^ bits
                      + (get_int pre (len pre - 1) mod 2 ^ bits) * 2 ^ (8 - bits))
                    :: post).
    { destruct (Z.ltb_spec 0 (len pre)) as [Hpos|Hz].
      - rewrite put_middle, Hprev, E2. reflexivity.
      - assert (pre = []) as -> by (destruct pre; [done|rewrite len_cons in Hz; pose proof (len_nonneg pre); lia]).
        simpl. rewrite E1. change (len [] - 1) with (-1).
        rewrite get_int_neg by lia. rewrite Z.mod_0_l by lia. f_equal. lia. }
    rewrite Hnew. rewrite IH by done.
    rewrite seqZ_app by lia. rewrite map_app, <- app_assoc.
    replace (seqZ (0 + len pre) 1) with [len pre]
      by (unfold seqZ; simpl; f_equal; lia).
    cbn [map app]. rewrite get_int_middle.
    rewrite (get_int_app_l pre [x] (len pre - 1)) by lia.
    f_equal. apply map_ext_in. intros j Hj.
    apply list_elem_of_In, elem_of_seqZ in Hj.
    rewrite !get_int_app_l by lia. reflexivity.
Qed.

Lemma last_byte_mod l bits : 0 < bits < 8 ->
  get_int l (len l - 1) mod 2 ^ bits = big_endian l mod 2 ^ bits.
Proof.
  intros Hb. destruct l as [|y l _] using rev_ind; [reflexivity|].
  rewrite len_app. change (len [y]) with 1.
  replace (len l + 1 - 1) with (len l) by lia.
  rewrite get_int_middle, big_endian_snoc.
  replace 256 with (2 ^ (8 - bits) * 2 ^ bits)
    by (rewrite <- Z.pow_add_r by lia; by replace (8 - bits + bits) with 8 by lia).
  rewrite Z.mul_assoc, Z.add_comm, Z.mod_add by lia. reflexivity.
Qed.

Lemma shift_right_value bits : 0 < bits < 8 -> forall l,
  big_endian (map (fun j => get_int l j / 2 ^ bits
                            + (get_int l (j - 1) mod 2 ^ bits) * 2 ^ (8 - bits))
                  (seqZ 0 (len l)))
  = big_endian l / 2 ^ bits.
Proof.
  intros Hb l. induction l as [|x l IH] using rev_ind; [reflexivity|].
  pose proof (len_nonneg l) as Hl.
  rewrite len_app. change (len [x]) with 1.
  rewrite seqZ_app by lia. rewrite map_app.
  replace (seqZ (0 + len l) 1) with [len l]
    by (unfold seqZ; simpl; f_equal; lia).
  cbn [map]. rewrite big_endian_snoc, get_int_middle.
  rewrite (get_int_app_l l [x] (len l - 1)) by lia.
  rewrite (map_ext_in _ (fun j => get_int l j / 2 ^ bits
              + (get_int l (j - 1) mod 2 ^ bits) * 2 ^ (8 - bits))).
  2:{ intros j Hj. apply list_elem_of_In, elem_of_seqZ in Hj.
      rewrite !get_int_app_l by lia. reflexivity. }
  rewrite IH, last_byte_mod, big_endian_snoc by done.
  set (v := big_endian l).
  assert (H256 : 256 = 2 ^ (8 - bits) * 2 ^ bits)
    by (rewrite <- Z.pow_add_r by lia; by replace (8 - bits + bits) with 8 by lia).
  assert (Hp : 0 < 2 ^ bits) by lia.
  rewrite H256 at 2. 
  replace (v * (2 ^ (8 - bits) * 2 ^ bits) + x)
    with (v * 2 ^ (8 - bits) * 2 ^ bits + x) by lia.
  rewrite Z.div_add_l by lia.
  pose proof (Z.div_mod v (2 ^ bits) ltac:(lia)) as Hv.
  rewrite H256 at 1. nia.
Qed.

End ShiftFacts.

(** X13. [double] doubles the big-endian number of a non-empty byte
    array: the number is shifted left by one bit within the length of the
    array, and [0x87] is xored in when a bit is shifted out (the doubling
    in GF(2^128) for a block of 16 bytes). *)
Theorem double_doubles (data : list Z) :
  JS.bytes_ok data -> data <> [] ->
  let n := JS.len data in
  let v := Spec.big_endian data in
  JS.len (Util.double data) = n /\
  JS.bytes_ok (Util.double data) /\
  Spec.big_endian (Util.double data)
  = Z.lxor ((2 * v) mod 256 ^ n) (0x87 * ((2 * v) / 256 ^ n)).
Proof.
  intros Hok Hne n v. subst n v. split; [|split].
  - destruct data as [|x d _] using rev_ind; [done|].
    rewrite double_bytes, !len_app. f_equal.
    unfold JS.len. rewrite length_map, length_seqZ. unfold JS.len. lia.
  - destruct data as [|x d _] using rev_ind; [done|].
    rewrite double_bytes. apply bytes_ok_app. split.
    + apply Forall_forall. intros y Hy. apply list_elem_of_In, in_map_iff in Hy as (j & <- & _).
      apply Z.mod_pos_bound. lia.
    + apply bytes_ok_cons. split; [apply Z.mod_pos_bound; lia|constructor].
  - by apply double_value.
Qed.

Lemma double_doubles_witness :
  JS.len (Util.double [128; 0; 1]) = 3 /\
  JS.bytes_ok (Util.double [128; 0; 1]) /\
  Spec.big_endian (Util.double [128; 0; 1])
  = Z.lxor ((2 * 8388609) mod 256 ^ 3) (0x87 * ((2 * 8388609) / 256 ^ 3)).
Proof.
  apply (double_doubles [128; 0; 1]).
  - repeat constructor; lia.
  - discriminate.
Defined.

(** X14. [shiftRight] by less than eight bits divides the big-endian
    number of the array by [2 ^ bits], dropping the bits shifted out; the
    length stays. *)
Theorem shiftRight_divides (array : list Z) (bits : Z) :
  JS.bytes_ok array -> 0 <= bits < 8 ->
  JS.len (Util.shiftRight array bits) = JS.len array /\
  JS.bytes_ok (Util.shiftRight array bits) /\
  Spec.big_endian (Util.shiftRight array bits)
  = Spec.big_endian array / 2 ^ bits.
Proof.
  intros Hok Hb. unfold Util.shiftRight.
  destruct (Z.eq_dec bits 0) as [->|Hnz].
  - change (2 ^ 0) with 1. by rewrite Z.div_1_r.
  - assert (Hb' : 0 < bits < 8) by lia.
    replace (bits =? 0) with false by lia. cbv iota.
    pose proof (shiftRight_loop bits Hb' array [] Hok) as Hloop.
    rewrite !app_nil_r in Hloop. cbv zeta in Hloop. rewrite Hloop.
    split; [|split].
    + unfold JS.len at 1. rewrite length_map, length_seqZ.
      pose proof (len_nonneg array). lia.
    + apply Forall_forall. intros y Hy. apply list_elem_of_In, in_map_iff in Hy as (j & <- & _).
      pose proof (get_int_bytes array j Hok) as H1.
      pose proof (get_int_bytes array (j - 1) Hok) as H2.
      destruct (shift_byte bits _ _ Hb' H1 H2) as [_ E]. rewrite <- E.
      apply Z.mod_pos_bound. lia.
    + by apply shift_right_value.
Qed.

Lemma shiftRight_divides_witness :
  JS.len (Util.shiftRight [1; 255; 6] 3) = JS.len [1; 255; 6] /\
  JS.bytes_ok (Util.shiftRight [1; 255; 6] 3) /\
  Spec.big_endian (Util.shiftRight [1; 255; 6] 3)
  = Spec.big_endian [1; 255; 6] / 2 ^ 3.
Proof.
  apply (shiftRight_divides [1; 255; 6] 3).
  - repeat constructor; lia.
  - lia.
Defined.

(** * Hexadecimal strings *)

Section HexFacts.
Import JS Util.

Lemma fold_left_push {A B} (g : A -> B) l : forall r,
  fold_left (fun r x => r ++ [g x]) l r = r ++ map g l.
Proof.
  induction l as [|x l IH]; intros r; simpl.
  - by rewrite app_nil_r.
  - rewrite IH, <- app_assoc. reflexivity.
Qed.

Lemma uint8ArrayToHex_map bytes :
  uint8ArrayToHex bytes
  = String.concat "" (map (fun b => pad_hex 2 (toString16 b)) bytes).
Proof.
  unfold uint8ArrayToHex. f_equal.
  change 0 with (len []). change bytes with ([] ++ bytes) at 2.
  rewrite (for_up_fold (fun r x => r ++ [pad_hex 2 (toString16 x)]) bytes [] []).
  by rewrite (fold_left_push (fun b => pad_hex 2 (toString16 b))).
Qed.

(** The two characters written for a byte, and what [parseInt] reads
    from them. *)
Lemma hex_byte b : 0 <= b < 256 ->
  exists c1 c2,
    pad_hex 2 (toString16 b) = String c1 (String c2 EmptyString) /\
    parseInt16 (String c1 (String c2 EmptyString)) = Some b.
Proof.
  intros Hb.
  assert (H : match pad_hex 2 (toString16 b) with
              | String c1 (String c2 EmptyString) =>
                  match parseInt16 (String c1 (String c2 EmptyString)) with
                  | Some v => v =? b
                  | None => false
                  end
              | _ => false
              end = true).
  { apply (forall_bytes (fun b =>
      match pad_hex 2 (toString16 b) with
      | String c1 (String c2 EmptyString) =>
          match parseInt16 (String c1 (String c2 EmptyString)) with
          | Some v => v =? b
          | None => false
          end
      | _ => false
      end)); [|done].
    vm_compute. reflexivity. }
  destruct (pad_hex 2 (toString16 b)) as [|c1 [|c2 [|]]]; try discriminate.
  exists c1, c2. split; [reflexivity|].
  destruct (parseInt16 _); [|discriminate].
  f_equal. by apply Z.eqb_eq.
Qed.

Lemma concat_cons2 c1 c2 l :
  String.concat "" (String c1 (String c2 EmptyString) :: l)
  = String c1 (String c2 (String.concat "" l)).
Proof. destruct l; reflexivity. Qed.

Lemma shl_1_small k : 0 <= k < 2 ^ 30 -> shl k 1 = 2 * k.
Proof.
  intros Hk. unfold shl. rewrite (to_int32_small k) by lia.
  change (to_uint32 1 mod 32) with 1.
  rewrite Z.shiftl_mul_pow2 by lia. change (2 ^ 1) with 2.
  rewrite to_int32_small by lia. lia.
Qed.

Lemma hexToUint8Array_map hex :
  Z.of_nat (String.length hex) < 2 ^ 31 ->
  hexToUint8Array hex
  = map (fun k => u8 (default 0
           (parseInt16 (String.substring (Z.to_nat (2 * k)) 2 hex))))
        (seqZ 0 (Z.of_nat (String.length hex) / 2)).
Proof.
  intros Hlen. unfold hexToUint8Array.
  rewrite sar_div, to_int32_small by lia. change (2 ^ 1) with 2.
  assert (Hn : 0 <= Z.of_nat (String.length hex) / 2 < 2 ^ 30).
  { split; [apply Z.div_pos; lia|apply Z.div_lt_upper_bound; lia]. }
  rewrite for_up_fill_zeros by lia.
  apply map_ext_in. intros k Hk. apply list_elem_of_In, elem_of_seqZ in Hk.
  by rewrite shl_1_small by lia.
Qed.

Lemma hexToUint8Array_cons2 c1 c2 s :
  Z.of_nat (String.length s) + 2 < 2 ^ 31 ->
  hexToUint8Array (String c1 (String c2 s))
  = u8 (default 0 (parseInt16 (String c1 (String c2 EmptyString))))
    :: hexToUint8Array s.
Proof.
  intros Hlen. rewrite !hexToUint8Array_map by (simpl String.length; lia).
  simpl String.length.
  replace (Z.of_nat (S (S (String.length s))))
    with (1 * 2 + Z.of_nat (String.length s)) by lia.
  rewrite Z.div_add_l by lia.
  assert (Hn : 0 <= Z.of_nat (String.length s) / 2) by (apply Z.div_pos; lia).
  rewrite (seqZ_cons 0) by lia.
  replace (Z.pred (1 + Z.of_nat (String.length s) / 2))
    with (Z.of_nat (String.length s) / 2) by lia.
  change (Z.succ 0) with (1 + 0). rewrite <- fmap_add_seqZ.
  cbn [map]. f_equal.
  - change (Z.to_nat (2 * 0)) with O. simpl String.substring.
    by destruct s.
  - change (fmap (Z.add 1) (seqZ 0 (Z.of_nat (String.length s) / 2)))
      with (map (Z.add 1) (seqZ 0 (Z.of_nat (String.length s) / 2))).
    rewrite map_map. apply map_ext_in. intros k Hk.
    apply list_elem_of_In, elem_of_seqZ in Hk.
    replace (Z.to_nat (2 * (1 + k))) with (S (S (Z.to_nat (2 * k)))) by lia.
    reflexivity.
Qed.

Lemma hex_round_trip_aux bytes :
  bytes_ok bytes -> len bytes < 2 ^ 30 ->
  Z.of_nat (String.length (uint8ArrayToHex bytes)) = 2 * len bytes /\
  hexToUint8Array (uint8ArrayToHex bytes) = bytes.
Proof.
  rewrite uint8ArrayToHex_map.
  induction bytes as [|b bytes IH]; intros Hok Hlen; [done|].
  apply bytes_ok_cons in Hok as [Hb Hok]. rewrite len_cons in *.
  pose proof (len_nonneg bytes) as Hl.
  destruct (IH Hok ltac:(lia)) as [IH1 IH2].
  destruct (hex_byte b Hb) as (c1 & c2 & E & P).
  cbn [map]. rewrite E, concat_cons2. split.
  - cbn [String.length]. rewrite !Nat2Z.inj_succ, IH1. lia.
  - rewrite hexToUint8Array_cons2 by lia.
    rewrite P, IH2. simpl default. by rewrite u8_small.
Qed.

End HexFacts.

(** X15. A byte array written in hexadecimal and read back is the array
    it was; the string has two characters for every byte. *)
Theorem hex_round_trip (bytes : list Z) :
  JS.bytes_ok bytes -> JS.len bytes < 2 ^ 30 ->
  Z.of_nat (String.length (Util.uint8ArrayToHex bytes)) = 2 * JS.len bytes /\
  Util.hexToUint8Array (Util.uint8ArrayToHex bytes) = bytes.
Proof. apply hex_round_trip_aux. Qed.

Lemma hex_round_trip_witness :
  Z.of_nat (String.length (Util.uint8ArrayToHex [0; 10; 171; 255]))
  = 2 * JS.len [0; 10; 171; 255] /\
  Util.hexToUint8Array (Util.uint8ArrayToHex [0; 10; 171; 255])
  = [0; 10; 171; 255].
Proof.
  apply (hex_round_trip [0; 10; 171; 255]).
  - repeat constructor; lia.
  - reflexivity.
Defined.

(** * Strings of code units *)

Section StringFacts.
Import JS Util.

Lemma bs_value : bs = 16384.
Proof. reflexivity. Qed.

(** The chunks that the loop of [uint8ArrayToString] pushes make up the
    rest of the array. *)
Lemma to_string_loop_spec bytes fuel : forall i result,
  0 <= i -> Z.max 0 (len bytes - i) < Z.of_nat fuel ->
  exists chunks,
    to_string_loop fuel bytes i (len bytes) result = Some (result ++ chunks) /\
    concat chunks = drop (Z.to_nat i) bytes.
Proof.
  induction fuel as [|fuel IH]; intros i result Hi Hfuel; [lia|].
  pose proof (len_nonneg bytes) as Hl.
  simpl to_string_loop. destruct (Z.ltb_spec i (len bytes)) as [Hlt|Hge].
  - rewrite bs_value.
    destruct (IH (i + 16384)
                 (result ++ [subarray bytes i
                    (if i + 16384 <? len bytes then i + 16384 else len bytes)])
                 ltac:(lia) ltac:(lia)) as (chunks & E & C).
    exists (subarray bytes i
              (if i + 16384 <? len bytes then i + 16384 else len bytes)
            :: chunks).
    split; [by rewrite E, <- app_assoc|].
    simpl concat. rewrite C.
    destruct (Z.ltb_spec (i + 16384) (len bytes)) as [Hin|Hout].
    + rewrite subarray_take_drop by lia.
      replace (Z.to_nat (i + 16384)) with (Z.to_nat i + Z.to_nat (i + 16384 - i))%nat
        by lia.
      rewrite <- drop_drop. apply take_drop.
    + rewrite subarray_take_drop by lia.
      rewrite (drop_ge bytes (Z.to_nat (i + 16384))) by (unfold len in *; lia).
      rewrite app_nil_r. apply take_ge. rewrite length_drop. unfold len in *. lia.
  - exists []. split; [by rewrite app_nil_r|].
    symmetry. apply drop_ge. unfold len in *. lia.
Qed.

Lemma uint8ArrayToString_id bytes : uint8ArrayToString bytes = Some bytes.
Proof.
  unfold uint8ArrayToString. pose proof (len_nonneg bytes) as Hl.
  destruct (to_string_loop_spec bytes (S (length bytes)) 0 [])
    as (chunks & E & C); [lia|unfold len in *; lia|].
  rewrite E. simpl. by rewrite C.
Qed.

Lemma stringToUint8Array_map str : stringToUint8Array str = map u8 str.
Proof.
  unfold stringToUint8Array. pose proof (len_nonneg str) as Hl.
  replace (length str) with (Z.to_nat (len str)) by (unfold len; lia).
  rewrite for_up_fill_zeros by done.
  rewrite <- (map_map (get_int str) u8).
  rewrite map_get_int by lia. rewrite Z.sub_diag. simpl.
  by rewrite app_nil_r.
Qed.

Lemma map_u8_bytes bytes : bytes_ok bytes -> map u8 bytes = bytes.
Proof.
  induction 1 as [|b bytes Hb _ IH]; [reflexivity|].
  simpl. by rewrite IH, u8_small.
Qed.

End StringFacts.

(** X16. A byte array turned into a string and back is the array it was,
    the string holding one code unit for every byte whatever the chunks of
    16384 bytes it is built from.  The other way round only the low eight
    bits of every code unit of a string come back. *)
Theorem string_bytes_round_trip (bytes str : list Z) :
  JS.bytes_ok bytes ->
  Util.uint8ArrayToString bytes = Some bytes /\
  Util.stringToUint8Array bytes = bytes /\
  Util.uint8ArrayToString (Util.stringToUint8Array str)
  = Some (map (fun c => c mod 256) str).
Proof.
  intros Hok. split; [apply uint8ArrayToString_id|]. split.
  - rewrite stringToUint8Array_map. by apply map_u8_bytes.
  - rewrite uint8ArrayToString_id. f_equal. apply stringToUint8Array_map.
Qed.

Lemma string_bytes_round_trip_witness :
  Util.uint8ArrayToString [72; 105; 255] = Some [72; 105; 255] /\
  Util.stringToUint8Array [72; 105; 255] = [72; 105; 255] /\
  Util.uint8ArrayToString (Util.stringToUint8Array [72; 8364])
  = Some (map (fun c => c mod 256) [72; 8364]).
Proof.
  apply (string_bytes_round_trip [72; 105; 255] [72; 8364]).
  repeat constructor; lia.
Defined.

(** * Trailing white space *)

Section TrailingFacts.
Import JS Util Aux.

Lemma strip_index_range count line : forall i, -1 <= i ->
  -1 <= strip_index count line i <= i.
Proof.
  induction count as [|count IH]; intros i Hi; simpl; [lia|].
  destruct ((0 <=? i) && is_trailing (get line i)) eqn:E; [|lia].
  apply andb_true_iff in E as [E _]. specialize (IH (i - 1)). lia.
Qed.

(** The scan looks at no character beyond its start. *)
Lemma strip_index_app count line extra : forall i, i < len line ->
  strip_index count (line ++ extra) i = strip_index count line i.
Proof.
  induction count as [|count IH]; intros i Hi; simpl; [reflexivity|].
  destruct (Z.leb_spec 0 i) as [H0|H0]; simpl; [|reflexivity].
  rewrite get_app_l by lia.
  destruct (is_trailing (get line i)); [|reflexivity].
  apply IH. lia.
Qed.

(** Enough iterations: the scan stops at a character that is no white
    space, or before the line. *)
Lemma strip_index_stop count line : forall i,
  -1 <= i < Z.of_nat count ->
  let k := strip_index count line i in
  k = -1 \/ (0 <= k /\ is_trailing (get line k) = false).
Proof.
  induction count as [|count IH]; intros i Hi; simpl; [lia|].
  destruct (Z.leb_spec 0 i) as [H0|H0]; simpl.
  - destruct (is_trailing (get line i)) eqn:E.
    + apply IH. lia.
    + right. by split.
  - left. lia.
Qed.

Lemma strip_line_nil : strip_line [] = [].
Proof. reflexivity. Qed.

Lemma strip_line_snoc line c :
  strip_line (line ++ [c])
  = if trailing c then strip_line line else line ++ [c].
Proof.
  unfold strip_line. cbv zeta. pose proof (len_nonneg line) as Hl.
  rewrite length_app. simpl length. rewrite Nat.add_1_r.
  rewrite len_app. change (len [c]) with 1.
  replace (len line + 1 - 1) with (len line) by lia.
  simpl strip_index.
  replace (0 <=? len line) with true by lia. simpl andb.
  assert (Hget : get (line ++ [c]) (len line) = Some c).
  { unfold get. replace (len line <? 0) with false by lia.
    unfold len. rewrite Nat2Z.id.
    rewrite lookup_app_r by lia. by rewrite Nat.sub_diag. }
  rewrite Hget. unfold is_trailing, is_byte. fold (trailing c).
  destruct (trailing c).
  - destruct (Z.eq_dec (len line) 0) as [Hz|Hnz].
    + assert (line = []) as -> by (destruct line; [done|rewrite len_cons in Hz; pose proof (len_nonneg line); lia]).
      reflexivity.
    + rewrite strip_index_app by lia.
      pose proof (strip_index_range (length line) line (len line - 1) ltac:(lia)).
      apply take_app_le. unfold len in *. lia.
  - apply take_ge. rewrite length_app. simpl. unfold len. lia.
Qed.

Lemma strip_line_idem line : strip_line (strip_line line) = strip_line line.
Proof.
  induction line as [|c line IH] using rev_ind; [reflexivity|].
  rewrite strip_line_snoc. destruct (trailing c) eqn:E; [done|].
  by rewrite strip_line_snoc, E.
Qed.

Lemma strip_line_last line c :
  last (strip_line line) = Some c -> trailing c = false.
Proof.
  induction line as [|x line IH] using rev_ind; [done|].
  rewrite strip_line_snoc. destruct (trailing x) eqn:E; [done|].
  rewrite last_snoc. by intros [= <-].
Qed.

Lemma strip_line_prefix line : exists rest, line = strip_line line ++ rest.
Proof.
  unfold strip_line. cbv zeta. eexists. symmetry. apply take_drop.
Qed.

(** Lines and their joining. *)

Lemma split_lines_cons_line text :
  exists line lines, split_lines text = line :: lines.
Proof.
  destruct text as [|c rest]; simpl; [by eexists _, _|].
  destruct (c =? 10); [by eexists _, _|].
  destruct (split_lines rest); by eexists _, _.
Qed.

Lemma split_lines_no_lf text : Forall no_lf (split_lines text).
Proof.
  induction text as [|c rest IH]; simpl.
  - repeat constructor.
  - destruct (Z.eqb_spec c 10) as [->|Hc].
    + constructor; [constructor|done].
    + destruct (split_lines rest) as [|line lines]; [repeat constructor; done|].
      apply Forall_cons in IH as [H1 H2]. constructor; [|done].
      by constructor.
Qed.

Lemma join_lines_cons line l lines :
  join_lines (line :: l :: lines) = line ++ 10 :: join_lines (l :: lines).
Proof. reflexivity. Qed.

Lemma split_lines_app line rest :
  no_lf line ->
  split_lines (line ++ 10 :: rest) = line :: split_lines rest.
Proof.
  induction 1 as [|c line Hc _ IH]; simpl; [reflexivity|].
  apply Z.eqb_neq in Hc. rewrite Hc, IH. reflexivity.
Qed.

Lemma split_lines_single line : no_lf line -> split_lines line = [line].
Proof.
  induction 1 as [|c line Hc _ IH]; simpl; [reflexivity|].
  apply Z.eqb_neq in Hc. rewrite Hc, IH. reflexivity.
Qed.

Lemma split_join lines :
  lines <> [] -> Forall no_lf lines -> split_lines (join_lines lines) = lines.
Proof.
  induction lines as [|line lines IH]; intros Hne Hok; [done|].
  apply Forall_cons in Hok as [Hline Hok].
  destruct lines as [|l lines].
  - by apply split_lines_single.
  - rewrite join_lines_cons, split_lines_app by done.
    by rewrite IH.
Qed.

Lemma join_split text : join_lines (split_lines text) = text.
Proof.
  induction text as [|c rest IH]; [reflexivity|]. simpl split_lines.
  destruct (split_lines_cons_line rest) as (line & lines & E).
  rewrite E in *. destruct (c =? 10) eqn:Ec.
  - apply Z.eqb_eq in Ec as ->. rewrite join_lines_cons, IH. reflexivity.
  - destruct lines as [|l lines].
    + simpl in *. by rewrite IH.
    + rewrite <- IH, !join_lines_cons. reflexivity.
Qed.

Lemma strip_line_no_lf line : no_lf line -> no_lf (strip_line line).
Proof.
  intros H. destruct (strip_line_prefix line) as [rest E].
  rewrite E in H. by apply Forall_app in H as [H _].
Qed.

Lemma split_removeTrailingSpaces text :
  split_lines (removeTrailingSpaces text) = map strip_line (split_lines text).
Proof.
  unfold removeTrailingSpaces. apply split_join.
  - destruct (split_lines_cons_line text) as (line & lines & ->). done.
  - apply Forall_forall. intros l Hl.
    apply list_elem_of_In, in_map_iff in Hl as (l0 & <- & Hin).
    apply strip_line_no_lf.
    pose proof (split_lines_no_lf text) as Hall.
    rewrite Forall_forall in Hall. apply Hall. by apply list_elem_of_In.
Qed.

End TrailingFacts.

(** X17. [removeTrailingSpaces] keeps the lines of the text and takes
    from each its trailing spaces, tabs and carriage returns: no line of
    the result ends with one of them, a line without them is unchanged, and
    doing it twice changes nothing more. *)
Theorem removeTrailingSpaces_strips (text : list Z) :
  let result := Util.removeTrailingSpaces text in
  length (Util.split_lines result) = length (Util.split_lines text) /\
  Forall (fun line => forall c, last line = Some c ->
                                c <> 32 /\ c <> 9 /\ c <> 13)
         (Util.split_lines result) /\
  (Forall (fun line => forall c, last line = Some c ->
                                 c <> 32 /\ c <> 9 /\ c <> 13)
          (Util.split_lines text) -> result = text) /\
  Util.removeTrailingSpaces result = result.
Proof.
  cbv zeta. rewrite split_removeTrailingSpaces.
  assert (Htr : forall c, Aux.trailing c = false -> c <> 32 /\ c <> 9 /\ c <> 13).
  { intros c H. unfold Aux.trailing in H.
    apply orb_false_iff in H as [H H3]. apply orb_false_iff in H as [H1 H2].
    lia. }
  split; [by rewrite length_map|]. split; [|split].
  - apply Forall_forall. intros l Hl.
    apply list_elem_of_In, in_map_iff in Hl as (l0 & <- & _).
    intros c Hc. apply Htr. by apply (strip_line_last l0).
  - intros Hall. unfold Util.removeTrailingSpaces.
    rewrite <- (join_split text) at 2. f_equal.
    rewrite <- (map_id (Util.split_lines text)) at 2.
    apply map_ext_in. intros l Hl. apply list_elem_of_In in Hl.
    rewrite Forall_forall in Hall. specialize (Hall l Hl).
    destruct l as [|c l _] using rev_ind; [reflexivity|].
    rewrite strip_line_snoc.
    destruct (Hall c ltac:(apply last_snoc)) as (H1 & H2 & H3).
    unfold Aux.trailing.
    replace (c =? 32) with false by lia. replace (c =? 9) with false by lia.
    by replace (c =? 13) with false by lia.
  - unfold Util.removeTrailingSpaces at 1.
    rewrite split_removeTrailingSpaces, map_map.
    unfold Util.removeTrailingSpaces. f_equal.
    apply map_ext. intros l. apply strip_line_idem.
Qed.

(** * More on the enum registry *)

Section EnumsMore.
Import Enums Aux.

(** The reverse table maps a value to the last of its names. *)
Lemma build_rev_last before : forall name v after,
  (forall k, ~ In (k, v) after) ->
  get_rev (build_rev (before ++ (name, v) :: after)) v = Some name.
Proof.
  induction before as [|[k0 v0] before IH]; intros name v after Hafter.
  - simpl app. rewrite build_rev_cons, build_rev_none by done.
    by rewrite value_eqb_refl.
  - simpl app. rewrite build_rev_cons. by rewrite IH.
Qed.

Lemma get_prop_sound p : forall k v, get_prop p k = Some v -> In (k, v) p.
Proof.
  induction p as [|[k0 v0] p IH]; intros k v; simpl; [discriminate|].
  destruct (String.eqb k0 k) eqn:E.
  - apply String.eqb_eq in E as ->. intros [= ->]. by left.
  - intros H. right. by apply IH.
Qed.

Lemma occurs_false v p : occurs v p = false -> forall k, ~ In (k, v) p.
Proof.
  unfold occurs. intros H k Hin.
  assert (Hex : existsb (fun kv => value_eqb (snd kv) v) p = true).
  { apply existsb_exists. exists (k, v). split; [done|]. apply value_eqb_refl. }
  congruence.
Qed.

(** In a table without repeated values, an entry is the last one of its
    value. *)
Lemma values_distinct_split p : forall k v,
  values_distinct p = true -> In (k, v) p ->
  exists before after,
    p = before ++ (k, v) :: after /\ forall k', ~ In (k', v) after.
Proof.
  induction p as [|[k0 v0] p IH]; intros k v Hd Hin; [destruct Hin|].
  simpl in Hd. apply andb_true_iff in Hd as [Hocc Hd].
  apply negb_true_iff in Hocc.
  destruct Hin as [[= -> ->]|Hin].
  - exists [], p. split; [reflexivity|]. by apply occurs_false.
  - destruct (IH k v Hd Hin) as (before & after & -> & Hafter).
    by exists ((k0, v0) :: before), after.
Qed.

Lemma read_last (t : enum_type) before after name v :
  cache_ok t ->
  entries t = before ++ (name, v) :: after ->
  (forall k, ~ In (k, v) after) ->
  fst (read t v) = Ok name.
Proof.
  intros Hc He Hafter. rewrite read_table by done.
  rewrite He, build_rev_last by done. reflexivity.
Qed.

End EnumsMore.



(** X19. In every table but [curve] and [publicKey] no two names share a
    value, so a name written to its value is read back: [write] on the
    name gives the value and [read] on that value gives the name. *)
Theorem enum_name_round_trip (p : Enums.props) (name : string) (v : Enums.value) :
  In p Enums.tables -> p <> Enums.curve -> p <> Enums.publicKey ->
  Enums.get_prop p name = Some v ->
  fst (Enums.write (Enums.fresh p) (Enums.VStr name)) = Ok v /\
  fst (Enums.read (Enums.fresh p) v) = Ok name.
Proof.
  intros Hin Hc Hp Hget.
  assert (Hd : Aux.values_distinct p = true).
  { unfold Enums.tables in Hin. simpl in Hin.
    repeat (destruct Hin as [<-|Hin]; [first [done | vm_compute; reflexivity]|]).
    destruct Hin. }
  split.
  - simpl. by rewrite (get_member_own _ _ _ Hget).
  - apply get_prop_sound in Hget.
    destruct (values_distinct_split p name v Hd Hget) as (before & after & E & Ha).
    apply (read_last (Enums.fresh p) before after); [by left|done|done].
Qed.

Lemma enum_name_round_trip_witness :
  fst (Enums.write (Enums.fresh Enums.symmetric) (Enums.VStr "aes256"))
  = Ok (Enums.VNum 9) /\
  fst (Enums.read (Enums.fresh Enums.symmetric) (Enums.VNum 9)) = Ok "aes256".
Proof.
  apply (enum_name_round_trip Enums.symmetric "aes256" (Enums.VNum 9)).
  - vm_compute. tauto.
  - discriminate.
  - discriminate.
  - reflexivity.
Defined.

(** * Elliptic curves *)

(** X20. Without parameters of its own, [CurveWithOID] succeeds exactly
    on the names and OID strings that are keys of [enums.curve].  For each
    of them the value of the key is a curve name that is no property of
    [Object.prototype], the table [curves] has the parameters of that
    name, every field of the curve is the one of these parameters, and
    the name is canonical: constructing a curve from it gives the same
    curve.  On the name of a property that the table inherits from
    [Object.prototype] ([toString], [constructor], ...) [enums.write] does
    not throw and the constructor fails with a [TypeError]; on any other
    string it throws "Unknown curve". *)
Theorem CurveWithOID_names (webCrypto : bool) (oidOrName : string) :
  match Enums.get_prop Enums.curve oidOrName with
  | Some v =>
      exists name params,
        v = Enums.VStr name /\ Enums.inherited name = false /\
        Enums.inherited oidOrName = false /\
        Curves.curve_entry Curves.curves name = Some params /\
        let web := match Curves.web params with
                   | Some _ => true
                   | None => false
                   end in
        Curves.CurveWithOID webCrypto oidOrName None
        = Ok (Curves.mkCurve (Enums.VStr name)
                (Curves.keyType params) (Curves.oid params)
                (Curves.hash params) (Curves.cipher params) web
                (Curves.payloadSize params)
                (if web && webCrypto then Some "web"
                 else if String.eqb name "curve25519" then Some "curve25519"
                 else if String.eqb name "ed25519" then Some "ed25519"
                 else None)) /\
        Curves.CurveWithOID webCrypto name None
        = Curves.CurveWithOID webCrypto oidOrName None
  | None =>
      Curves.CurveWithOID webCrypto oidOrName None
      = if Enums.inherited oidOrName
        then Throw "TypeError: Cannot read properties of undefined"
        else Throw "Unknown curve"
  end.
Proof.
  destruct (Enums.get_prop Enums.curve oidOrName) as [v|] eqn:E.
  - apply get_prop_sound in E. unfold Enums.curve, Enums.str in E.
    simpl in E.
    repeat (destruct E as [[= <- <-]|E];
            [destruct webCrypto; eexists _, _;
             (split; [reflexivity|]);
             (split; [vm_compute; reflexivity|]);
             (split; [vm_compute; reflexivity|]);
             (split; [vm_compute; reflexivity|]);
             cbv zeta; split; vm_compute; reflexivity|]).
    destruct E.
  - unfold Curves.CurveWithOID, Enums.write, Enums.fresh, Enums.get_member.
    cbn [Enums.entries]. rewrite E.
    by destruct (Enums.inherited oidOrName).
Qed.

(** X21. Every entry of [curves] carries a well-formed OID (the tag 6,
    the length of the body, the body), and the hexadecimal form of the
    body is a key of [enums.curve] for the name of the entry:
    [getPreferredHashAlgo] on it returns the hash of the entry. *)
Theorem curve_oids_registered (name : string) (params : Curves.curve_params) :
  In (name, params) Curves.curves ->
  let body := drop 2 (Curves.oid params) in
  JS.get (Curves.oid params) 0 = Some 6 /\
  JS.get (Curves.oid params) 1 = Some (JS.len body) /\
  fst (Enums.write (Enums.fresh Enums.curve)
                   (Enums.VStr (Util.uint8ArrayToHex body)))
  = Ok (Enums.VStr name) /\
  Curves.getPreferredHashAlgo (Util.uint8ArrayToHex body)
  = Ok (Curves.hash params).
Proof.
  intros Hin. unfold Curves.curves in Hin. simpl in Hin.
  repeat (destruct Hin as [[= <- <-]|Hin];
          [cbv zeta; repeat split; vm_compute; reflexivity|]).
  destruct Hin.
Qed.

Lemma curve_oids_registered_witness :
  let params := Curves.mkParams
                  [0x06; 0x05; 0x2B; 0x81; 0x04; 0x00; 0x22]
                  (Some 19) (Some 9) (Some 8) (Some "P-384") 48 (Some 384) in
  let body := drop 2 (Curves.oid params) in
  JS.get (Curves.oid params) 0 = Some 6 /\
  JS.get (Curves.oid params) 1 = Some (JS.len body) /\
  fst (Enums.write (Enums.fresh Enums.curve)
                   (Enums.VStr (Util.uint8ArrayToHex body)))
  = Ok (Enums.VStr "p384") /\
  Curves.getPreferredHashAlgo (Util.uint8ArrayToHex body)
  = Ok (Curves.hash params).
Proof.
  apply (curve_oids_registered "p384"). right. left. reflexivity.
Defined.

Section KeyPairFacts.
Import JS Util Spec Curves.

Lemma clamp_high b : 0 <= b < 256 -> 64 <= bor (band b 127) 64 < 128.
Proof.
  intros Hb.
  assert (H : (64 <=? bor (band b 127) 64) && (bor (band b 127) 64 <? 128) = true).
  { apply (forall_bytes (fun b => (64 <=? bor (band b 127) 64)
                                  && (bor (band b 127) 64 <? 128))); [|done].
    vm_compute. reflexivity. }
  apply andb_true_iff in H as [H1 H2]. lia.
Qed.

Lemma clamp_low b : 0 <= b < 256 -> band b 248 = 8 * (b / 8).
Proof.
  intros Hb. apply Z.eqb_eq.
  apply (forall_bytes (fun b => band b 248 =? 8 * (b / 8))); [|done].
  vm_compute. reflexivity.
Qed.

(** An array of 32 elements: the first, thirty more, the last. *)
Lemma split_32 (r : list Z) : len r = 32 ->
  exists b0 mid b31, r = b0 :: mid ++ [b31] /\ len mid = 30.
Proof.
  intros H. destruct r as [|b0 r]; [done|].
  destruct r as [|b31 mid _] using rev_ind.
  - vm_compute in H. discriminate.
  - exists b0, mid, b31. split; [reflexivity|].
    rewrite len_cons, len_app in H. change (len [b31]) with 1 in H. lia.
Qed.

Lemma clamped_key (r : list Z) :
  bytes_ok r -> len r = 32 ->
  exists b0 mid b31,
    r = b0 :: mid ++ [b31] /\ len mid = 30 /\
    put (put r 0 (bor (band (get_int r 0) 127) 64)) 31
        (band (get_int (put r 0 (bor (band (get_int r 0) 127) 64)) 31) 248)
    = bor (band b0 127) 64 :: mid ++ [8 * (b31 / 8)].
Proof.
  intros Hok Hlen. destruct (split_32 r Hlen) as (b0 & mid & b31 & -> & Hmid).
  exists b0, mid, b31. split; [reflexivity|]. split; [done|].
  apply bytes_ok_cons in Hok as [Hb0 Hok].
  apply bytes_ok_app in Hok as [Hm Hb31]. apply bytes_ok_cons in Hb31 as [Hb31 _].
  pose proof (clamp_high b0 Hb0) as Hc.
  assert (G0 : get_int (b0 :: mid ++ [b31]) 0 = b0)
    by (unfold get_int; by rewrite get_0_cons).
  rewrite !G0.
  assert (E0 : put (b0 :: mid ++ [b31]) 0 (bor (band b0 127) 64)
               = bor (band b0 127) 64 :: mid ++ [b31]).
  { unfold put. simpl. by rewrite u8_small by lia. }
  rewrite !E0.
  replace 31 with (len (bor (band b0 127) 64 :: mid))
    by (rewrite len_cons; lia).
  change (bor (band b0 127) 64 :: mid ++ [b31])
    with ((bor (band b0 127) 64 :: mid) ++ [b31]).
  rewrite get_int_middle, put_middle, clamp_low by done.
  rewrite u8_small; [reflexivity|].
  pose proof (Z.div_mod b31 8 ltac:(lia)). pose proof (Z.mod_pos_bound b31 8). lia.
Qed.

End KeyPairFacts.

(** X22. The Curve25519 key pair that [genKeyPair] makes from 32 random
    bytes: the private key is clamped, that is to say its number (read by
    the X25519 function from the reversed array) lies in
    [2 ^ 254, 2 ^ 255) and is a multiple of 8, and the pair passes
    [validateStandardParams] for ECDH, and is refused for any other
    algorithm. *)
Theorem curve25519_keypair_valid
  (getRandomBytes : Z -> list Z) (nacl_box_publicKey : list Z -> list Z)
  (indutny_valid : string -> list Z -> list Z -> bool) (algo : Z) :
  JS.bytes_ok (getRandomBytes 32) -> JS.len (getRandomBytes 32) = 32 ->
  let keyPair := Curves.genKeyPair_curve25519 getRandomBytes nacl_box_publicKey in
  let validate algo :=
    Curves.validateStandardParams nacl_box_publicKey indutny_valid algo
      "curve25519" keyPair.1 keyPair.2 in
  JS.len keyPair.2 = 32 /\ JS.bytes_ok keyPair.2 /\
  2 ^ 254 <= Spec.big_endian keyPair.2 < 2 ^ 255 /\
  Spec.big_endian keyPair.2 mod 8 = 0 /\
  validate 18 = true /\
  (algo <> 18 -> validate algo = false).
Proof.
  intros Hok Hlen keyPair validate. subst validate keyPair.
  unfold Curves.genKeyPair_curve25519. cbv zeta. cbn [fst snd].
  destruct (clamped_key (getRandomBytes 32) Hok Hlen)
    as (b0 & mid & b31 & E & Hmid & ->).
  rewrite E in Hok.
  apply bytes_ok_cons in Hok as [Hb0 Hok].
  apply bytes_ok_app in Hok as [Hm Hb31]. apply bytes_ok_cons in Hb31 as [Hb31 _].
  pose proof (clamp_high b0 Hb0) as Hc.
  set (h := JS.bor (JS.band b0 127) 64) in *.
  assert (Hl : 0 <= 8 * (b31 / 8) < 256).
  { pose proof (Z.div_mod b31 8 ltac:(lia)). pose proof (Z.mod_pos_bound b31 8). lia. }
  assert (Hok' : JS.bytes_ok (mid ++ [8 * (b31 / 8)])).
  { apply bytes_ok_app. split; [done|]. apply bytes_ok_cons. split; [done|constructor]. }
  split; [|split; [|split; [|split; [|split]]]].
  - rewrite len_cons, len_app. change (JS.len [8 * (b31 / 8)]) with 1. lia.
  - apply bytes_ok_cons. split; [lia|done].
  - rewrite big_endian_cons.
    pose proof (big_endian_range _ Hok') as Hr.
    rewrite len_app in *. change (JS.len [8 * (b31 / 8)]) with 1 in *.
    rewrite Hmid in *. change (30 + 1) with 31 in *.
    change (2 ^ 254) with (64 * 256 ^ 31). change (2 ^ 255) with (128 * 256 ^ 31).
    assert (0 < 256 ^ 31) by lia. nia.
  - change (h :: mid ++ [8 * (b31 / 8)]) with ((h :: mid) ++ [8 * (b31 / 8)]).
    rewrite big_endian_snoc.
    replace (Spec.big_endian (h :: mid) * 256 + 8 * (b31 / 8))
      with ((Spec.big_endian (h :: mid) * 32 + b31 / 8) * 8) by lia.
    apply Z.mod_mul. lia.
  - unfold Curves.validateStandardParams, Curves.supportedCurves.
    simpl. rewrite (proj2 (equalsUint8Array_true _ _)); reflexivity.
  - intros Ha. unfold Curves.validateStandardParams, Curves.supportedCurves.
    simpl. by replace (algo =? 18) with false by lia.
Qed.

Lemma curve25519_keypair_valid_witness :
  let keyPair := Curves.genKeyPair_curve25519
                   (fun n => replicate (Z.to_nat n) 255) (fun sk => sk) in
  let validate algo :=
    Curves.validateStandardParams (fun sk => sk) (fun _ _ _ => false) algo
      "curve25519" keyPair.1 keyPair.2 in
  JS.len keyPair.2 = 32 /\ JS.bytes_ok keyPair.2 /\
  2 ^ 254 <= Spec.big_endian keyPair.2 < 2 ^ 255 /\
  Spec.big_endian keyPair.2 mod 8 = 0 /\
  validate 18 = true /\
  (19 <> 18 -> validate 19 = false).
Proof.
  apply (curve25519_keypair_valid
           (fun n => replicate (Z.to_nat n) 255) (fun sk => sk)
           (fun _ _ _ => false) 19).
  - apply Forall_replicate. lia.
  - reflexivity.
Defined.

Section JwkFacts.
Import JS Util Curves Aux.

Lemma bytes_codec b : bytes_ok b -> string_to_bytes (bytes_to_string b) = b.
Proof.
  unfold string_to_bytes, bytes_to_string. intros Hok.
  rewrite String.list_ascii_of_string_of_list_ascii, map_map.
  induction Hok as [|x b Hx _ IH]; [reflexivity|]. simpl.
  rewrite IH, Ascii.nat_ascii_embedding by lia. f_equal. lia.
Qed.

Lemma jwk_round_trip_aux (enc : list Z -> string) (dec : string -> list Z)
      payloadSize name publicKey :
  (forall b, bytes_ok b -> dec (enc b) = b) ->
  0 <= payloadSize -> bytes_ok publicKey ->
  len publicKey <= 2 * payloadSize + 1 ->
  jwkToRawPublic dec (rawPublicToJWK enc payloadSize name publicKey)
  = Ok (4 :: drop 1 publicKey).
Proof.
  intros Hcodec Hn Hok Hlen.
  unfold jwkToRawPublic, rawPublicToJWK. cbn [x y].
  rewrite !subarray_clamp by lia.
  replace (payloadSize + 1 - 1) with payloadSize by lia.
  replace (payloadSize * 2 + 1 - (payloadSize + 1)) with payloadSize by lia.
  set (X := take (Z.to_nat payloadSize) (drop (Z.to_nat 1) publicKey)).
  set (Y := take (Z.to_nat payloadSize) (drop (Z.to_nat (payloadSize + 1)) publicKey)).
  assert (HX : bytes_ok X) by (subst X; apply Forall_take; by apply Forall_drop).
  assert (HY : bytes_ok Y) by (subst Y; apply Forall_take; by apply Forall_drop).
  rewrite !Hcodec by done.
  assert (HXY : X ++ Y = drop 1 publicKey).
  { subst X Y. change (Z.to_nat 1) with 1%nat.
    replace (Z.to_nat (payloadSize + 1)) with (1 + Z.to_nat payloadSize)%nat by lia.
    rewrite <- drop_drop.
    rewrite (take_ge (drop _ (drop 1 publicKey)))
      by (rewrite !length_drop; unfold len in *; lia).
    apply take_drop. }
  pose proof (len_nonneg X) as HlX. pose proof (len_nonneg Y) as HlY.
  unfold new_Uint8Array. replace (len X + len Y + 1 <? 0) with false by lia.
  simpl bind. unfold zeros.
  replace (Z.to_nat (len X + len Y + 1)) with (S (length X + length Y))
    by (unfold len; lia).
  rewrite replicate_S.
  assert (E0 : put (0 :: replicate (length X + length Y) 0) 0 4
               = [4] ++ replicate (length X + length Y) 0) by reflexivity.
  rewrite E0.
  assert (S1 : set ([4] ++ replicate (length X + length Y) 0) X 1
               = Ok (([4] ++ X) ++ replicate (length Y) 0)).
  { change 1 with (len [4]).
    rewrite set_at_end by (unfold len; rewrite length_replicate; lia).
    rewrite drop_replicate.
    replace (length X + length Y - length X)%nat with (length Y) by lia.
    by rewrite <- app_assoc. }
  rewrite S1. cbn [bind].
  assert (S2 : set (([4] ++ X) ++ replicate (length Y) 0) Y (len X + 1)
               = Ok (4 :: X ++ Y)).
  { replace (len X + 1) with (len ([4] ++ X))
      by (rewrite len_app; change (len [4]) with 1; lia).
    rewrite set_at_end by (unfold len; rewrite length_replicate; lia).
    rewrite drop_replicate, Nat.sub_diag. simpl replicate.
    by rewrite app_nil_r, <- app_assoc. }
  rewrite S2. cbn [bind]. by rewrite HXY.
Qed.

End JwkFacts.

(** X23. A raw public key turned into a JSON web key and back is the
    point it was, with the tag byte 4 for its first byte: the two
    coordinates are cut at [payloadSize] and joined again, given that
    decoding base 64 undoes encoding it. *)
Theorem jwk_round_trip
  (uint8ArrayToB64 : list Z -> string) (b64ToUint8Array : string -> list Z)
  (payloadSize : Z) (name : string) (publicKey : list Z) :
  (forall b, JS.bytes_ok b -> b64ToUint8Array (uint8ArrayToB64 b) = b) ->
  0 <= payloadSize -> JS.bytes_ok publicKey ->
  JS.len publicKey <= 2 * payloadSize + 1 ->
  Curves.jwkToRawPublic b64ToUint8Array
    (Curves.rawPublicToJWK uint8ArrayToB64 payloadSize name publicKey)
  = Ok (4 :: drop 1 publicKey).
Proof. apply jwk_round_trip_aux. Qed.

Lemma jwk_round_trip_witness :
  Curves.jwkToRawPublic Aux.string_to_bytes
    (Curves.rawPublicToJWK Aux.bytes_to_string 2 "P-256" [4; 1; 2; 3; 4])
  = Ok (4 :: drop 1 [4; 1; 2; 3; 4]).
Proof.
  apply (jwk_round_trip Aux.bytes_to_string Aux.string_to_bytes 2 "P-256"
           [4; 1; 2; 3; 4]).
  - apply bytes_codec.
  - lia.
  - repeat constructor; lia.
  - vm_compute. discriminate.
Defined.

(** * The Compressed Data packet and HKDF *)

Section CompressionFacts.
Import Enums.

(** The names of the compression algorithms, by number. *)
Lemma compression_name (a : Z) :
  fst (read (fresh compression) (VNum a))
  = if a =? 0 then Ok "uncompressed"
    else if a =? 1 then Ok "zip"
    else if a =? 2 then Ok "zlib"
    else if a =? 3 then Ok "bzip2"
    else Throw "Invalid enum value.".
Proof.
  unfold read, fresh. cbn [byValue entries fst].
  change (build_rev compression)
    with [(VNum 3, "bzip2"); (VNum 2, "zlib"); (VNum 1, "zip");
          (VNum 0, "uncompressed")].
  cbn [get_rev value_eqb].
  destruct (Z.eqb_spec 3 a) as [<-|H3]; [reflexivity|].
  destruct (Z.eqb_spec 2 a) as [<-|H2]; [reflexivity|].
  destruct (Z.eqb_spec 1 a) as [<-|H1]; [reflexivity|].
  destruct (Z.eqb_spec 0 a) as [<-|H0]; [reflexivity|].
  replace (a =? 0) with false by lia. replace (a =? 1) with false by lia.
  replace (a =? 2) with false by lia. replace (a =? 3) with false by lia.
  reflexivity.
Qed.

(** The names of the hashes of the Web Cryptography API, by number. *)
Lemma webHash_name (a : Z) :
  fst (read (fresh webHash) (VNum a))
  = if a =? 2 then Ok "SHA-1"
    else if a =? 8 then Ok "SHA-256"
    else if a =? 9 then Ok "SHA-384"
    else if a =? 10 then Ok "SHA-512"
    else Throw "Invalid enum value.".
Proof.
  unfold read, fresh. cbn [byValue entries fst].
  change (build_rev webHash)
    with [(VNum 10, "SHA-512"); (VNum 9, "SHA-384"); (VNum 8, "SHA-256");
          (VNum 2, "SHA-1")].
  cbn [get_rev value_eqb].
  destruct (Z.eqb_spec 10 a) as [<-|H3]; [reflexivity|].
  destruct (Z.eqb_spec 9 a) as [<-|H2]; [reflexivity|].
  destruct (Z.eqb_spec 8 a) as [<-|H1]; [reflexivity|].
  destruct (Z.eqb_spec 2 a) as [<-|H0]; [reflexivity|].
  replace (a =? 2) with false by lia. replace (a =? 8) with false by lia.
  replace (a =? 9) with false by lia. replace (a =? 10) with false by lia.
  reflexivity.
Qed.

End CompressionFacts.

(** A Compressed Data packet can be compressed with ZIP and ZLIB
    only, although all four algorithms can be decompressed: [compress]
    applies the raw or the plain deflate codec for the algorithms 1 and 2,
    throws "uncompressed compression not supported" for 0 and "bzip2
    compression not supported" for 3, and rejects any other number as an
    invalid enum value, as [decompress] does; [decompress] hands the data
    to the codec of each of the four. *)
Lemma compression_support
  (PacketList : Type) (fromBinary : list Z -> result PacketList)
  (packets_write : PacketList -> list Z)
  (deflate_raw deflate : list Z -> Z -> list Z)
  (inflate_raw inflate bunzip : list Z -> result (list Z))
  (p : PacketList) (a level : Z) (c : option (list Z)) (data : list Z) :
  let this := CompressedData.mkPacket PacketList (Some p) a c level in
  let compress := CompressedData.compress PacketList packets_write
                    deflate_raw deflate this in
  let decompress := CompressedData.decompress PacketList fromBinary
                      inflate_raw inflate bunzip this data in
  (a = 0 -> compress = Throw "uncompressed compression not supported" /\
            decompress = fromBinary data) /\
  (a = 1 -> compress = Ok (deflate_raw (packets_write p) level) /\
            decompress = bind (inflate_raw data) fromBinary) /\
  (a = 2 -> compress = Ok (deflate (packets_write p) level) /\
            decompress = bind (inflate data) fromBinary) /\
  (a = 3 -> compress = Throw "bzip2 compression not supported" /\
            decompress = bind (bunzip data) fromBinary) /\
  (a <> 0 -> a <> 1 -> a <> 2 -> a <> 3 ->
     compress = Throw "Invalid enum value." /\
     decompress = Throw "Invalid enum value.").
Proof.
  cbv zeta.
  unfold CompressedData.compress, CompressedData.decompress,
    CompressedData.compressionName.
  cbn [CompressedData.algorithm CompressedData.packets CompressedData.deflateLevel].
  rewrite compression_name.
  repeat split; intros; subst; try reflexivity.
  - replace (a =? 0) with false by lia. replace (a =? 1) with false by lia.
    replace (a =? 2) with false by lia. replace (a =? 3) with false by lia.
    reflexivity.
  - replace (a =? 0) with false by lia. replace (a =? 1) with false by lia.
    replace (a =? 2) with false by lia. replace (a =? 3) with false by lia.
    reflexivity.
Qed.


(** [HKDF] takes the hashes of the Web Cryptography API only: for
    any other hash algorithm it throws "Invalid enum value." whatever the
    other arguments, so that its own message "Hash algo not supported with
    HKDF" is never the result of its check.  For SHA-1, SHA-256, SHA-384
    and SHA-512 it asks the API for eight times [outLen] bits, or throws
    "No HKDF implementation available" without the API. *)
Lemma hkdf_hash_support
  (deriveBits : string -> list Z -> list Z -> list Z -> Z -> result (list Z))
  (webCrypto : bool) (hashAlgo : Z) (inputKey salt info : list Z) (outLen : Z) :
  let r := HKDF.HKDF deriveBits webCrypto hashAlgo inputKey salt info outLen in
  (hashAlgo <> 2 -> hashAlgo <> 8 -> hashAlgo <> 9 -> hashAlgo <> 10 ->
     r = Throw "Invalid enum value.") /\
  (forall name, In (name, Enums.VNum hashAlgo) Enums.webHash ->
     r = if webCrypto
         then deriveBits name inputKey salt info (outLen * 8)
         else Throw "No HKDF implementation available") /\
  ((forall name k s i bits,
      deriveBits name k s i bits <> Throw "Hash algo not supported with HKDF") ->
   r <> Throw "Hash algo not supported with HKDF").
Proof.
  cbv zeta. unfold HKDF.HKDF. rewrite webHash_name. split; [|split].
  - intros H2 H8 H9 H10.
    replace (hashAlgo =? 2) with false by lia.
    replace (hashAlgo =? 8) with false by lia.
    replace (hashAlgo =? 9) with false by lia.
    replace (hashAlgo =? 10) with false by lia. reflexivity.
  - intros name Hin. simpl in Hin.
    destruct Hin as [[= <- <-]|[[= <- <-]|[[= <- <-]|[[= <- <-]|[]]]]];
      reflexivity.
  - intros Hd.
    destruct (hashAlgo =? 2); [destruct webCrypto; simpl; [apply Hd|discriminate]|].
    destruct (hashAlgo =? 8); [destruct webCrypto; simpl; [apply Hd|discriminate]|].
    destruct (hashAlgo =? 9); [destruct webCrypto; simpl; [apply Hd|discriminate]|].
    destruct (hashAlgo =? 10); [destruct webCrypto; simpl; [apply Hd|discriminate]|].
    discriminate.
Qed.

(** * More on RSA *)

(** X25. [validateParams] accepts every well-formed key for which the
    blinding value drawn is smaller than [p - 1] and [q - 1]: [p * q = n],
    [p * u = 1] modulo [q], and [d * e = 1] modulo [p - 1] and modulo
    [q - 1] are enough. *)
Theorem validateParams_accepts (getRandomBigInteger : Z -> Z -> Z)
                               (n e d p q u : list Z) :
  let N := BigInteger.of_bytes n in
  let E := BigInteger.of_bytes e in
  let D := BigInteger.of_bytes d in
  let P := BigInteger.of_bytes p in
  let Q := BigInteger.of_bytes q in
  let U := BigInteger.of_bytes u in
  let r := getRandomBigInteger 2 (Z.shiftl 2 (BigInteger.bitLength N / 3)) in
  P * Q = N -> (P * U) mod Q = 1 ->
  (D * E) mod (P - 1) = 1 mod (P - 1) ->
  (D * E) mod (Q - 1) = 1 mod (Q - 1) ->
  0 <= r < P - 1 -> r < Q - 1 ->
  RSA.validateParams getRandomBigInteger n e d p q u = Ok true.
Proof.
  intros N E D P Q U r HN HU HP HQ Hr1 Hr2. unfold RSA.validateParams.
  fold N E D P Q U. fold r.
  assert (Hblind : forall m, r < m -> (D * E) mod m = 1 mod m ->
                             (r * D * E) mod m = r).
  { intros m Hm Hde. rewrite <- Z.mul_assoc, <- Z.mul_mod_idemp_r, Hde by lia.
    rewrite Z.mul_mod_idemp_r, Z.mul_1_r by lia. apply Z.mod_small. lia. }
  unfold BigInteger.modulo.
  replace (Q =? 0) with false by lia.
  replace (P - 1 =? 0) with false by lia.
  replace (Q - 1 =? 0) with false by lia.
  rewrite HN, Z.eqb_refl. cbn [negb bind]. rewrite HU.
  cbn [Z.eqb Pos.eqb negb].
  rewrite !Hblind by (done || lia). rewrite Z.eqb_refl. reflexivity.
Qed.

Lemma validateParams_accepts_witness :
  RSA.validateParams (fun _ _ => 2) [55] [3] [7] [5] [11] [9] = Ok true.
Proof.
  apply (validateParams_accepts (fun _ _ => 2) [55] [3] [7] [5] [11] [9]);
    vm_compute; try reflexivity; split; discriminate || reflexivity.
Defined.

Section EncryptFacts.
Import JS BigInteger.

(** A number is at least [256] to the power of its byte length less
    one. *)
Lemma byteLength_lower x : 0 < x -> 256 ^ (byteLength x - 1) <= x.
Proof.
  intros Hx. unfold byteLength. replace (x <=? 0) with false by lia.
  replace (Z.log2 x / 8 + 1 - 1) with (Z.log2 x / 8) by lia.
  pose proof (Z.log2_nonneg x) as Hl.
  assert (Hq : 0 <= Z.log2 x / 8) by (apply Z.div_pos; lia).
  change 256 with (2 ^ 8). rewrite <- Z.pow_mul_r by lia.
  destruct (Z.log2_spec x Hx) as [Hlo _].
  eapply Z.le_trans; [|exact Hlo].
  apply Z.pow_le_mono_r; [lia|].
  pose proof (Z.div_mod (Z.log2 x) 8 ltac:(lia)).
  pose proof (Z.mod_pos_bound (Z.log2 x) 8 ltac:(lia)). lia.
Qed.

(** A block of the length of the modulus that starts with a zero byte is
    a number below the modulus. *)
Lemma leading_zero_below em N :
  0 < N -> bytes_ok em -> len em = byteLength N ->
  (exists rest, em = 0 :: rest) -> of_bytes em < N.
Proof.
  intros HN Hok Hlen [rest ->].
  apply bytes_ok_cons in Hok as [_ Hok]. rewrite len_cons in Hlen.
  rewrite <- big_endian_of_bytes, big_endian_cons.
  pose proof (big_endian_range rest Hok) as Hr.
  pose proof (byteLength_lower N HN) as Hlow.
  replace (byteLength N - 1) with (len rest) in Hlow by lia. lia.
Qed.

Lemma eme_payload_zero em data :
  PKCS1.eme_payload em = Some data -> exists rest, em = 0 :: rest.
Proof.
  unfold PKCS1.eme_payload. intros H.
  destruct em as [|b em]; [discriminate|].
  destruct b; try discriminate. by exists em.
Qed.

End EncryptFacts.

(** X26. RSA encryption followed by decryption gives the message back:
    for a key [n = p * q] of two distinct odd primes with [e * d = 1]
    modulo [(p - 1) * (q - 1)] and [p * u = 1] modulo [q], when
    [emeEncode] returns for the message a well-formed EME-PKCS1-v1.5 block
    of the length of the modulus, [encrypt] returns a ciphertext of that
    length, which [decrypt] turns into the message, whatever invertible
    blinding value it draws and whatever random payload it is given. *)
Theorem rsa_encrypt_decrypt
  (emeEncode : list Z -> Z -> result (list Z))
  (getRandomBigInteger : Z -> Z -> Z)
  (data n e d p q u em : list Z) (randomPayload : option (list Z)) :
  let N := BigInteger.of_bytes n in
  let P := BigInteger.of_bytes p in
  let Q := BigInteger.of_bytes q in
  Z.prime P -> Z.prime Q -> P <> Q -> 2 < P -> 2 < Q -> N = P * Q ->
  JS.bytes_ok e -> JS.bytes_ok d ->
  (BigInteger.of_bytes e * BigInteger.of_bytes d) mod ((P - 1) * (Q - 1)) = 1 ->
  (P * BigInteger.of_bytes u) mod Q = 1 ->
  Z.gcd (getRandomBigInteger 2 N mod N) N = 1 ->
  emeEncode data (BigInteger.byteLength N) = Ok em ->
  JS.bytes_ok em -> JS.len em = BigInteger.byteLength N ->
  PKCS1.eme_payload em = Some data ->
  exists c,
    RSA.encrypt emeEncode data n e = Ok c /\
    JS.len c = BigInteger.byteLength N /\
    RSA.decrypt getRandomBigInteger c n e d p q u randomPayload = Ok data.
Proof.
  intros N P Q Hp Hq Hne Hp3 Hq3 HN He Hd Hed Hu Hgcd Hem Hemok Hemlen Hpay.
  assert (HNpos : 0 < N) by nia.
  destruct (byteLength_fits N HNpos) as [Hk Hfit].
  set (k := BigInteger.byteLength N) in *.
  pose proof (of_bytes_range em Hemok) as Hm.
  pose proof (of_bytes_range e He) as HE.
  pose proof (of_bytes_range d Hd) as HD.
  assert (Hlt : BigInteger.of_bytes em < N).
  { apply leading_zero_below; try done. by apply (eme_payload_zero em data). }
  set (m := BigInteger.of_bytes em) in *.
  set (E := BigInteger.of_bytes e) in *. set (D := BigInteger.of_bytes d) in *.
  set (c := m ^ E mod N).
  assert (Hc : 0 <= c < N) by (apply Z.mod_pos_bound; lia).
  exists (BigInteger.toUint8Array c k). split; [|split].
  - unfold RSA.encrypt, RSA.bnEncrypt. fold N k. rewrite Hem. cbn [bind].
    fold m E. replace (N <=? m) with false by lia. reflexivity.
  - apply toUint8Array_len. lia.
  - unfold RSA.decrypt, RSA.bnDecrypt.
    rewrite (decrypt_block_correct getRandomBigInteger _ n e d p q u);
      try done.
    + fold N k D. rewrite of_bytes_toUint8Array by lia.
      unfold c. rewrite HN. rewrite rsa_round_trip by (done || lia).
      cbn [bind]. unfold m. rewrite <- Hemlen.
      rewrite toUint8Array_of_bytes by done.
      unfold PKCS1.emeDecode. by rewrite Hpay.
    + apply toUint8Array_bytes_ok.
    + fold N k. rewrite of_bytes_toUint8Array by lia. lia.
Qed.

(** The 89-bit key p = 17592186044423, q = 17592186044437, e = 65537, the
    padding being eight bytes 1 and the blinding value 2. *)
Lemma rsa_encrypt_decrypt_witness :
  exists c,
    RSA.encrypt (fun data _ => Ok ([0; 2; 1; 1; 1; 1; 1; 1; 1; 1; 0] ++ data))
      [171] [1; 0; 0; 0; 0; 1; 192; 0; 0; 0; 0; 147] [1; 0; 1] = Ok c /\
    JS.len c = BigInteger.byteLength
                 (BigInteger.of_bytes [1; 0; 0; 0; 0; 1; 192; 0; 0; 0; 0; 147]) /\
    RSA.decrypt (fun _ _ => 2) c [1; 0; 0; 0; 0; 1; 192; 0; 0; 0; 0; 147]
      [1; 0; 1] [74; 103; 181; 152; 74; 224; 158; 31; 97; 224; 193]
      [16; 0; 0; 0; 0; 7] [16; 0; 0; 0; 0; 21] [10; 73; 36; 146; 73; 50] None
    = Ok [171].
Proof.
  apply (rsa_encrypt_decrypt
           (fun data _ => Ok ([0; 2; 1; 1; 1; 1; 1; 1; 1; 1; 0] ++ data))
           (fun _ _ => 2) [171]
           [1; 0; 0; 0; 0; 1; 192; 0; 0; 0; 0; 147] [1; 0; 1]
           [74; 103; 181; 152; 74; 224; 158; 31; 97; 224; 193]
           [16; 0; 0; 0; 0; 7] [16; 0; 0; 0; 0; 21] [10; 73; 36; 146; 73; 50]
           [0; 2; 1; 1; 1; 1; 1; 1; 1; 1; 0; 171] None).
  - exact prime_17592186044423.
  - exact prime_17592186044437.
  - vm_compute. discriminate.
  - vm_compute. reflexivity.
  - vm_compute. reflexivity.
  - vm_compute. reflexivity.
  - repeat constructor; lia.
  - repeat constructor; lia.
  - vm_compute. reflexivity.
  - vm_compute. reflexivity.
  - vm_compute. reflexivity.
  - reflexivity.
  - repeat constructor; lia.
  - vm_compute. reflexivity.
  - vm_compute. reflexivity.
Defined.

(** X27. Every signature that [bnSign] returns has the byte length of the
    modulus, leading zero bytes included, and a value below the modulus,
    so that [bnVerify] does not refuse it for its size. *)
Theorem bnSign_size (hash_headers : Z -> list Z) (hashAlgo : Z)
                    (n d hashed sig : list Z) :
  RSA.bnSign hash_headers hashAlgo n d hashed = Ok sig ->
  JS.len sig = BigInteger.byteLength (BigInteger.of_bytes n) /\
  JS.bytes_ok sig /\
  BigInteger.of_bytes sig < BigInteger.of_bytes n /\
  forall e hashed',
    RSA.bnVerify hash_headers hashAlgo sig n e hashed'
    <> Throw "Signature size cannot exceed modulus size".
Proof.
  unfold RSA.bnSign. set (N := BigInteger.of_bytes n).
  destruct (PKCS1.emsaEncode hash_headers hashAlgo hashed (BigInteger.byteLength N))
    as [em|] eqn:Hem; [|discriminate].
  cbn [bind]. destruct (N <=? BigInteger.of_bytes em) eqn:Hcmp; [discriminate|].
  intros [= <-].
  assert (Hk : 11 <= BigInteger.byteLength N).
  { unfold PKCS1.emsaEncode in Hem.
    destruct (BigInteger.byteLength N <? _) eqn:E; [discriminate|].
    apply Z.ltb_ge in E. pose proof (len_nonneg (hash_headers hashAlgo)).
    pose proof (len_nonneg hashed). lia. }
  assert (HN : 0 < N).
  { unfold BigInteger.byteLength in Hk. destruct (N <=? 0) eqn:E0; lia. }
  destruct (byteLength_fits N HN) as [_ Hfit].
  set (s := BigInteger.modExp (BigInteger.of_bytes em) (BigInteger.of_bytes d) N).
  assert (Hs : 0 <= s < N) by (apply Z.mod_pos_bound; lia).
  assert (Hv : BigInteger.of_bytes
                 (BigInteger.toUint8Array s (BigInteger.byteLength N)) = s)
    by (apply of_bytes_toUint8Array; lia).
  split; [apply toUint8Array_len; lia|].
  split; [apply toUint8Array_bytes_ok|]. split; [rewrite Hv; lia|].
  intros e hashed'. unfold RSA.bnVerify. fold N. rewrite Hv.
  replace (N <=? s) with false by lia.
  unfold PKCS1.emsaEncode.
  destruct (BigInteger.byteLength N <? _); cbn [bind]; discriminate.
Qed.

(** The modulus [2 ^ 88] and the exponent 1: the signature is the encoded
    message, zero byte first. *)
Lemma bnSign_size_witness :
  JS.len [0; 1; 255; 255; 255; 255; 255; 255; 255; 255; 0; 171]
  = BigInteger.byteLength
      (BigInteger.of_bytes [1; 0; 0; 0; 0; 0; 0; 0; 0; 0; 0; 0]).
Proof.
  apply (bnSign_size (fun _ => []) 8 [1; 0; 0; 0; 0; 0; 0; 0; 0; 0; 0; 0]
           [1] [171]).
  vm_compute. reflexivity.
Defined.

(** [sign] and [verify] go through the Web Cryptography API only
    with one of its hashes: for any other hash algorithm they are [bnSign]
    and [bnVerify], as they are without the API, without data, or when
    the API throws. *)
Lemma rsa_web_fallback
  (hash_headers : Z -> list Z)
  (webSign : string -> list Z -> list Z -> list Z -> list Z -> list Z
             -> list Z -> list Z -> result (list Z))
  (webVerify : string -> list Z -> list Z -> list Z -> list Z -> result bool)
  (webCrypto : bool) (hashAlgo : Z) (data : option (list Z))
  (s n e d p q u hashed : list Z) :
  let sign := RSA.sign hash_headers webSign webCrypto hashAlgo data
                n e d p q u hashed in
  let verify := RSA.verify hash_headers webVerify webCrypto hashAlgo data
                  s n e hashed in
  ((hashAlgo <> 2 /\ hashAlgo <> 8 /\ hashAlgo <> 9 /\ hashAlgo <> 10)
   \/ webCrypto = false \/ data = None ->
   sign = RSA.bnSign hash_headers hashAlgo n d hashed /\
   verify = RSA.bnVerify hash_headers hashAlgo s n e hashed) /\
  (forall name bytes,
     In (name, Enums.VNum hashAlgo) Enums.webHash ->
     webCrypto = true -> data = Some bytes ->
     sign = match webSign name bytes n e d p q u with
            | Ok signature => Ok signature
            | Throw _ => RSA.bnSign hash_headers hashAlgo n d hashed
            end /\
     verify = match webVerify name bytes s n e with
              | Ok valid => Ok valid
              | Throw _ => RSA.bnVerify hash_headers hashAlgo s n e hashed
              end).
Proof.
  cbv zeta. unfold RSA.sign, RSA.verify. rewrite webHash_name. split.
  - intros [(H2 & H8 & H9 & H10)|[->| ->]].
    + replace (hashAlgo =? 2) with false by lia.
      replace (hashAlgo =? 8) with false by lia.
      replace (hashAlgo =? 9) with false by lia.
      replace (hashAlgo =? 10) with false by lia.
      destruct data, webCrypto; done.
    + destruct data; done.
    + done.
  - intros name bytes Hin -> ->. simpl in Hin.
    destruct Hin as [[= <- <-]|[[= <- <-]|[[= <- <-]|[[= <- <-]|[]]]]];
      cbn [Z.eqb Pos.eqb bind];
      (split; [destruct (webSign _ _ _ _ _ _ _ _)|destruct (webVerify _ _ _ _ _)]);
      reflexivity.
Qed.

(** * More on the GCM nonce *)

Section NonceFacts.
Import JS GCM Aux.

(** Writes beyond the end of the nonce are dropped. *)
Lemma xor_bytes_beyond count : forall i a c,
  len a <= 4 + i -> xor_bytes count i a c = a.
Proof.
  induction count as [|count IH]; intros i a c Hi; simpl; [reflexivity|].
  assert (Hput : forall v, put a (4 + i) v = a).
  { intros v. unfold put. pose proof (len_nonneg a).
    replace (4 + i <? 0) with false by lia.
    apply list_insert_ge. unfold len in *. lia. }
  rewrite Hput. apply IH. lia.
Qed.

(** The loop on arrays of any length: the bytes of the chunk index are
    xored into the nonce from its fifth byte on, as far as both go. *)
Lemma xor_bytes_general c2 : forall c1 A1 a2,
  len A1 = 4 + len c1 ->
  xor_bytes (length c2) (len c1) (A1 ++ a2) (c1 ++ c2)
  = A1 ++ zip_with (fun x y => u8 (Z.lxor (to_int32 x) (to_int32 y))) a2 c2
       ++ drop (length c2) a2.
Proof.
  induction c2 as [|y c2 IH]; intros c1 A1 a2 HA.
  - simpl. destruct a2; reflexivity.
  - destruct a2 as [|x a2].
    + rewrite app_nil_r. rewrite xor_bytes_beyond by lia.
      cbn [zip_with]. by rewrite drop_nil, !app_nil_r.
    + simpl xor_bytes. rewrite <- HA.
      rewrite !get_int_middle, put_middle.
      replace (A1 ++ u8 (Z.lxor (to_int32 x) (to_int32 y)) :: a2)
        with ((A1 ++ [u8 (Z.lxor (to_int32 x) (to_int32 y))]) ++ a2)
        by (by rewrite <- app_assoc).
      replace (c1 ++ y :: c2) with ((c1 ++ [y]) ++ c2)
        by (by rewrite <- app_assoc).
      replace (len c1 + 1) with (len (c1 ++ [y])) by (by rewrite len_app).
      rewrite IH.
      * rewrite <- app_assoc. reflexivity.
      * rewrite !len_app. change (len [_]) with 1.
        change (len [y]) with 1. lia.
Qed.

Lemma zip_xor_bytes a c : bytes_ok a -> bytes_ok c ->
  zip_with (fun x y => u8 (Z.lxor (to_int32 x) (to_int32 y))) a c
  = zip_with Z.lxor a c.
Proof.
  intros Ha. revert c. induction Ha as [|x a Hx _ IH]; intros c Hc; [done|].
  destruct Hc as [|y c Hy Hc]; [done|]. simpl.
  rewrite xor_byte_u8 by done. f_equal. by apply IH.
Qed.

(** The array that [getNonce] returns, and the store it leaves. *)
Lemma getNonce_bytes h iv ci ivb cib :
  h !! iv = Some ivb -> h !! ci = Some cib ->
  bytes_ok ivb -> bytes_ok cib ->
  getNonce h iv ci
  = (<[length h :=
         take 4 ivb ++ zip_with Z.lxor (drop 4 ivb) cib
           ++ drop (4 + length cib) ivb]> (h ++ [ivb]),
     length h).
Proof.
  intros Hiv Hci Hok1 Hok2.
  assert (Hcilt : (ci < length h)%nat) by (by eapply lookup_lt_Some).
  unfold getNonce, slice. cbn [fst snd].
  assert (Hd1 : deref h iv = ivb) by (unfold deref; by rewrite Hiv).
  assert (Hd2 : deref (h ++ [ivb]) ci = cib).
  { unfold deref. rewrite lookup_app_l by done. by rewrite Hci. }
  rewrite Hd1, Hd2.
  rewrite (xor_loop_store _ _ _ _ _ ivb);
    [|by rewrite lookup_app_r, Nat.sub_diag by lia|lia].
  rewrite Hd2. f_equal. f_equal.
  destruct (Z.le_gt_cases 4 (len ivb)) as [Hlong|Hshort].
  - assert (E : len (take 4 ivb) = 4 + len (@nil Z)).
    { unfold len in *. rewrite length_take. simpl length. lia. }
    pose proof (xor_bytes_general cib [] (take 4 ivb) (drop 4 ivb) E) as Hx.
    rewrite take_drop in Hx. simpl app in Hx.
    change (len []) with 0 in Hx. rewrite Hx.
    rewrite zip_xor_bytes by (done || by apply Forall_drop).
    by rewrite drop_drop.
  - rewrite xor_bytes_beyond by lia.
    rewrite take_ge by (unfold len in *; lia).
    rewrite !drop_ge by (unfold len in *; lia).
    destruct cib; simpl; by rewrite app_nil_r.
Qed.

Lemma lxor_cancel x y1 y2 : Z.lxor x y1 = Z.lxor x y2 -> y1 = y2.
Proof.
  intros H. apply (f_equal (Z.lxor x)) in H.
  by rewrite <- !Z.lxor_assoc, Z.lxor_nilpotent, !Z.lxor_0_l in H.
Qed.

Lemma zip_xor_inj a : forall c1 c2,
  length c1 = length c2 -> (length c1 <= length a)%nat ->
  zip_with Z.lxor a c1 = zip_with Z.lxor a c2 -> c1 = c2.
Proof.
  induction a as [|x a IH]; intros [|y1 c1] [|y2 c2] Hlen Hle Heq;
    simpl in *; try done; try lia.
  injection Heq as Hx Heq. apply lxor_cancel in Hx as ->.
  f_equal. apply IH; [lia|lia|done].
Qed.

End NonceFacts.

(** X28. [getNonce] on arrays of any length: the nonce has the length
    of the IV, the bytes of the chunk index are xored into it from its
    fifth byte on as far as both arrays go, and the bytes of the index
    beyond the end of the IV are dropped.  When the index fits the IV, two
    indices of one length give the same nonce only if they are equal:
    under one IV, distinct chunks get distinct nonces. *)
Theorem gcm_nonce_distinct (h : GCM.store) (iv c1 : GCM.ref)
                           (ivb c1b : list Z) :
  h !! iv = Some ivb -> h !! c1 = Some c1b ->
  JS.bytes_ok ivb -> JS.bytes_ok c1b ->
  (GCM.getNonce h iv c1).1 !! (GCM.getNonce h iv c1).2
  = Some (take 4 ivb ++ zip_with Z.lxor (drop 4 ivb) c1b
            ++ drop (4 + length c1b) ivb) /\
  forall c2 c2b,
    h !! c2 = Some c2b -> JS.bytes_ok c2b ->
    length c1b = length c2b -> (4 + length c1b <= length ivb)%nat ->
    (GCM.getNonce h iv c1).1 !! (GCM.getNonce h iv c1).2
    = (GCM.getNonce h iv c2).1 !! (GCM.getNonce h iv c2).2 ->
    c1b = c2b.
Proof.
  intros Hiv H1 Hok Hok1.
  rewrite (getNonce_bytes h iv c1 ivb c1b) by done. cbn [fst snd].
  rewrite list_lookup_insert_eq by (rewrite length_app; simpl; lia).
  split; [reflexivity|].
  intros c2 c2b H2 Hok2 Hlen Hfit.
  rewrite (getNonce_bytes h iv c2 ivb c2b) by done. cbn [fst snd].
  rewrite list_lookup_insert_eq by (rewrite length_app; simpl; lia).
  intros [= Heq]. apply app_inv_head in Heq. rewrite <- Hlen in Heq.
  apply app_inv_tail in Heq.
  apply (zip_xor_inj (drop 4 ivb)); [done|rewrite length_drop; lia|done].
Qed.

(** A 16-byte IV and a 2-byte index. *)
Lemma gcm_nonce_distinct_witness :
  (GCM.getNonce [[1; 2; 3; 4; 5; 6; 7; 8; 9; 10; 11; 12; 13; 14; 15; 16];
                 [255; 1]] 0 1).1
    !! (GCM.getNonce [[1; 2; 3; 4; 5; 6; 7; 8; 9; 10; 11; 12; 13; 14; 15; 16];
                      [255; 1]] 0 1).2
  = Some (take 4 [1; 2; 3; 4; 5; 6; 7; 8; 9; 10; 11; 12; 13; 14; 15; 16]
          ++ zip_with Z.lxor
               (drop 4 [1; 2; 3; 4; 5; 6; 7; 8; 9; 10; 11; 12; 13; 14; 15; 16])
               [255; 1]
          ++ drop (4 + length [255; 1])
               [1; 2; 3; 4; 5; 6; 7; 8; 9; 10; 11; 12; 13; 14; 15; 16]).
Proof.
  apply (gcm_nonce_distinct
           [[1; 2; 3; 4; 5; 6; 7; 8; 9; 10; 11; 12; 13; 14; 15; 16]; [255; 1]]
           0 1 [1; 2; 3; 4; 5; 6; 7; 8; 9; 10; 11; 12; 13; 14; 15; 16] [255; 1]);
    try reflexivity; repeat constructor; lia.
Defined.

(** * Native line endings *)

Section NativeReference.
Import JS Util Spec.

Lemma native_eol_cr l :
  native_eol (CR :: l)
  = if starts_with_lf l then native_eol l else CR :: native_eol l.
Proof. reflexivity. Qed.

Lemma native_eol_other b l : b <> CR -> native_eol (b :: l) = b :: native_eol l.
Proof. intros H. simpl. by replace (b =? CR) with false by lia. Qed.

(** A stretch without CR is copied. *)
Lemma native_eol_no_cr seg l :
  ~ In CR seg -> native_eol (seg ++ l) = seg ++ native_eol l.
Proof.
  induction seg as [|b seg IH]; intros Hnin; [reflexivity|].
  simpl app. rewrite native_eol_other by (intros ->; apply Hnin; by left).
  rewrite IH; [reflexivity|]. intros Hin. apply Hnin. by right.
Qed.

(** The text can be cut anywhere but between a CR and an LF. *)
Lemma native_eol_app a b :
  ends_with_cr false a && starts_with_lf b = false ->
  native_eol (a ++ b) = native_eol a ++ native_eol b.
Proof.
  induction a as [|x a IH]; intros H; [reflexivity|].
  destruct a as [|y a].
  - change (ends_with_cr false [x]) with (x =? CR) in H.
    change (native_eol ([x] ++ b))
      with (if (x =? CR) && starts_with_lf b
            then native_eol b else x :: native_eol b).
    rewrite H.
    change (native_eol [x]) with (if (x =? CR) && false then [] else [x]).
    rewrite andb_false_r. reflexivity.
  - assert (IH' : native_eol ((y :: a) ++ b) = native_eol (y :: a) ++ native_eol b).
    { apply IH. rewrite !ends_with_cr_cons in H.
      by rewrite ends_with_cr_cons. }
    change (native_eol ((x :: y :: a) ++ b))
      with (if (x =? CR) && (y =? LF)
            then native_eol ((y :: a) ++ b)
            else x :: native_eol ((y :: a) ++ b)).
    change (native_eol (x :: y :: a))
      with (if (x =? CR) && (y =? LF)
            then native_eol (y :: a) else x :: native_eol (y :: a)).
    destruct ((x =? CR) && (y =? LF)); rewrite IH'; reflexivity.
Qed.

(** Making the canonical form native is making the text native. *)
Lemma native_canonical l : forall p,
  native_eol (canonical_eol p l) = native_eol l.
Proof.
  induction l as [|b l IH]; intros p; [reflexivity|].
  simpl canonical_eol.
  destruct (Z.eqb_spec b LF) as [->|Hlf].
  - destruct p; simpl negb; simpl andb; cbn [app].
    + rewrite !native_eol_other by (unfold CR, LF; lia). by rewrite IH.
    + rewrite native_eol_cr.
      change (starts_with_lf (LF :: canonical_eol (LF =? CR) l)) with true.
      cbv iota.
      rewrite !native_eol_other by (unfold CR, LF; lia). by rewrite IH.
  - simpl andb. cbn [app].
    destruct (Z.eqb_spec b CR) as [->|Hcr].
    + rewrite !native_eol_cr, IH.
      assert (Hs : starts_with_lf (canonical_eol true l) = starts_with_lf l).
      { destruct l as [|c l]; [reflexivity|]. simpl.
        rewrite andb_false_r. reflexivity. }
      by rewrite Hs.
    + rewrite !native_eol_other by done. by rewrite IH.
Qed.

(** A text without CR LF is native. *)
Lemma native_eol_id l : no_crlf l -> native_eol l = l.
Proof.
  induction l as [|b l IH]; intros H; [reflexivity|].
  assert (Hl : no_crlf l).
  { intros i Hi. apply (H (S i)). exact Hi. }
  simpl. rewrite (IH Hl).
  destruct (Z.eqb_spec b CR) as [->|Hb]; [|reflexivity].
  destruct l as [|c l]; [reflexivity|]. simpl.
  destruct (Z.eqb_spec c LF) as [->|Hc]; [|reflexivity].
  exfalso. by apply (H O).
Qed.

End NativeReference.

Section NativeCode.
Import JS Util Spec.

(** Copying a stretch of the array to the left, over what was written
    out already: the stretch follows the output, and as many bytes as
    there were between the two lie after it. *)
Lemma copyWithin_segment out pad seg rest :
  exists pad',
    len pad' = len pad /\
    copyWithin (out ++ pad ++ seg ++ rest) (len out) (len out + len pad)
               (len out + len pad + len seg)
    = (out ++ seg) ++ pad' ++ rest.
Proof.
  pose proof (len_nonneg out) as Ho. pose proof (len_nonneg pad) as Hp.
  pose proof (len_nonneg seg) as Hs. pose proof (len_nonneg rest) as Hr.
  exists (drop (length seg) (pad ++ seg)). split.
  { unfold len. rewrite length_drop, length_app. lia. }
  assert (Hdrop : drop (length out + length seg) (out ++ pad ++ seg ++ rest)
                  = drop (length seg) (pad ++ seg) ++ rest).
  { rewrite drop_app_add'; [|reflexivity].
    rewrite (app_assoc pad seg rest).
    apply drop_app_le. rewrite length_app. lia. }
  unfold copyWithin, clamp_index. rewrite !len_app.
  replace (len out <? 0) with false by lia.
  replace (len out + len pad <? 0) with false by lia.
  replace (len out + len pad + len seg <? 0) with false by lia.
  rewrite !Z.min_l by lia.
  replace (len out + len pad + len seg - (len out + len pad)) with (len seg) by lia.
  destruct (Z.ltb_spec 0 (len seg)) as [Hpos|Hzero].
  - rewrite <- app_assoc. f_equal.
    + unfold len. rewrite Nat2Z.id. apply take_app_length.
    + replace (Z.to_nat (len out + len pad)) with (length out + length pad)%nat
        by (unfold len; lia).
      rewrite drop_app_add'; [|reflexivity].
      rewrite drop_app_length.
      replace (Z.to_nat (len seg)) with (length seg) by (unfold len; lia).
      rewrite take_app_length. f_equal.
      replace (Z.to_nat (len out + len seg)) with (length out + length seg)%nat
        by (unfold len; lia).
      exact Hdrop.
  - assert (seg = []) as -> by (destruct seg; [done|rewrite len_cons in Hzero; pose proof (len_nonneg seg); lia]).
    simpl. rewrite !app_nil_r. reflexivity.
Qed.

Lemma get_at_suffix a b : is_byte (get (a ++ b) (len a)) LF = starts_with_lf b.
Proof.
  unfold get. pose proof (len_nonneg a).
  replace (len a <? 0) with false by lia.
  unfold len. rewrite Nat2Z.id.
  rewrite lookup_app_r by lia. rewrite Nat.sub_diag.
  by destruct b.
Qed.

(** The loop of [nativeEOL]: [out] is what was written so far, [todo]
    what is still to be read, and the fuel that [process_native] gives is
    enough. *)
Lemma native_loop_spec fuel : forall out pad todo,
  (length todo < fuel)%nat ->
  exists arr j,
    native_loop fuel (out ++ pad ++ todo) (len out + len pad) (len out)
    = Some (arr, j) /\
    subarray arr 0 j = out ++ native_eol todo.
Proof.
  induction fuel as [|fuel IH]; intros out pad todo Hfuel; [lia|].
  pose proof (len_nonneg out) as Ho. pose proof (len_nonneg pad) as Hp.
  pose proof (len_nonneg todo) as Ht.
  cbn [native_loop]. cbv zeta.
  destruct todo as [|t todo0].
  { rewrite app_nil_r, len_app, Z.eqb_refl.
    exists (out ++ pad), (len out). split; [reflexivity|].
    rewrite subarray_clamp by lia. change (Z.to_nat 0) with O.
    rewrite drop_0, Z.sub_0_r. unfold len. rewrite Nat2Z.id.
    simpl. by rewrite app_nil_r, take_app_length. }
  set (todo := t :: todo0) in *.
  assert (Htpos : 0 < len todo) by (subst todo; rewrite len_cons; pose proof (len_nonneg todo0); lia).
  set (array := out ++ pad ++ todo).
  assert (Hlen : len array = len out + len pad + len todo)
    by (subst array; rewrite !len_app; lia).
  replace (len out + len pad =? len array) with false by lia.
  assert (Hidx : indexOf array CR (len out + len pad)
                 = indexOf_aux todo CR (len out + len pad)).
  { subst array. rewrite app_assoc, <- len_app. apply indexOf_at_suffix. }
  rewrite Hidx.
  assert (Hskip : forall seg rest, todo = seg ++ rest ->
            exists pad',
              len pad' = len pad /\
              (if len out + len pad =? 0 then array
               else copyWithin array (len out) (len out + len pad)
                      (len out + len pad + len seg))
              = (out ++ seg) ++ pad' ++ rest).
  { intros seg rest E.
    destruct (copyWithin_segment out pad seg rest) as (pad' & Hl & Hc).
    destruct (Z.eqb_spec (len out + len pad) 0) as [Hz|Hnz].
    - assert (out = []) as -> by (destruct out; [done|rewrite len_cons in Hz; pose proof (len_nonneg out); lia]).
      assert (pad = []) as -> by (destruct pad; [done|rewrite len_cons in Hz; pose proof (len_nonneg pad); change (len []) with 0 in Hz; lia]).
      exists []. split; [reflexivity|]. subst array. by rewrite E.
    - exists pad'. split; [exact Hl|]. subst array. by rewrite E. }
  destruct (first_occurrence CR todo) as [Hnin|(seg & todo' & E & Hnin)].
  - (* no CR is left *)
    rewrite indexOf_aux_absent by done.
    change (-1 + 1 =? 0) with true. cbv iota.
    assert (Hget : is_byte (get array (len array)) LF = false).
    { rewrite <- (app_nil_r array) at 1. by rewrite get_at_suffix. }
    rewrite Hget. rewrite Z.sub_0_r.
    destruct (Hskip todo [] ltac:(by rewrite app_nil_r)) as (pad' & Hl & Hc).
    replace (len array) with (len out + len pad + len todo) by lia.
    rewrite Hc.
    assert (Hfuel' : (length (@nil Z) < fuel)%nat)
      by (unfold len in Htpos; simpl; lia).
    destruct (IH (out ++ todo) pad' [] Hfuel') as (arr & j & Hloop & Hsub).
    exists arr, j. split.
    + rewrite <- Hloop. f_equal; rewrite ?len_app; lia.
    + rewrite Hsub. rewrite <- app_assoc. f_equal.
      rewrite <- (app_nil_r todo) at 2.
      by rewrite native_eol_no_cr.
  - (* the next CR *)
    rewrite E, indexOf_aux_found by done.
    pose proof (len_nonneg seg) as Hseg.
    replace (len out + len pad + len seg + 1 =? 0) with false by lia.
    assert (Hget : is_byte (get array (len out + len pad + len seg + 1)) LF
                   = starts_with_lf todo').
    { subst array. rewrite E.
      replace (out ++ pad ++ seg ++ CR :: todo')
        with ((out ++ pad ++ seg ++ [CR]) ++ todo')
        by (by rewrite <- !app_assoc).
      replace (len out + len pad + len seg + 1)
        with (len (out ++ pad ++ seg ++ [CR]))
        by (rewrite !len_app; change (len [CR]) with 1; lia).
      apply get_at_suffix. }
    rewrite <- E, Hget.
    assert (Hfuel' : (length todo' < fuel)%nat).
    { assert (length todo = length seg + S (length todo'))%nat
        by (rewrite E, length_app; reflexivity).
      lia. }
    assert (Hnat : native_eol todo
                   = seg ++ (if starts_with_lf todo' then native_eol todo'
                             else CR :: native_eol todo'))
      by (by rewrite E, native_eol_no_cr, native_eol_cr).
    rewrite Hnat.
    destruct (starts_with_lf todo') eqn:Hs.
    + (* CR LF: the CR is left out *)
      destruct (Hskip seg (CR :: todo') E) as (pad' & Hl & Hc).
      replace (len out + len pad + len seg + 1 - 1)
        with (len out + len pad + len seg) by lia.
      rewrite Hc.
      destruct (IH (out ++ seg) (pad' ++ [CR]) todo' Hfuel')
        as (arr & j & Hloop & Hsub).
      exists arr, j. split.
      * rewrite <- Hloop. rewrite <- !app_assoc. simpl app.
        f_equal; rewrite ?len_app; change (len [CR]) with 1; lia.
      * rewrite Hsub. by rewrite <- app_assoc.
    + (* a CR that stays *)
      destruct (Hskip (seg ++ [CR]) todo'
                  ltac:(by rewrite <- app_assoc)) as (pad' & Hl & Hc).
      replace (len out + len pad + len seg + 1 - 0)
        with (len out + len pad + len (seg ++ [CR]))
        by (rewrite len_app; change (len [CR]) with 1; lia).
      rewrite Hc.
      destruct (IH (out ++ seg ++ [CR]) pad' todo' Hfuel')
        as (arr & j & Hloop & Hsub).
      exists arr, j. split.
      * rewrite <- Hloop. rewrite <- !app_assoc.
        f_equal; rewrite ?len_app; change (len [CR]) with 1; lia.
      * rewrite Hsub. by rewrite <- !app_assoc.
Qed.

(** One chunk: the CR carried over is put in front unless the chunk
    starts with LF, a trailing CR is held back, and what is passed on is
    the native form of the rest. *)
Lemma process_native_spec (carry : bool) (chunk : list Z) :
  let bytes := (if carry && negb (starts_with_lf chunk) then [CR] else [])
               ++ chunk in
  exists body,
    bytes = body ++ (if ends_with_cr false bytes then [CR] else []) /\
    process_native carry chunk
    = Some (ends_with_cr false bytes, native_eol body).
Proof.
  intros bytes. unfold process_native.
  assert (Hfirst : is_byte (get chunk 0) LF = starts_with_lf chunk)
    by apply (get_at_suffix [] chunk).
  rewrite Hfirst.
  replace (if carry && negb (starts_with_lf chunk)
           then [CR] ++ chunk else chunk) with bytes
    by (unfold bytes; by destruct (carry && negb (starts_with_lf chunk))).
  assert (Hends : is_byte (get bytes (len bytes - 1)) CR
                  = ends_with_cr false bytes).
  { rewrite <- (app_nil_r bytes) at 1. rewrite get_before.
    unfold ends_with_cr. by destruct (last bytes). }
  cbv zeta. rewrite Hends. clearbody bytes.
  assert (Hbody : exists body,
            bytes = body ++ (if ends_with_cr false bytes then [CR] else []) /\
            (if ends_with_cr false bytes then subarray bytes 0 (-1) else bytes)
            = body).
  { unfold ends_with_cr. destruct (last bytes) as [b|] eqn:Hl.
    - destruct (Z.eqb_spec b CR) as [->|Hb].
      + apply last_Some in Hl as [body ->]. exists body.
        split; [reflexivity|]. apply subarray_drop_last.
      + exists bytes. by rewrite app_nil_r.
    - exists bytes. by rewrite app_nil_r. }
  destruct Hbody as (body & Hsplit & ->). exists body. split; [exact Hsplit|].
  destruct (native_loop_spec (S (length body)) [] [] body ltac:(lia))
    as (arr & j & Hloop & Hsub).
  simpl app in Hloop, Hsub. change (len [] + len []) with 0 in Hloop.
  change (len []) with 0 in Hloop.
  rewrite Hloop, Hsub. reflexivity.
Qed.

(** The whole stream: the chunks passed on, concatenated, are the native
    form of the concatenated input (after the CR held back from an
    earlier chunk, if any). *)
Lemma transform_native_spec (data : list (list Z)) : forall carry : bool,
  exists outs,
    transform_native carry data = Some outs /\
    concat outs = native_eol ((if carry then [CR] else []) ++ concat data).
Proof.
  induction data as [|chunk data IH]; intros carry.
  - exists (if carry then [[CR]] else []). split; [reflexivity|].
    by destruct carry.
  - destruct (process_native_spec carry chunk) as (body & Hsplit & Hproc).
    cbv zeta in Hsplit, Hproc.
    set (bytes := (if carry && negb (starts_with_lf chunk) then [CR] else [])
                  ++ chunk) in *.
    destruct (IH (ends_with_cr false bytes)) as (outs & Htr & Hcat).
    exists (native_eol body :: outs).
    cbn [transform_native]. rewrite Hproc, Htr. split; [reflexivity|].
    cbn [concat]. rewrite Hcat.
    assert (Hin : native_eol ((if carry then [CR] else []) ++ chunk ++ concat data)
                  = native_eol (bytes ++ concat data)).
    { subst bytes. destruct carry; [|reflexivity].
      destruct chunk as [|c chunk]; [reflexivity|].
      simpl starts_with_lf. destruct (c =? LF) eqn:Hc; [|reflexivity].
      simpl andb. cbv iota. simpl app.
      rewrite native_eol_cr. simpl starts_with_lf. by rewrite Hc. }
    rewrite Hin. clearbody bytes.
    destruct (ends_with_cr false bytes) eqn:He.
    + subst bytes. rewrite <- !app_assoc.
      symmetry. apply native_eol_app. apply andb_false_r.
    + rewrite app_nil_r in Hsplit. subst body. simpl app.
      symmetry. apply native_eol_app. by rewrite He.
Qed.

(** Only CRs are taken out. *)
Lemma native_eol_filter l :
  List.filter (fun b => negb (b =? CR)) (native_eol l)
  = List.filter (fun b => negb (b =? CR)) l.
Proof.
  induction l as [|b l IH]; [reflexivity|].
  change (native_eol (b :: l))
    with (if (b =? CR) && starts_with_lf l
          then native_eol l else b :: native_eol l).
  destruct (b =? CR) eqn:Hb.
  - destruct (starts_with_lf l); simpl; rewrite Hb; exact IH.
  - simpl. rewrite Hb. simpl. by rewrite IH.
Qed.

End NativeCode.

(** X29. On every input, however it is cut into chunks, [nativeEOL]
    terminates; its output, concatenated, is the input without the CRs
    that an LF follows directly, also where a chunk ends between the two.
    Hence the bytes other than CR are those of the input in the same
    order, and an input without CR LF comes out unchanged. *)
Theorem nativeEOL_lf (data : list (list Z)) :
  exists outs,
    Util.nativeEOL data = Some outs /\
    concat outs = Spec.native_eol (concat data) /\
    List.filter (fun b => negb (b =? Util.CR)) (concat outs)
      = List.filter (fun b => negb (b =? Util.CR)) (concat data) /\
    (Spec.no_crlf (concat data) -> concat outs = concat data).
Proof.
  destruct (transform_native_spec data false) as (outs & Htr & Hcat).
  simpl app in Hcat. exists outs. split; [exact Htr|]. split; [exact Hcat|].
  rewrite Hcat. split.
  - apply native_eol_filter.
  - apply native_eol_id.
Qed.

(** X30. [nativeEOL] after [canonicalizeEOL], whatever the chunks: both
    terminate, and the result is the native form of the input, which is
    the input itself when it holds no CR LF. *)
Theorem canonicalizeEOL_nativeEOL (data : list (list Z)) :
  exists mids outs,
    Util.canonicalizeEOL data = Some (Ok mids) /\
    Util.nativeEOL mids = Some outs /\
    concat outs = Spec.native_eol (concat data) /\
    (Spec.no_crlf (concat data) -> concat outs = concat data).
Proof.
  destruct (transform_spec data false) as (mids & Hcan & Hmid).
  destruct (transform_native_spec mids false) as (outs & Hnat & Hcat).
  simpl app in Hmid, Hcat. exists mids, outs.
  split; [exact Hcan|]. split; [exact Hnat|].
  rewrite Hcat, Hmid, native_canonical. split; [reflexivity|].
  apply native_eol_id.
Qed.
